(** * Mini-Google: a shallow embedding of [Mini.cpp]

    The development follows the source file top to bottom: character
    helpers, the tokenizer, the trie with its prefix cache, the snippet
    extractor, the inverted index and the ranking engine with its result
    cache.  [std::string] is [string] (a sequence of bytes), [int] values
    that come from the command line are [Z] with their 32-bit wrap-around
    written out, counters that only count list nodes are unbounded, the
    [unordered_map]s are [gmap]s and [float] is an abstract type with the
    operations the source applies to it. *)

From Stdlib Require Import String Ascii ZArith QArith Qabs List Lia Bool Permutation.
From stdpp Require Import gmap strings list fin_maps pretty sorting.

Local Open Scope string_scope.
Local Open Scope Z_scope.
Local Open Scope list_scope.

(** ** Characters ([<cctype>] in the "C" locale) *)

Module Chars.

Definition code (c : ascii) : Z := Z.of_N (N_of_ascii c).

(** The value of a plain (signed) [char]. *)
Definition char_val (c : ascii) : Z :=
  if code c <? 128 then code c else code c - 256.

Definition isdigit (c : ascii) : bool := (48 <=? code c) && (code c <=? 57).
Definition isupper (c : ascii) : bool := (65 <=? code c) && (code c <=? 90).
Definition islower (c : ascii) : bool := (97 <=? code c) && (code c <=? 122).
Definition isalpha (c : ascii) : bool := isupper c || islower c.
Definition isalnum (c : ascii) : bool := isalpha c || isdigit c.

Definition tolower (c : ascii) : ascii :=
  if isupper c then ascii_of_N (N_of_ascii c + 32) else c.

Definition is_nul (c : ascii) : bool := code c =? 0.

End Chars.

Import Chars.

(** ** String helpers *)

Fixpoint toLowerFast (s : string) : string :=
  match s with
  | EmptyString => EmptyString
  | String c rest => String (tolower c) (toLowerFast rest)
  end.

Fixpoint all_of (f : ascii -> bool) (s : string) : bool :=
  match s with
  | EmptyString => true
  | String c rest => f c && all_of f rest
  end.

Definition slen (s : string) : Z := Z.of_nat (String.length s).

Fixpoint repeat_string (n : nat) (s : string) : string :=
  match n with
  | O => EmptyString
  | S n' => s +:+ repeat_string n' s
  end.

(** ** Tokenizer *)

Definition STOP_WORDS : list string :=
  [ "the"; "and"; "for"; "are"; "but"; "not"; "you"; "all"; "any"; "can";
    "had"; "her"; "was"; "one"; "our"; "out"; "day"; "get"; "has"; "him";
    "his"; "how"; "man"; "new"; "now"; "old"; "see"; "two"; "way"; "who";
    "boy"; "did"; "its"; "let"; "put"; "say"; "she"; "too"; "use"; "may";
    "also"; "than"; "that"; "this"; "with"; "from"; "have"; "were"; "been";
    "they"; "what"; "when"; "where"; "which"; "will"; "your"; "their" ].

Definition is_stop_word (w : string) : bool :=
  existsb (String.eqb w) STOP_WORDS.

(** The test both exits of the scanner apply to the contents of [buffer]:
    length 2 to 15, not a stop word, not made of digits only. *)
Definition keep_word (word : string) : bool :=
  (2 <=? slen word) && (slen word <=? 15)
  && negb (is_stop_word word) && negb (all_of isdigit word).

(** [buffer[buf_idx++] = tolower(c)] guarded by [buf_idx < 31]. *)
Definition buffer_put (buffer : string) (c : ascii) : string :=
  if slen buffer <? 31 then buffer +:+ String (tolower c) EmptyString
  else buffer.

(** The scanning loop (it runs while the byte at [ptr] is not NUL and
    [n_added < 100000]) followed by the flush after it.  [text] is what is
    left at [ptr], [buffer] the first [buf_idx] bytes of the scan buffer; a
    [push_back] is the next element of the result.  The loop reads
    [text.c_str()], so it ends at the first NUL byte as well as at the end
    of the string. *)
Fixpoint tokenize_scan (text : string) (buffer : string) (n_added : Z)
  : list string :=
  match text with
  | EmptyString => if keep_word buffer then [buffer] else []
  | String c rest =>
      if is_nul c || negb (n_added <? 100000) then
        if keep_word buffer then [buffer] else []
      else if isalnum c then
        tokenize_scan rest (buffer_put buffer c) n_added
      else if 0 <? slen buffer then
        if keep_word buffer
        then buffer :: tokenize_scan rest EmptyString (n_added + 1)
        else tokenize_scan rest EmptyString n_added
      else tokenize_scan rest buffer n_added
  end.

Definition tokenize_ultrafast (text : string) : list string :=
  match text with
  | EmptyString => []
  | _ => tokenize_scan text EmptyString 0
  end.

(** ** The fixed-capacity queue

    [FixedQueue] is a ring buffer of [MAX_QUEUE_SIZE] slots; its contents
    from [front] to [rear] are a list, and [count] is the length of that
    list. *)

Definition MAX_QUEUE_SIZE : Z := 1024.

Module FixedQueue.
Section FixedQueue.
Context {T : Type}.

Definition init : list T := [].
Definition empty (q : list T) : bool :=
  match q with [] => true | _ => false end.
Definition full (q : list T) : bool :=
  Z.of_nat (length q) =? MAX_QUEUE_SIZE.
(** A push on a full queue is dropped. *)
Definition push (q : list T) (x : T) : list T :=
  if full q then q else q ++ [x].
Definition pop (q : list T) : list T := tail q.
End FixedQueue.
End FixedQueue.

(** ** The linked-list caches

    Both caches are singly linked lists of (key, results) entries with a
    size counter that is the length of the list; [head] is the first
    element.  [find_in_cache] and [insert_in_cache] are written once here
    and used by the trie (capacity [max_cache_size]) and by the engine
    (capacity 1000). *)

Module Cache.
Section Cache.
Context {R : Type}.

Record Entry := mkEntry { key : string; results : R }.

Fixpoint find_in_cache (head : list Entry) (k : string) : option R :=
  match head with
  | [] => None
  | entry :: next =>
      if String.eqb (key entry) k then Some (results entry)
      else find_in_cache next k
  end.

(** When the size has reached the capacity the node at [head] is
    unlinked; the new entry is then linked in front of [head]. *)
Definition insert_in_cache (capacity : Z) (head : list Entry)
    (k : string) (r : R) : list Entry :=
  let head' :=
    if capacity <=? Z.of_nat (length head) then tail head else head in
  mkEntry k r :: head'.
End Cache.
Arguments Entry : clear implicits.
End Cache.

(** ** The trie *)

Module UltraFastTrie.

#[warnings="-register-all"]
Inductive Node := mkNode { is_end : bool; children : list (option Node) }.

(** [new Node()] *)
Definition new_node : Node := mkNode false (replicate 26 None).

Definition PrefixCacheEntry := Cache.Entry (list string).

Record t := mkTrie {
  root : Node;
  prefix_cache_head : list PrefixCacheEntry
}.

Definition max_cache_size : Z := 1000.

Definition find_in_cache (tr : t) (k : string) : option (list string) :=
  Cache.find_in_cache (prefix_cache_head tr) k.

Definition insert_in_cache (tr : t) (k : string) (r : list string) : t :=
  mkTrie (root tr)
         (Cache.insert_in_cache max_cache_size (prefix_cache_head tr) k r).

Definition empty : t := mkTrie new_node [].

(** [c - 'a'] *)
Definition letter_index (c : ascii) : Z := char_val c - 97.

(** [cur->children[idx]], a null pointer being [None]. *)
Definition child (cur : Node) (idx : Z) : option Node :=
  match children cur !! Z.to_nat idx with
  | Some (Some n) => Some n
  | _ => None
  end.

(** The walk of [insert] below [cur]: it creates the missing nodes as it
    goes and gives up, leaving them in place, at the first byte that is not
    a lower-case letter. *)
Fixpoint insert_from (cur : Node) (word : string) : Node :=
  match word with
  | EmptyString => mkNode true (children cur)
  | String c rest =>
      let idx := letter_index c in
      if (idx <? 0) || (26 <=? idx) then cur
      else
        let next := default new_node (child cur idx) in
        mkNode (is_end cur)
               (<[Z.to_nat idx := Some (insert_from next rest)]> (children cur))
  end.

Definition insert (tr : t) (word : string) : t :=
  if (slen word =? 0) || (25 <? slen word) then tr
  else mkTrie (insert_from (root tr) word) (prefix_cache_head tr).

(** The walk of [starts_with] along the prefix; [None] when an edge is
    missing or a byte is not a lower-case letter. *)
Fixpoint walk (cur : Node) (prefix : string) : option Node :=
  match prefix with
  | EmptyString => Some cur
  | String c rest =>
      let idx := letter_index c in
      if (idx <? 0) || (26 <=? idx) then None
      else match child cur idx with
           | Some n => walk n rest
           | None => None
           end
  end.

(** [for (i = 0; i < 26; i++) if (node->children[i]) q.push(...)], from
    index [i] on. *)
Fixpoint push_children (q : list (Node * string))
    (cs : list (option Node)) (i : nat) (str : string)
  : list (Node * string) :=
  match cs with
  | [] => q
  | c :: cs' =>
      let q' :=
        match c with
        | Some n =>
            FixedQueue.push q
              (n, str +:+ String (ascii_of_nat (97 + i)) EmptyString)
        | None => q
        end in
      push_children q' cs' (S i) str
  end.

(** The breadth-first loop; one unit of [fuel] per iteration. *)
Fixpoint bfs (fuel : nat) (q : list (Node * string))
    (results : list string) (limit : Z) : list string :=
  match fuel with
  | O => results
  | S fuel' =>
      match q with
      | [] => results
      | (node, str) :: q' =>
          if Z.of_nat (length results) <? limit then
            let results' :=
              if is_end node then results ++ [str] else results in
            let q'' :=
              if Z.of_nat (length results') <? limit
              then push_children q' (children node) 0 str
              else q' in
            bfs fuel' q'' results' limit
          else results
      end
  end.

(** Number of nodes of a subtree: every iteration of the loop takes one
    node out of the queue and the queue only ever receives nodes of the
    subtree below the prefix, each at most once. *)
Fixpoint node_count (n : Node) : nat :=
  match n with
  | mkNode _ cs =>
      S ((fix go (cs : list (option Node)) : nat :=
            match cs with
            | [] => O
            | Some m :: cs' => (node_count m + go cs')%nat
            | None :: cs' => go cs'
            end) cs)
  end.

Definition cache_key (prefix : string) (limit : Z) : string :=
  prefix +:+ "|" +:+ pretty limit.

Definition starts_with (tr : t) (prefix : string) (limit : Z)
  : list string * t :=
  let cache_key := cache_key prefix limit in
  match find_in_cache tr cache_key with
  | Some found => (found, tr)
  | None =>
      let results :=
        match prefix with
        | EmptyString => []
        | _ =>
            match walk (root tr) prefix with
            | None => []
            | Some cur =>
                bfs (node_count cur) (FixedQueue.push FixedQueue.init (cur, prefix))
                    [] limit
            end
        end in
      (results, insert_in_cache tr cache_key results)
  end.

(** [clear] *)
Definition clear (tr : t) : t := empty.

(** A word is stored when the walk along it ends on a node flagged
    [is_end]. *)
Definition contains (tr : t) (word : string) : bool :=
  match walk (root tr) word with
  | Some n => is_end n
  | None => false
  end.

End UltraFastTrie.

(** ** [std::sort]

    The library sort is outside the repository.  It promises a sorted
    rearrangement of its input when the comparison is a strict weak order,
    in an order among equivalent elements that is its own choice, and
    nothing otherwise.  Straight insertion stands for it here, [comp x y]
    meaning that [x] has to come before [y]; the properties below only use
    what [std::sort] promises: that the result is a rearrangement of the
    input and, for a strict weak order, that no element has to come before
    an earlier one. *)

Section StdSort.
Context {A : Type} (comp : A -> A -> bool).

Fixpoint sort_insert (x : A) (l : list A) : list A :=
  match l with
  | [] => [x]
  | y :: l' => if comp x y then x :: l else y :: sort_insert x l'
  end.

Definition std_sort (l : list A) : list A := foldr sort_insert [] l.
End StdSort.

(** ** Snippet extraction *)

(** [text.find(term, pos)], [None] being [npos]. *)
Definition find (text term : string) (pos : nat) : option nat :=
  String.index pos term text.

(** [text.substr(start, n)] for [start] within the text. *)
Definition substr (text : string) (start n : nat) : string :=
  String.substring start n text.

(** The inner [while] of the match collection for one term: every
    iteration moves [pos] past the match it has found, so the length of
    the text plus one bounds the number of iterations. *)
Fixpoint find_all (fuel : nat) (text term : string) (pos : nat)
  : list (nat * string) :=
  match fuel with
  | O => []
  | S fuel' =>
      match find text term pos with
      | Some p => (p, term) :: find_all fuel' text term (S p)
      | None => []
      end
  end.

Definition collect_matches (text : string) (query_terms : list string)
  : list (nat * string) :=
  flat_map (fun term =>
              if (String.length term <? 2)%nat then []
              else find_all (S (String.length text)) text term 0)
           query_terms.

(** [operator<] of [pair<size_t, string>]. *)
Definition pair_lt (a b : nat * string) : bool :=
  (fst a <? fst b)%nat
  || (negb (fst b <? fst a)%nat && String.ltb (snd a) (snd b)).

Definition newline : string := String (ascii_of_nat 10) EmptyString.

(** The loop over [i] of the branch without matches; [rest] is the text
    from offset [i] on. *)
Fixpoint first_line_snippet (text rest : string) (i : nat) : option string :=
  match rest with
  | EmptyString => None
  | String c rest' =>
      if isalpha c then
        let start := i in
        let end_ := default (String.length text) (find text newline start) in
        let snippet := substr text start (Nat.min 300 (end_ - start)) in
        if (50 <? String.length snippet)%nat then Some snippet
        else first_line_snippet text rest' (S i)
      else first_line_snippet text rest' (S i)
  end.

(** The window the source cuts around a match at [pos]. *)
Definition window (text : string) (pos : nat) : string :=
  let context_start := if (200 <? pos)%nat then (pos - 200)%nat else O in
  let context_end := Nat.min (pos + 200) (String.length text) in
  let snippet := substr text context_start (context_end - context_start) in
  let snippet := if (0 <? context_start)%nat then "..." +:+ snippet
                 else snippet in
  if (context_end <? String.length text)%nat then snippet +:+ "..."
  else snippet.

(** The loop over the sorted matches. *)
Fixpoint first_window (text : string) (matches : list (nat * string))
  : option string :=
  match matches with
  | [] => None
  | m :: rest =>
      let snippet := window text (fst m) in
      if (100 <? String.length snippet)%nat then Some snippet
      else first_window text rest
  end.

Definition head_of_text (text : string) : string :=
  substr text 0 (Nat.min 300 (String.length text)).

Definition get_snippet_improved (text : string) (query_terms : list string)
  : string :=
  match text, query_terms with
  | EmptyString, _ => EmptyString
  | _, [] => EmptyString
  | _, _ =>
      let matches := collect_matches text query_terms in
      match matches with
      | [] =>
          default (head_of_text text) (first_line_snippet text text 0)
      | _ =>
          default (head_of_text text)
                  (first_window text (std_sort pair_lt matches))
      end
  end.

(** ** The directory scanner

    The branch compiled where [_WIN32] is not defined.  What [readdir] and
    [stat] give for the entries of the directory: the
    name of an entry and, when [stat] succeeds on its path, whether it is a
    regular file and its size.  The directory is taken not to change
    during the scan, so that the [stat] of the sorting loop reads the size
    the first one has read. *)

Record Stat := mkStat { S_ISREG : bool; st_size : Z }.

Record DirEntry := mkDirEntry { d_name : string; d_stat : option Stat }.

(** [filename.length() > 4 && filename.substr(filename.length() - 4) ==
    ".txt"] *)
Definition ends_with_txt (filename : string) : bool :=
  (4 <? String.length filename)%nat
  && String.eqb (substr filename (String.length filename - 4) 4) ".txt".

(** The body of the loop over the directory: the path and the size of an
    entry that is kept. *)
Definition scan_entry (dirpath : string) (entry : DirEntry)
  : option (string * Z) :=
  if ends_with_txt (d_name entry) then
    let full_path := dirpath +:+ "/" +:+ d_name entry in
    match d_stat entry with
    | Some file_stat =>
        if S_ISREG file_stat && (st_size file_stat <=? 200 * 1024 * 1024)
        then Some (full_path, st_size file_stat)
        else None
    | None => None
    end
  else None.

(** The inner loop of the size sort, as in the length sort of the
    index. *)
Fixpoint size_pass (x : string * Z) (rest : list (string * Z))
  : (string * Z) * list (string * Z) :=
  match rest with
  | [] => (x, [])
  | y :: rest' =>
      if snd y <? snd x then
        let '(x', r) := size_pass y rest' in (x', x :: r)
      else
        let '(x', r) := size_pass x rest' in (x', y :: r)
  end.

Fixpoint size_sort (fuel : nat) (l : list (string * Z))
  : list (string * Z) :=
  match fuel, l with
  | S fuel', x :: rest =>
      let '(x', rest') := size_pass x rest in
      x' :: size_sort fuel' rest'
  | _, _ => l
  end.

(** The sorter list after the sort; it is built by pushing in front. *)
Definition sorted_by_size (dirpath : string) (entries : list DirEntry)
  : list (string * Z) :=
  let sort_head := rev (omap (scan_entry dirpath) entries) in
  size_sort (length sort_head) sort_head.

(** [scan_files_optimized] for a directory that cannot be opened ([None])
    or has the given entries. *)
Definition scan_files_optimized (dirpath : string)
    (dir : option (list DirEntry)) : list string :=
  match dir with
  | None => []
  | Some entries => map fst (sorted_by_size dirpath entries)
  end.

(** ** Postings and documents *)

(** Conversion to a [bits]-bit two's complement integer. *)
Definition wrap (bits : Z) (x : Z) : Z :=
  (x + 2 ^ (bits - 1)) mod 2 ^ bits - 2 ^ (bits - 1).
Definition to_short : Z -> Z := wrap 16.
Definition to_int : Z -> Z := wrap 32.
Definition INT_MAX : Z := 2147483647.

Definition MAX_POSTING_POSITIONS : Z := 50.

Module Posting.
(** [positions] holds the first [pos_size] slots of the array, each a
    [short]. *)
Record t := mk { docID : Z; freq : Z; positions : list Z }.
Definition pos_size (p : t) : Z := Z.of_nat (length (positions p)).
(** [Posting(d)] *)
Definition new (d : Z) : t := mk d 0 [].
End Posting.

Record Document := mkDocument {
  filename : string;
  filepath : string;
  totalTokens : Z;
  fileSize : Z;
  full_content : string
}.

(** ** The queue as the ring buffer it is

    [arr] is the array of [MAX_QUEUE_SIZE] slots, [front] the slot of the
    oldest element, [rear] the slot the next element goes to and [count]
    the number of elements. *)

Module FixedQueueRing.
Section Ring.
Context {T : Type}.

Record t := mk { arr : Z -> T; front : Z; rear : Z; count : Z }.

Definition init (q : t) : t := mk (arr q) 0 0 0.
Definition empty (q : t) : bool := count q =? 0.
Definition full (q : t) : bool := count q =? MAX_QUEUE_SIZE.
Definition clear (q : t) : t := mk (arr q) 0 0 0.

Definition push (q : t) (x : T) : bool * t :=
  if full q then (false, q)
  else (true,
        mk (fun i => if i =? rear q then x else arr q i)
           (front q)
           (Z.rem (to_int (rear q + 1)) MAX_QUEUE_SIZE)
           (to_int (count q + 1))).

Definition pop (q : t) : bool * t :=
  if empty q then (false, q)
  else (true,
        mk (arr q) (Z.rem (to_int (front q + 1)) MAX_QUEUE_SIZE) (rear q)
           (to_int (count q - 1))).

Definition front_elem (q : t) : T := arr q (front q).

(** The elements from [front] to [rear], oldest first. *)
Definition contents (q : t) : list T :=
  map (fun i => arr q ((front q + Z.of_nat i) mod MAX_QUEUE_SIZE))
      (seq 0 (Z.to_nat (count q))).

(** The indices are slots of the array and [rear] is [count] slots behind
    [front]. *)
Definition ring_ok (q : t) : Prop :=
  0 <= front q < MAX_QUEUE_SIZE
  /\ 0 <= count q <= MAX_QUEUE_SIZE
  /\ rear q = (front q + count q) mod MAX_QUEUE_SIZE.

End Ring.
Arguments t T : clear implicits.
End FixedQueueRing.

(** ** The inverted index *)

(** What the build reads for one path: [None] when the file cannot be
    opened, its bytes otherwise. *)
Record InputFile := mkInputFile {
  path : string;
  contents : option string
}.

Module HyperOptimizedIndex.

Record t := mkIndex {
  idx : gmap string (list Posting.t);
  docFreq : gmap string Z;
  docs : list Document;
  trie : UltraFastTrie.t;
  total_words_processed : Z;
  total_files_processed : Z
}.

(** [clear] *)
Definition cleared : t :=
  mkIndex ∅ ∅ [] UltraFastTrie.empty 0 0.

(** [path.find_last_of("/\\")]: the text after the last slash or
    backslash, the whole path when there is none. *)
Fixpoint basename_from (path : string) (acc : string) : string :=
  match path with
  | EmptyString => acc
  | String c rest =>
      if (code c =? 47) || (code c =? 92) then basename_from rest rest
      else basename_from rest acc
  end.
Definition basename (path : string) : string := basename_from path path.

(** The body of the token loop for token [t] at index [i]: the posting
    update, with the position stored in a [short]. *)
Definition count_token (docId : Z) (local : gmap string Posting.t)
    (i : Z) (t : string) : gmap string Posting.t :=
  let p := default (Posting.new docId) (local !! t) in
  let p' :=
    if Posting.freq p <? 1000 then
      Posting.mk (Posting.docID p) (Posting.freq p + 1)
        (if Posting.pos_size p <? MAX_POSTING_POSITIONS
         then Posting.positions p ++ [to_short i]
         else Posting.positions p)
    else p in
  <[t := p']> local.

Record Vocabulary := mkVocabulary {
  unique_words_set : gset string;
  unique_words_vec : list string
}.

Definition note_word (v : Vocabulary) (t : string) : Vocabulary :=
  if decide (t ∈ unique_words_set v) then v
  else mkVocabulary ({[t]} ∪ unique_words_set v) (unique_words_vec v ++ [t]).

Fixpoint index_tokens (docId : Z) (tokens : list string) (i : Z)
    (local : gmap string Posting.t) (v : Vocabulary)
  : gmap string Posting.t * Vocabulary :=
  match tokens with
  | [] => (local, v)
  | t :: rest =>
      index_tokens docId rest (i + 1) (count_token docId local i t)
                   (note_word v t)
  end.

(** [for (auto& kv : local) idx[kv.first].push_back(kv.second)] *)
Definition add_postings (local : gmap string Posting.t)
    (idx : gmap string (list Posting.t)) : gmap string (list Posting.t) :=
  map_fold (fun term p idx => <[term := default [] (idx !! term) ++ [p]]> idx)
           idx local.

Record BuildState := mkBuildState {
  b_idx : gmap string (list Posting.t);
  b_docs : list Document;
  b_vocabulary : Vocabulary;
  b_docId : Z;
  b_total_words_processed : Z
}.

(** One readable file of at most 100 MiB. *)
Definition ingest_file (st : BuildState) (path content : string)
  : BuildState :=
  let tokens := tokenize_ultrafast content in
  let tok_ct := Z.of_nat (length tokens) in
  let doc := mkDocument (basename path) path tok_ct (slen content) content in
  let '(local, v) :=
    index_tokens (b_docId st) tokens 0 ∅ (b_vocabulary st) in
  mkBuildState (add_postings local (b_idx st))
               (b_docs st ++ [doc])
               v
               (b_docId st + 1)
               (to_int (b_total_words_processed st + tok_ct)).

(** The loop over the files, with its two [continue]s and its [break]. *)
Fixpoint ingest (files : list InputFile) (st : BuildState) : BuildState :=
  match files with
  | [] => st
  | f :: rest =>
      match contents f with
      | None => ingest rest st
      | Some content =>
          if 100 * 1024 * 1024 <? slen content then ingest rest st
          else
            let st' := ingest_file st (path f) content in
            if 200000 <? Z.of_nat (length (unique_words_vec (b_vocabulary st')))
            then st'
            else ingest rest st'
      end
  end.

(** The inner loop of the length sort: [x] is the node at [i], the list
    the nodes [j] runs over; a swap exchanges the two payloads. *)
Fixpoint exchange_pass (x : string) (rest : list string)
  : string * list string :=
  match rest with
  | [] => (x, [])
  | y :: rest' =>
      if slen y <? slen x then
        let '(x', r) := exchange_pass y rest' in (x', x :: r)
      else
        let '(x', r) := exchange_pass x rest' in (x', y :: r)
  end.

(** The outer loop, one unit of [fuel] per node. *)
Fixpoint exchange_sort (fuel : nat) (l : list string) : list string :=
  match fuel, l with
  | S fuel', x :: rest =>
      let '(x', rest') := exchange_pass x rest in
      x' :: exchange_sort fuel' rest'
  | _, _ => l
  end.

(** The sorter list is built by pushing in front, hence the reversal. *)
Definition sort_by_length (unique_words_vec : list string) : list string :=
  let sorthead := rev unique_words_vec in
  exchange_sort (length sorthead) sorthead.

(** The body of the loop that fills the trie. *)
Definition trie_step (tr : UltraFastTrie.t) (w : string) : UltraFastTrie.t :=
  if (2 <=? slen w) && (slen w <=? 20) then UltraFastTrie.insert tr w
  else tr.

Definition build_trie (words : list string) : UltraFastTrie.t :=
  foldl trie_step UltraFastTrie.empty words.

(** [docFreq[kv.first] = (short)min(ct, 32767)] for every entry of
    [idx]. *)
Definition count_docFreq (idx : gmap string (list Posting.t))
  : gmap string Z :=
  (fun postings => to_short (Z.min (Z.of_nat (length postings)) 32767))
    <$> idx.

Definition build_from_files (files : list InputFile) : t :=
  match files with
  | [] => cleared
  | _ =>
      let st := ingest files
                  (mkBuildState ∅ [] (mkVocabulary ∅ []) 0 0) in
      mkIndex (b_idx st)
              (count_docFreq (b_idx st))
              (b_docs st)
              (build_trie
                 (sort_by_length (unique_words_vec (b_vocabulary st))))
              (b_total_words_processed st)
              (Z.of_nat (length (b_docs st)))
  end.

End HyperOptimizedIndex.

(** ** Single-precision arithmetic

    [float] is kept abstract: a type with the operations the ranker
    applies to it.  [f_lit q] is the literal written [q] in the source,
    [f_of_Z] the conversion of an integer, [flog] and [flog10] the natural
    and decimal logarithms of [<cmath>]. *)

Class FloatOps (F : Type) := {
  f_lit : Q -> F;
  f_of_Z : Z -> F;
  fadd : F -> F -> F;
  fsub : F -> F -> F;
  fmul : F -> F -> F;
  fdiv : F -> F -> F;
  flog : F -> F;
  flog10 : F -> F;
  ffabs : F -> F;
  fltb : F -> F -> bool;
  fleb : F -> F -> bool;
  fneqb : F -> F -> bool
}.

(** [std::min(a, b)] *)
Definition fmin `{FloatOps F} (a b : F) : F := if fltb b a then b else a.

(** What the comparison of two [RankedDoc]s needs from the arithmetic. *)
Class FloatLaws (F : Type) `{FloatOps F} : Prop := {
  fltb_asym : forall a b : F, fltb a b = true -> fltb b a = false;
  fneqb_sym : forall a b : F, fneqb a b = fneqb b a;
  ffabs_fsub_sym : forall a b : F, ffabs (fsub a b) = ffabs (fsub b a)
}.

(** ** Ranked results *)

Module RankedDoc.
Section RankedDoc.
Context {F : Type} `{FloatOps F}.

Record t := mk {
  docID : Z;
  score : F;
  totalOccurrences : Z;
  inTitle : bool;
  exactPhraseMatch : bool;
  titleBoost : F
}.

(** [operator<] *)
Definition lt (a other : t) : bool :=
  if negb (Bool.eqb (exactPhraseMatch a) (exactPhraseMatch other))
  then negb (exactPhraseMatch a) && exactPhraseMatch other
  else if fneqb (titleBoost a) (titleBoost other)
  then fltb (titleBoost a) (titleBoost other)
  else if fltb (f_lit (1 # 10000)) (ffabs (fsub (score a) (score other)))
  then fltb (score a) (score other)
  else totalOccurrences a <? totalOccurrences other.
End RankedDoc.
Arguments t F : clear implicits.
End RankedDoc.

(** ** The query of a prefix search *)

(** The loop that joins the first five suggestions with blanks. *)
Fixpoint join_suggestions (sug : list string) (i : Z) (query : string)
  : string :=
  match sug with
  | [] => query
  | val :: next =>
      if i <? 5 then
        join_suggestions next (i + 1)
          ((if 0 <? i then query +:+ " " else query) +:+ val)
      else query
  end.

(** ** The search engine *)

Module HyperFastSearchEngine.
Import HyperOptimizedIndex.

Section Engine.
Context {F : Type} `{FloatOps F}.

Definition SearchCacheEntry := Cache.Entry (list (RankedDoc.t F)).

Record t := mkEngine {
  index : HyperOptimizedIndex.t;
  Ndocs : Z;
  search_cache_head : list SearchCacheEntry
}.

Definition find_in_cache (e : t) (k : string)
  : option (list (RankedDoc.t F)) :=
  Cache.find_in_cache (search_cache_head e) k.

Definition insert_in_cache (e : t) (k : string)
    (r : list (RankedDoc.t F)) : t :=
  mkEngine (index e) (Ndocs e)
           (Cache.insert_in_cache 1000 (search_cache_head e) k r).

Definition clear_search_cache (e : t) : t :=
  mkEngine (index e) (Ndocs e) [].

(** [index_folder] once the directory has been scanned into [files]:
    nothing changes when there is no file. *)
Definition index_folder (e : t) (files : list InputFile) : t :=
  match files with
  | [] => e
  | _ =>
      let index := build_from_files files in
      mkEngine index (Z.of_nat (length (docs index))) []
  end.

Definition idf (e : t) (term : string) : F :=
  match docFreq (index e) !! term with
  | None => f_lit 0
  | Some df =>
      if (df =? 0) || (Ndocs e =? 0) then f_lit 0
      else flog10 (fadd (fdiv (f_of_Z (Ndocs e)) (f_of_Z df)) (f_lit 1))
  end.

(** *** The passes of [search_with_ranking] *)

(** Documents whose lower-cased content contains the phrase. *)
Fixpoint exact_phrase_pass (ds : list Document) (docID : Z)
    (exact_phrase : string) (found : gset Z) : gset Z :=
  match ds with
  | [] => found
  | d :: rest =>
      let doc_content_lower := toLowerFast (full_content d) in
      let found' :=
        match find doc_content_lower exact_phrase 0 with
        | Some _ => {[docID]} ∪ found
        | None => found
        end in
      exact_phrase_pass rest (docID + 1) exact_phrase found'
  end.

Definition byte_at (s : string) (i : nat) : ascii :=
  default Ascii.zero (String.get i s).

(** The score of one query term against a lower-cased file name, [None]
    when the term is skipped or absent. *)
Definition term_title_score (filename_lower term : string) : option F :=
  if (String.length term <? 3)%nat then None
  else
    match find filename_lower term 0 with
    | None => None
    | Some pos =>
        let whole :=
          ((pos =? 0)%nat || negb (isalnum (byte_at filename_lower (pos - 1))))
          && ((pos + String.length term =? String.length filename_lower)%nat
              || negb (isalnum
                         (byte_at filename_lower (pos + String.length term))))
        in
        let term_score := if whole then f_lit 2 else f_lit 1 in
        Some (if (pos <? 20)%nat then fmul term_score (f_lit (3 # 2))
              else term_score)
    end.

(** The loop over the query terms for one document: the accumulated
    title score and whether any term was found. *)
Fixpoint title_terms (filename_lower : string) (qtokens : list string)
    (title_score : F) (hit : bool) : F * bool :=
  match qtokens with
  | [] => (title_score, hit)
  | term :: rest =>
      match term_title_score filename_lower term with
      | Some term_score =>
          title_terms filename_lower rest (fadd title_score term_score) true
      | None => title_terms filename_lower rest title_score hit
      end
  end.

Record TitleMaps := mkTitleMaps {
  has_title_match : gmap Z bool;
  title_match_bonus : gmap Z F
}.

Fixpoint title_pass (ds : list Document) (docID : Z)
    (qtokens : list string) (m : TitleMaps) : TitleMaps :=
  match ds with
  | [] => m
  | d :: rest =>
      let filename_lower := toLowerFast (filename d) in
      let '(title_score, hit) :=
        title_terms filename_lower qtokens (f_lit 0) false in
      let has := if hit then <[docID := true]> (has_title_match m)
                 else has_title_match m in
      let bonus :=
        if fltb (f_lit 0) title_score
        then <[docID := title_score]> (title_match_bonus m)
        else title_match_bonus m in
      title_pass rest (docID + 1) qtokens (mkTitleMaps has bonus)
  end.

(** [has_title_match[docID]] and [title_match_bonus[docID]] as values. *)
Definition has_title (m : TitleMaps) (docID : Z) : bool :=
  default false (has_title_match m !! docID).
Definition bonus_of (m : TitleMaps) (docID : Z) : F :=
  default (f_lit 0) (title_match_bonus m !! docID).

(** [index.docs.head->val.totalTokens], the length both the scoring
    loop and the normalization loop read. *)
Definition head_totalTokens (ix : HyperOptimizedIndex.t) : Z :=
  match docs ix with
  | d :: _ => totalTokens d
  | [] => 0
  end.

Definition sum_positions (positions : list Z) : F :=
  foldl (fun avg_position pos => fadd avg_position (f_of_Z pos))
        (f_of_Z 0) positions.

(** The body of the loop over the postings of one term. *)
Definition base_score (ix : HyperOptimizedIndex.t) (idfv : F)
    (m : TitleMaps) (exact_phrase_docs : gset Z) (pp : Posting.t) : F :=
  let docID := Posting.docID pp in
  let tf :=
    fdiv (f_of_Z (Posting.freq pp))
         (fadd (f_lit 1)
               (flog (fadd (f_lit 1)
                           (fdiv (f_of_Z (head_totalTokens ix))
                                 (f_lit 1000))))) in
  let position_weight :=
    if 0 <? Posting.pos_size pp then
      let avg_position :=
        fdiv (sum_positions (Posting.positions pp))
             (f_of_Z (Posting.pos_size pp)) in
      let doc_len := f_of_Z (head_totalTokens ix) in
      let position_ratio := fdiv avg_position doc_len in
      if fltb position_ratio (f_lit (1 # 5))
      then fadd (f_lit 1)
                (fmul (fsub (f_lit (1 # 5)) position_ratio) (f_lit 2))
      else f_lit 1
    else f_lit 1 in
  let base := fmul (fmul tf idfv) position_weight in
  let base :=
    if has_title m docID
    then fmul base (fadd (f_lit 10) (fmul (bonus_of m docID) (f_lit 5)))
    else base in
  let base :=
    if decide (docID ∈ exact_phrase_docs) then fmul base (f_lit 5)
    else base in
  if 10 <? Posting.freq pp then
    fmul base
         (fmin (fadd (f_lit 1)
                     (fdiv (flog (f_of_Z (Posting.freq pp))) (f_lit 5)))
               (f_lit 3))
  else base.

Record Scores := mkScores {
  doc_scores : gmap Z F;
  doc_occurrences : gmap Z Z
}.

Definition add_posting (ix : HyperOptimizedIndex.t) (idfv : F)
    (m : TitleMaps) (exact_phrase_docs : gset Z)
    (sc : Scores) (pp : Posting.t) : Scores :=
  let docID := Posting.docID pp in
  mkScores
    (<[docID := fadd (default (f_lit 0) (doc_scores sc !! docID))
                     (base_score ix idfv m exact_phrase_docs pp)]>
       (doc_scores sc))
    (<[docID := to_short (default 0 (doc_occurrences sc !! docID)
                          + Posting.freq pp)]>
       (doc_occurrences sc)).

Definition build_term_idf (e : t) (qtokens : list string) : gmap string F :=
  foldl (fun term_idf term => <[term := idf e term]> term_idf) ∅ qtokens.

Fixpoint scoring_pass (e : t) (term_idf : gmap string F) (m : TitleMaps)
    (exact_phrase_docs : gset Z) (qtokens : list string) (sc : Scores)
  : Scores :=
  match qtokens with
  | [] => sc
  | term :: rest =>
      match idx (index e) !! term with
      | None => scoring_pass e term_idf m exact_phrase_docs rest sc
      | Some postings =>
          let idfv := default (f_lit 0) (term_idf !! term) in
          scoring_pass e term_idf m exact_phrase_docs rest
            (foldl (add_posting (index e) idfv m exact_phrase_docs)
                   sc postings)
      end
  end.

(** The body of the normalization loop. *)
Definition normalize (ix : HyperOptimizedIndex.t) (m : TitleMaps)
    (docID : Z) (score : F) : F :=
  let docLength := head_totalTokens ix in
  let score :=
    if docLength <? 100 then fmul score (f_lit (1 # 10))
    else if (1000 <? docLength) && (docLength <? 100000)
    then fmul score (f_lit (6 # 5))
    else if 200000 <? docLength then fmul score (f_lit (9 # 10))
    else score in
  if has_title m docID then fmul score (fadd (f_lit 1) (bonus_of m docID))
  else score.

(** The body of the gathering loop: [None] is its [continue]. *)
Definition gather (m : TitleMaps) (exact_phrase_docs : gset Z)
    (doc_occurrences : gmap Z Z) (kv : Z * F) : option (RankedDoc.t F) :=
  let docID := fst kv in
  if fleb (snd kv) (f_lit (1 # 1000000)) then None
  else Some (RankedDoc.mk docID (snd kv)
               (default 0 (doc_occurrences !! docID))
               (has_title m docID)
               (bool_decide (docID ∈ exact_phrase_docs))
               (if has_title m docID then bonus_of m docID else f_lit 0)).

Record Ranking := mkRanking {
  r_titles : TitleMaps;
  r_exact_phrase_docs : gset Z;
  r_scores : Scores
}.

(** Everything between the early returns and the gathering loop, for
    query tokens [qtokens]: the three maps after normalization. *)
Definition rank (e : t) (query : string) (qtokens : list string)
  : Ranking :=
  let exact_phrase := toLowerFast query in
  let exact_phrase_docs :=
    match qtokens with
    | _ :: _ :: _ =>
        exact_phrase_pass (docs (index e)) 0 exact_phrase ∅
    | _ => ∅
    end in
  let m := title_pass (docs (index e)) 0 qtokens (mkTitleMaps ∅ ∅) in
  let term_idf := build_term_idf e qtokens in
  let sc := scoring_pass e term_idf m exact_phrase_docs qtokens
                         (mkScores ∅ ∅) in
  mkRanking m exact_phrase_docs
    (mkScores (map_imap (fun docID score =>
                           Some (normalize (index e) m docID score))
                        (doc_scores sc))
              (doc_occurrences sc)).

(** [all_results_raw] before the sort. *)
Definition gathered (r : Ranking) : list (RankedDoc.t F) :=
  omap (gather (r_titles r) (r_exact_phrase_docs r)
               (doc_occurrences (r_scores r)))
       (map_to_list (doc_scores (r_scores r))).

(** [all_results_raw] after the sort.  The order in which the scores are
    gathered from the [unordered_map], and with it the order among results
    that the comparison does not tell apart, is the choice of the library;
    it is the order of the keys here. *)
Definition sorted_results (r : Ranking) : list (RankedDoc.t F) :=
  std_sort (fun a b => RankedDoc.lt b a) (gathered r).

(** [all_results_raw[i]]; reading outside the vector has no defined
    result. *)
Definition vector_at {A} (v : list A) (i : Z) : option A :=
  if i <? 0 then None else v !! Z.to_nat i.

(** The copy of the page into [results]: [None] when the loop reads
    outside the vector. *)
Definition page_slice (all_results_raw : list (RankedDoc.t F))
    (page resultsPerPage : Z) : option (list (RankedDoc.t F)) :=
  let total_results := Z.of_nat (length all_results_raw) in
  let start_idx := to_int (to_int (page - 1) * resultsPerPage) in
  let end_idx := Z.min (to_int (start_idx + resultsPerPage)) total_results in
  mapM (vector_at all_results_raw) (seqZ start_idx (end_idx - start_idx)).

Definition cache_key (query : string) (page resultsPerPage : Z) : string :=
  query +:+ "|PAGE|" +:+ pretty page +:+ "|" +:+ pretty resultsPerPage.

(** [search_with_ranking] with the cache threaded through: the page and
    the engine after the call, or [None] when the call has read outside
    [all_results_raw]. *)
Definition search_with_ranking (e : t) (query : string)
    (page resultsPerPage : Z) : option (list (RankedDoc.t F) * t) :=
  let cache_key := cache_key query page resultsPerPage in
  match find_in_cache e cache_key with
  | Some found => Some (found, e)
  | None =>
      if Ndocs e =? 0 then Some ([], insert_in_cache e cache_key [])
      else
        let qtokens := tokenize_ultrafast (toLowerFast query) in
        match qtokens with
        | [] => Some ([], insert_in_cache e cache_key [])
        | _ =>
            match docs (index e) with
            | [] => Some ([], insert_in_cache e cache_key [])
            | _ =>
                match page_slice (sorted_results (rank e query qtokens))
                                 page resultsPerPage with
                | Some results =>
                    Some (results, insert_in_cache e cache_key results)
                | None => None
                end
            end
        end
  end.

Definition search_with_pagination := search_with_ranking.

Definition get_total_results_count (e : t) (query : string)
  : option (Z * t) :=
  if Ndocs e =? 0 then Some (0, e)
  else
    match search_with_ranking e query 1 INT_MAX with
    | Some (all_results, e') =>
        Some (Z.of_nat (length all_results), e')
    | None => None
    end.

Definition autocomplete (e : t) (prefix : string) (limit : Z)
  : list string * t :=
  let '(found, trie') :=
    UltraFastTrie.starts_with (trie (index e)) (toLowerFast prefix) limit in
  (found,
   mkEngine (mkIndex (idx (index e)) (docFreq (index e)) (docs (index e))
                     trie' (total_words_processed (index e))
                     (total_files_processed (index e)))
            (Ndocs e) (search_cache_head e)).

(** [autocomplete], and, unless it suggests nothing, a search for the
    first five suggestions joined with blanks. *)
Definition prefix_search_with_pagination (e : t)
    (prefix : string) (expandLimit page resultsPerPage : Z)
  : option (list (RankedDoc.t F) * t) :=
  let '(sug, e) := autocomplete e prefix expandLimit in
  match sug with
  | [] => Some ([], e)
  | _ =>
      search_with_pagination e (join_suggestions sug 0 EmptyString)
                             page resultsPerPage
  end.

Definition get_prefix_total_results_count (e : t)
    (prefix : string) (expandLimit : Z)
  : option (Z * t) :=
  let '(sug, e) := autocomplete e prefix expandLimit in
  match sug with
  | [] => Some (0, e)
  | _ => get_total_results_count e (join_suggestions sug 0 EmptyString)
  end.

(** The loop the three accessors share: the node reached when [curr]
    equals [docID]. *)
Fixpoint doc_at (ds : list Document) (curr docID : Z) : option Document :=
  match ds with
  | [] => None
  | d :: rest =>
      if curr =? docID then Some d else doc_at rest (curr + 1) docID
  end.

Definition get_snippet_for_doc (e : t) (query_terms : list string)
    (docID : Z) : string :=
  match doc_at (docs (index e)) 0 docID with
  | Some d => get_snippet_improved (full_content d) query_terms
  | None => EmptyString
  end.

Definition filename_for (e : t) (docID : Z) : string :=
  match doc_at (docs (index e)) 0 docID with
  | Some d => filename d
  | None => EmptyString
  end.

Definition filepath_for (e : t) (docID : Z) : string :=
  match doc_at (docs (index e)) 0 docID with
  | Some d => filepath d
  | None => EmptyString
  end.

End Engine.
Arguments t F : clear implicits.
Arguments Ranking F : clear implicits.
End HyperFastSearchEngine.

(** ** The page numbers [main] prints *)

(** [max(1, (total_results + resultsPerPage - 1) / resultsPerPage)]; the
    division has no defined result for a page size of 0. *)
Definition total_pages (total_results resultsPerPage : Z) : option Z :=
  if resultsPerPage =? 0 then None
  else
    Some (Z.max 1
            (to_int
               (Z.quot (to_int (to_int (total_results + resultsPerPage) - 1))
                       resultsPerPage))).

(** The page [main] prints as [next_page], if any. *)
Definition next_page (page total_pages : Z) : option Z :=
  if page <? total_pages then Some (to_int (page + 1)) else None.

(** The page [main] prints as [prev_page], if any. *)
Definition prev_page (page : Z) : option Z :=
  if 1 <? page then Some (to_int (page - 1)) else None.


(** ** An arithmetic to run the engine with

    Exact rational arithmetic, the two logarithms replaced by rational
    stand-ins; it serves to run the definitions above on concrete
    inputs. *)

Definition Qltb (a b : Q) : bool := negb (Qle_bool b a).

#[export] Instance Q_ops : FloatOps Q := {|
  f_lit := fun q => q;
  f_of_Z := inject_Z;
  fadd := Qplus;
  fsub := Qminus;
  fmul := Qmult;
  fdiv := Qdiv;
  flog := fun x => Qred (Qminus x 1);
  flog10 := fun x => Qred (Qmult (Qminus x 1) (10 # 23));
  ffabs := Qabs;
  fltb := Qltb;
  fleb := Qle_bool;
  fneqb := fun a b => negb (Qeq_bool a b)
|}.

(** ** A corpus with documents of different lengths *)

(** Document 0 has 2 tokens, document 1 has 1500, of which the first is
    the only occurrence of "zebra" in the corpus. *)
Definition length_corpus : list InputFile :=
  [ mkInputFile "data/a.txt" (Some "apple pie");
    mkInputFile "data/b.txt"
      (Some ("zebra" +:+ repeat_string 1499 " filler")) ].

(** ** A small corpus *)

Definition sample_files : list InputFile :=
  [ mkInputFile "data/hello.txt" (Some "hello world");
    mkInputFile "data/notes.txt"
      (Some "Notes on the hello program: x86 assembly says hello") ].

(** A freshly constructed engine, and the same after [index_folder]. *)
Definition new_engine {F : Type} : HyperFastSearchEngine.t F :=
  HyperFastSearchEngine.mkEngine HyperOptimizedIndex.cleared 0 [].

Definition sample_engine : HyperFastSearchEngine.t Q :=
  HyperFastSearchEngine.index_folder new_engine sample_files.

(** ** A corpus with scores that tie in a circle

    Three documents that hold "zz" 8, 7 and 6 times.  The first one has
    3500 tokens, which is the length every score is computed with, and
    holds the term at its end; the other two hold it at token indices that
    add up to 3149 and to 698.  For the query "zz" the three scores are
    [k * 8], [k * (8 + 2/3500)] and [k * (8 + 4/3500)] for one factor [k]
    ([1.2 * log10(2) / (1 + ln(4.5))], about 0.1443, in the source; 8/69
    with the arithmetic below): neighbours are less than 1e-4 apart, the
    first and the last are more than 1e-4 apart. *)
Definition cycle_files : list InputFile :=
  [ mkInputFile "data/long.txt"
      (Some (repeat_string 3492 "filler " +:+ repeat_string 8 "zz "));
    mkInputFile "data/middle.txt"
      (Some (repeat_string 440 "filler " +:+ repeat_string 6 "zz "
             +:+ repeat_string 48 "filler " +:+ "zz"));
    mkInputFile "data/short.txt"
      (Some (repeat_string 112 "filler " +:+ repeat_string 5 "zz "
             +:+ repeat_string 11 "filler " +:+ "zz")) ].

Definition cycle_engine : HyperFastSearchEngine.t Q :=
  HyperFastSearchEngine.index_folder new_engine cycle_files.

(** ** Runs that fill the caches *)

(** Autocompletion of the prefix "a" once for every limit of [limits]. *)
Definition autocomplete_run (tr : UltraFastTrie.t) (limits : list Z)
  : UltraFastTrie.t :=
  foldl (fun tr limit => snd (UltraFastTrie.starts_with tr "a" limit))
        tr limits.

(** A search for [query] once for every page of [pages]. *)
Definition search_run {F : Type} `{FloatOps F}
    (e : HyperFastSearchEngine.t F) (query : string) (pages : list Z)
  : option (HyperFastSearchEngine.t F) :=
  foldl (fun oe page =>
           match oe with
           | Some e =>
               snd <$> HyperFastSearchEngine.search_with_ranking e query page 10
           | None => None
           end)
        (Some e) pages.

(** ** Vocabulary of the statements *)

(** The slice [(page-1)*size, page*size) of a list, clamped to its
    length. *)
Definition page_of {A : Type} (l : list A) (page size : Z) : list A :=
  take (Z.to_nat size) (drop (Z.to_nat ((page - 1) * size)) l).

(** The full ranked list of a query: [all_results_raw] after the sort,
    and the empty list on the early returns of [search_with_ranking]. *)
Definition ranked_list {F : Type} `{FloatOps F}
    (e : HyperFastSearchEngine.t F) (query : string)
  : list (RankedDoc.t F) :=
  if HyperFastSearchEngine.Ndocs e =? 0 then []
  else
    match tokenize_ultrafast (toLowerFast query),
          HyperOptimizedIndex.docs (HyperFastSearchEngine.index e) with
    | [], _ => []
    | _, [] => []
    | qtokens, _ =>
        HyperFastSearchEngine.sorted_results
          (HyperFastSearchEngine.rank e query qtokens)
    end.

(** What a search that misses the cache computes. *)
Definition uncached_page {F : Type} `{FloatOps F}
    (e : HyperFastSearchEngine.t F) (query : string)
    (page resultsPerPage : Z) : option (list (RankedDoc.t F)) :=
  if HyperFastSearchEngine.Ndocs e =? 0 then Some []
  else
    match tokenize_ultrafast (toLowerFast query),
          HyperOptimizedIndex.docs (HyperFastSearchEngine.index e) with
    | [], _ => Some []
    | _, [] => Some []
    | qtokens, _ =>
        HyperFastSearchEngine.page_slice
          (HyperFastSearchEngine.sorted_results
             (HyperFastSearchEngine.rank e query qtokens))
          page resultsPerPage
    end.

(** Every entry of the result cache holds what a search with the
    arguments of its key computes on the index of the engine: the state of
    the cache after [index_folder] and any number of searches. *)
Definition cache_coherent {F : Type} `{FloatOps F}
    (e : HyperFastSearchEngine.t F) : Prop :=
  forall entry, In entry (HyperFastSearchEngine.search_cache_head e) ->
    exists query page resultsPerPage,
      Cache.key entry
      = HyperFastSearchEngine.cache_key query page resultsPerPage
      /\ uncached_page e query page resultsPerPage
         = Some (Cache.results entry).

Definition bar : ascii := "|"%char.

(** The bounds a posting keeps on its counters. *)
Definition counts_ok (p : Posting.t) : Prop :=
  0 <= Posting.freq p <= 1000
  /\ 0 <= Posting.pos_size p <= Z.min (Posting.freq p) 50.

(** The stored positions increase strictly and are token indices of a
    document of [n] tokens. *)
Definition positions_ok (n : Z) (p : Posting.t) : Prop :=
  StronglySorted Z.lt (Posting.positions p)
  /\ Forall (fun x => 0 <= x < n) (Posting.positions p).

(** What holds of a posting in an index with documents [docs]; the
    positions are only spoken of for documents whose token indices fit in
    a [short]. *)
Definition posting_ok (docs : list Document) (p : Posting.t) : Prop :=
  counts_ok p
  /\ 0 <= Posting.docID p
  /\ exists d, docs !! Z.to_nat (Posting.docID p) = Some d
               /\ (totalTokens d <= 32768 -> positions_ok (totalTokens d) p).

(** The postings of the document being read, before token [i]. *)
Definition local_ok (docId i : Z) (local : gmap string Posting.t) : Prop :=
  forall t p, local !! t = Some p ->
    Posting.docID p = docId /\ counts_ok p
    /\ (i <= 32768 -> positions_ok i p).

(** What holds of the index under construction: document numbers are
    positions in the document list, and every posting list holds sound
    postings of distinct, already numbered documents. *)
Definition build_inv (st : HyperOptimizedIndex.BuildState) : Prop :=
  HyperOptimizedIndex.b_docId st = Z.of_nat (length (HyperOptimizedIndex.b_docs st))
  /\ forall t postings, HyperOptimizedIndex.b_idx st !! t = Some postings ->
       Forall (posting_ok (HyperOptimizedIndex.b_docs st)) postings
       /\ Forall (fun p => Posting.docID p < HyperOptimizedIndex.b_docId st) postings
       /\ NoDup (map Posting.docID postings).

(** Every word of the set is in the list. *)
Definition listed (v : HyperOptimizedIndex.Vocabulary) : Prop :=
  forall t, t ∈ HyperOptimizedIndex.unique_words_set v ->
            In t (HyperOptimizedIndex.unique_words_vec v).

(** The words noted so far are listed, and so is every term of the
    index. *)
Definition vocabulary_inv (st : HyperOptimizedIndex.BuildState) : Prop :=
  let v := HyperOptimizedIndex.b_vocabulary st in
  listed v
  /\ (forall t, is_Some (HyperOptimizedIndex.b_idx st !! t) ->
                In t (HyperOptimizedIndex.unique_words_vec v)).

(** The state of the build after [k] copies of the two-letter document:
    [k] postings for its only term, and a vocabulary that is empty or holds
    that term. *)
Definition copies_state (st : HyperOptimizedIndex.BuildState) (k : nat)
  : Prop :=
  length (default [] (HyperOptimizedIndex.b_idx st !! "ab")) = k
  /\ (HyperOptimizedIndex.b_vocabulary st
      = HyperOptimizedIndex.mkVocabulary ∅ []
      \/ HyperOptimizedIndex.b_vocabulary st
         = HyperOptimizedIndex.note_word
             (HyperOptimizedIndex.mkVocabulary ∅ []) "ab").

(** A trie node with its 26 slots, all the way down. *)
Inductive well_formed : UltraFastTrie.Node -> Prop :=
| well_formed_node (b : bool) (cs : list (option UltraFastTrie.Node)) :
    length cs = 26%nat ->
    (forall i n, cs !! i = Some (Some n) -> well_formed n) ->
    well_formed (UltraFastTrie.mkNode b cs).

(** Only the letters a to z. *)
Definition letters_only (w : string) : bool := all_of islower w.

(** The nodes below a list of slots, and in a queue. *)
Fixpoint children_count (cs : list (option UltraFastTrie.Node)) : nat :=
  match cs with
  | [] => O
  | Some m :: cs' => (UltraFastTrie.node_count m + children_count cs')%nat
  | None :: cs' => children_count cs'
  end.

Definition queue_count (q : list (UltraFastTrie.Node * string)) : nat :=
  list_sum (map (fun item => UltraFastTrie.node_count (fst item)) q).

(** Every queue entry is a node together with the word that leads to
    it. *)
Definition queue_ok (root : UltraFastTrie.Node)
    (q : list (UltraFastTrie.Node * string)) : Prop :=
  Forall (fun item => UltraFastTrie.walk root (snd item) = Some (fst item)) q.

(** A corpus whose only term has a digit in it. *)
Definition x86_corpus : list InputFile :=
  [ mkInputFile "data/cpu.txt" (Some "x86") ].

(** A corpus of [n] files, numbered from [first] on, that all hold the
    same two-letter document. *)
Fixpoint copies_from (first : Z) (n : nat) : list InputFile :=
  match n with
  | O => []
  | S n' =>
      mkInputFile ("data/" +:+ pretty first +:+ ".txt") (Some "ab")
      :: copies_from (first + 1) n'
  end.

Definition copies (n : nat) : list InputFile := copies_from 0 n.

(** [term] stands in [text] at offset [p]. *)
Definition occurs_at (text term : string) (p : nat) : Prop :=
  String.substring p (String.length term) text = term.

(** Some query term of length at least 2 stands at offset [p]. *)
Definition is_match (text : string) (query_terms : list string) (p : nat)
  : Prop :=
  exists term, In term query_terms /\ (2 <= String.length term)%nat
               /\ occurs_at text term p.

Definition earliest_match (text : string) (query_terms : list string)
    (p : nat) : Prop :=
  is_match text query_terms p
  /\ forall q, (q < p)%nat -> ~ is_match text query_terms q.

(** The window as the specification words it (section 4.6): up to 200
    bytes before and 200 bytes after the match position, "..." in front
    when it does not start at offset 0 and "..." behind when it does not
    end at the end of the text. *)
Definition specified_window (text : string) (p : nat) : string :=
  let start := (p - 200)%nat in
  let stop := Nat.min (p + 200) (String.length text) in
  (if (0 <? start)%nat then "..." else EmptyString)
  +:+ String.substring start (stop - start) text
  +:+ (if (stop <? String.length text)%nat then "..." else EmptyString).

(** The rest of the line that starts at offset [i], cut at 300 bytes. *)
Definition line_slice (text : string) (i : nat) : string :=
  substr text i
    (Nat.min 300 (default (String.length text) (find text newline i) - i)).

(** Offset [i] holds a letter and the rest of its line is longer than 50
    bytes. *)
Definition long_line_at (text : string) (i : nat) : Prop :=
  (exists c, String.get i text = Some c /\ isalpha c = true)
  /\ (50 < String.length (line_slice text i))%nat.

(** The snippet of a text without matches as the specification words it
    (section 4.6): the first 300 bytes from the first letter on when that
    slice is longer than 50 bytes, and the first 300 bytes of the text
    otherwise. *)
Fixpoint first_alpha (rest : string) (i : nat) : option nat :=
  match rest with
  | EmptyString => None
  | String c rest' => if isalpha c then Some i else first_alpha rest' (S i)
  end.

Definition specified_fallback (text : string) : string :=
  match first_alpha text 0 with
  | Some i =>
      let slice := substr text i 300 in
      if (50 <? String.length slice)%nat then slice else head_of_text text
  | None => head_of_text text
  end.

(** A short first line followed by a long second line. *)
Definition two_line_text : string :=
  "Hi" +:+ newline +:+ repeat_string 60 "a".

(** The maps a query is ranked from; [None] on the early returns of
    [search_with_ranking], where nothing is scored. *)
Definition final_ranking {F : Type} `{FloatOps F}
    (e : HyperFastSearchEngine.t F) (query : string)
  : option (HyperFastSearchEngine.Ranking F) :=
  if HyperFastSearchEngine.Ndocs e =? 0 then None
  else
    match tokenize_ultrafast (toLowerFast query),
          HyperOptimizedIndex.docs (HyperFastSearchEngine.index e) with
    | [], _ => None
    | _, [] => None
    | qtokens, _ => Some (HyperFastSearchEngine.rank e query qtokens)
    end.

(** The final score of every scored document. *)
Definition final_scores {F : Type} `{FloatOps F}
    (e : HyperFastSearchEngine.t F) (query : string) : gmap Z F :=
  match final_ranking e query with
  | Some r =>
      HyperFastSearchEngine.doc_scores (HyperFastSearchEngine.r_scores r)
  | None => ∅
  end.

(** The formulas of the specification (section 4.4.5) for a document of
    [T] tokens whose only matching posting has frequency 1 and position 0,
    without title match and without exact phrase, the term being found in
    [df] of [N] documents. *)
Definition single_occurrence_score {F : Type} `{FloatOps F} (T N df : Z)
  : F :=
  let tf :=
    fdiv (f_of_Z 1)
         (fadd (f_lit 1)
               (flog (fadd (f_lit 1) (fdiv (f_of_Z T) (f_lit 1000))))) in
  let idf := flog10 (fadd (fdiv (f_of_Z N) (f_of_Z df)) (f_lit 1)) in
  let r := fdiv (fdiv (fadd (f_of_Z 0) (f_of_Z 0)) (f_of_Z 1)) (f_of_Z T) in
  let position_weight :=
    if fltb r (f_lit (1 # 5))
    then fadd (f_lit 1) (fmul (fsub (f_lit (1 # 5)) r) (f_lit 2))
    else f_lit 1 in
  fadd (f_lit 0) (fmul (fmul tf idf) position_weight).

(** [score > 1e-6], as the gathering loop tests it. *)
Definition exceeds_threshold {F : Type} `{FloatOps F} (score : F) : Prop :=
  fleb score (f_lit (1 # 1000000)) = false.

(** [x] may stand before [y] in a list sorted with [comp]: [y] does not
    have to come before [x]. *)
Definition in_order {A : Type} (comp : A -> A -> bool) (x y : A) : Prop :=
  comp y x = false.

(** Sorted by [operator<], highest first: no result is less than a
    result that comes after it. *)
Definition sorted_by_tuple {F : Type} `{FloatOps F}
    (l : list (RankedDoc.t F)) : Prop :=
  StronglySorted (fun a b => RankedDoc.lt a b = false) l.

(** [operator<] is a strict weak order on the results of [l], as
    [std::sort] requires of its comparison: not being less is transitive
    (that no two results are less than each other holds by the laws of the
    arithmetic). *)
Definition strict_weak_on {F : Type} `{FloatOps F}
    (l : list (RankedDoc.t F)) : Prop :=
  forall a b c, In a l -> In b l -> In c l ->
    RankedDoc.lt a b = false -> RankedDoc.lt b c = false ->
    RankedDoc.lt a c = false.

(** ** Vocabulary of the further statements *)

(** *** The tokenizer *)

(** A lower-case letter or a digit. *)
Definition lower_alnum (c : ascii) : bool := islower c || isdigit c.


(** What the tokenizer emits: a word its test keeps, made of lower-case
    letters and digits. *)
Definition word_ok (w : string) : Prop :=
  keep_word w = true /\ all_of lower_alnum w = true.

(** The words of a list, each behind a blank. *)
Definition blanks (ws : list string) : string :=
  foldr (fun w s => " " +:+ w +:+ s) EmptyString ws.

(** The text up to its first NUL byte, cut at every byte that is neither a
    letter nor a digit; [run] holds the bytes of the piece being read. *)
Fixpoint alnum_runs (text : string) (run : string) : list string :=
  match text with
  | EmptyString => [run]
  | String c rest =>
      if is_nul c then [run]
      else if isalnum c
      then alnum_runs rest (run +:+ String c EmptyString)
      else run :: alnum_runs rest EmptyString
  end.

(** The scan buffer holds the lower-cased piece, or its first 31 bytes. *)
Definition buffers (buffer run : string) : Prop :=
  (slen run <= 31 -> buffer = toLowerFast run)
  /\ (31 < slen run -> slen buffer = 31).

(** *** The trie *)

(** The flag of the node a word leads to, [false] when the walk fails. *)
Definition stored (cur : UltraFastTrie.Node) (w : string) : bool :=
  match UltraFastTrie.walk cur w with
  | Some n => UltraFastTrie.is_end n
  | None => false
  end.

(** What [insert] accepts. *)
Definition insertable (w : string) : bool :=
  letters_only w && (1 <=? slen w) && (slen w <=? 25).

(** What [starts_with] computes when the cache has no entry for the
    key. *)
Definition completions (root : UltraFastTrie.Node) (prefix : string)
    (limit : Z) : list string :=
  match prefix with
  | EmptyString => []
  | _ =>
      match UltraFastTrie.walk root prefix with
      | None => []
      | Some cur =>
          UltraFastTrie.bfs (UltraFastTrie.node_count cur)
            (FixedQueue.push FixedQueue.init (cur, prefix)) [] limit
      end
  end.

(** Every entry of the prefix cache holds what [starts_with] computes
    for the prefix and the limit of its key on the trie as it is. *)
Definition prefix_cache_coherent (tr : UltraFastTrie.t) : Prop :=
  forall entry, In entry (UltraFastTrie.prefix_cache_head tr) ->
    exists prefix limit,
      Cache.key entry = UltraFastTrie.cache_key prefix limit
      /\ Cache.results entry
         = completions (UltraFastTrie.root tr) prefix limit.

(** [str + char('a' + j)] *)
Definition slot_word (str : string) (j : nat) : string :=
  str +:+ String (ascii_of_nat (97 + j)) EmptyString.

(** No longer than. *)
Definition shorter (a b : string) : Prop :=
  (String.length a <= String.length b)%nat.

(** The state of the breadth-first loop: what has been found, followed by
    what is queued, is in order of length and without repetition; the
    queued words differ in length by at most one and none of them extends
    another one by a letter. *)
Definition bfs_inv (q : list (UltraFastTrie.Node * string))
    (results : list string) : Prop :=
  StronglySorted shorter (results ++ map snd q)
  /\ NoDup (results ++ map snd q)
  /\ (forall s s', In s (map snd q) -> In s' (map snd q) ->
                   (String.length s' <= S (String.length s))%nat)
  /\ (forall s j, In s (map snd q) -> ~ In (slot_word s j) (map snd q)).

(** The queue entries of the children of a node, from slot [i] on. *)
Fixpoint children_items (cs : list (option UltraFastTrie.Node)) (i : nat)
    (str : string) : list (UltraFastTrie.Node * string) :=
  match cs with
  | [] => []
  | Some m :: cs' => (m, slot_word str i) :: children_items cs' (S i) str
  | None :: cs' => children_items cs' (S i) str
  end.

(** [w] has been found or lies below a queued node. *)
Definition pending (w : string) (q : list (UltraFastTrie.Node * string))
    (results : list string) : Prop :=
  In w results
  \/ exists node str rest,
       In (node, str) q /\ w = str +:+ rest /\ stored node rest = true.

(** A trie with three words and an empty cache. *)
Definition sample_trie : UltraFastTrie.t :=
  foldl UltraFastTrie.insert UltraFastTrie.empty ["hello"; "help"; "he"].

(** *** The index *)

(** The token indices, counted from [i], at which [t] stands in
    [tokens]. *)
Fixpoint occurrences (t : string) (tokens : list string) (i : Z) : list Z :=
  match tokens with
  | [] => []
  | t' :: rest =>
      if String.eqb t' t then i :: occurrences t rest (i + 1)
      else occurrences t rest (i + 1)
  end.

(** The posting of a term for a document with the given tokens: the
    number of occurrences, at most 1000, and the first 50 token indices,
    each in a [short]; no posting when the term does not occur. *)
Definition posting_of (docId : Z) (t : string) (tokens : list string)
  : option Posting.t :=
  match occurrences t tokens 0 with
  | [] => None
  | occ =>
      Some (Posting.mk docId (Z.min 1000 (Z.of_nat (length occ)))
                       (map to_short (take 50 occ)))
  end.

(** The postings of a term for a list of documents numbered from
    [docId] on, in the order of the documents. *)
Fixpoint postings_from (t : string) (docs : list Document) (docId : Z)
  : list Posting.t :=
  match docs with
  | [] => []
  | d :: rest =>
      match posting_of docId t (tokenize_ultrafast (full_content d)) with
      | Some p => p :: postings_from t rest (docId + 1)
      | None => postings_from t rest (docId + 1)
      end
  end.

(** The document the build makes of a file: none for a file that cannot
    be opened or is larger than 100 MiB. *)
Definition document_of (f : InputFile) : option Document :=
  match contents f with
  | None => None
  | Some content =>
      if 100 * 1024 * 1024 <? slen content then None
      else Some (mkDocument (HyperOptimizedIndex.basename (path f)) (path f)
                   (Z.of_nat (length (tokenize_ultrafast content)))
                   (slen content) content)
  end.

(** The postings of the document being read are those of the tokens seen
    so far. *)
Definition local_is (docId : Z) (seen : list string)
    (local : gmap string Posting.t) : Prop :=
  forall t, local !! t = posting_of docId t seen.

(** The index under construction lists, for every term, the postings of
    the documents read so far. *)
Definition index_is (st : HyperOptimizedIndex.BuildState) : Prop :=
  HyperOptimizedIndex.b_docId st
  = Z.of_nat (length (HyperOptimizedIndex.b_docs st))
  /\ forall t,
       HyperOptimizedIndex.b_idx st !! t
       = match postings_from t (HyperOptimizedIndex.b_docs st) 0 with
         | [] => None
         | postings => Some postings
         end.

(** The vocabulary lists every noted word once, and the noted words are
    the terms of the index. *)
Definition vocabulary_exact (st : HyperOptimizedIndex.BuildState) : Prop :=
  let v := HyperOptimizedIndex.b_vocabulary st in
  NoDup (HyperOptimizedIndex.unique_words_vec v)
  /\ (forall t, t ∈ HyperOptimizedIndex.unique_words_set v
                <-> In t (HyperOptimizedIndex.unique_words_vec v))
  /\ (forall t, In t (HyperOptimizedIndex.unique_words_vec v)
                <-> is_Some (HyperOptimizedIndex.b_idx st !! t)).

(** The number of tokens of a list of documents. *)
Definition sum_tokens (docs : list Document) : Z :=
  foldr (fun d total => totalTokens d + total) 0 docs.

(** A slash or a backslash. *)
Definition is_separator (c : ascii) : bool :=
  (code c =? 47) || (code c =? 92).

(** *** The engine *)

(** An engine that has indexed [files] and has then answered any number
    of searches and completions: its index is the one built from the
    files, and both caches hold what the index gives. *)
Definition serves {F : Type} `{FloatOps F}
    (e : HyperFastSearchEngine.t F) (files : list InputFile) : Prop :=
  let ix := HyperOptimizedIndex.build_from_files files in
  HyperOptimizedIndex.idx (HyperFastSearchEngine.index e)
  = HyperOptimizedIndex.idx ix
  /\ HyperOptimizedIndex.docFreq (HyperFastSearchEngine.index e)
     = HyperOptimizedIndex.docFreq ix
  /\ HyperOptimizedIndex.docs (HyperFastSearchEngine.index e)
     = HyperOptimizedIndex.docs ix
  /\ UltraFastTrie.root
       (HyperOptimizedIndex.trie (HyperFastSearchEngine.index e))
     = UltraFastTrie.root (HyperOptimizedIndex.trie ix)
  /\ prefix_cache_coherent
       (HyperOptimizedIndex.trie (HyperFastSearchEngine.index e))
  /\ HyperFastSearchEngine.Ndocs e
     = Z.of_nat (length (HyperOptimizedIndex.docs ix))
  /\ cache_coherent e.

(** Two engines agree on what the ranking reads. *)
Definition same_index {F : Type} `{FloatOps F}
    (e e' : HyperFastSearchEngine.t F) : Prop :=
  HyperOptimizedIndex.idx (HyperFastSearchEngine.index e)
  = HyperOptimizedIndex.idx (HyperFastSearchEngine.index e')
  /\ HyperOptimizedIndex.docFreq (HyperFastSearchEngine.index e)
     = HyperOptimizedIndex.docFreq (HyperFastSearchEngine.index e')
  /\ HyperOptimizedIndex.docs (HyperFastSearchEngine.index e)
     = HyperOptimizedIndex.docs (HyperFastSearchEngine.index e')
  /\ HyperFastSearchEngine.Ndocs e = HyperFastSearchEngine.Ndocs e'.

(** The document with number [docID] holds the term [t]. *)
Definition document_holds (docs : list Document) (docID : Z) (t : string)
  : Prop :=
  0 <= docID
  /\ exists d, docs !! Z.to_nat docID = Some d
               /\ In t (tokenize_ultrafast (full_content d)).

(** *** The queue *)

(** A queue of integers that has seen a push and a pop. *)
Definition sample_ring : FixedQueueRing.t Z :=
  FixedQueueRing.mk (fun i => if i =? 0 then 7 else 0) 1 1 0.

(* ================================================================== *)
(** * Properties *)

(** ** Tokenizer *)

Example tokenize_sample :
  tokenize_ultrafast "The quick-brown fox, 42 times; x86 and a b2!"
  = ["quick"; "brown"; "fox"; "times"; "x86"; "b2"].
Proof. reflexivity. Qed.

Lemma keep_word_empty : keep_word EmptyString = false.
Proof. reflexivity. Qed.

Lemma tokenize_scan_bound text : forall buffer n_added,
  n_added < 100000 \/ (n_added = 100000 /\ buffer = EmptyString) ->
  Z.of_nat (length (tokenize_scan text buffer n_added)) + n_added <= 100000.
Proof.
  induction text as [|c rest IH]; intros buffer n Hinv; simpl.
  - destruct Hinv as [Hlt | [-> ->]].
    + destruct (keep_word buffer); simpl; lia.
    + rewrite keep_word_empty; simpl; lia.
  - destruct Hinv as [Hlt | [-> ->]].
    + assert (Hn : (n <? 100000) = true) by (apply Z.ltb_lt; lia).
      rewrite Hn, orb_false_r.
      destruct (is_nul c); simpl.
      { destruct (keep_word buffer); simpl; lia. }
      destruct (isalnum c).
      { apply IH; lia. }
      destruct (0 <? slen buffer).
      * destruct (keep_word buffer).
        -- cbn [length].
           assert (Hinv' : n + 1 < 100000
                           \/ (n + 1 = 100000 /\ EmptyString = EmptyString))
             by (destruct (Z.eq_dec (n + 1) 100000); [right; auto | left; lia]).
           specialize (IH EmptyString (n + 1) Hinv'). lia.
        -- apply IH; lia.
      * apply IH; lia.
    + rewrite orb_true_r, keep_word_empty; simpl; lia.
Qed.

(** C8: whatever the input bytes, the tokenizer emits at most 100,000
    terms. *)
Theorem tokenize_ultrafast_at_most_100000 (text : string) :
  Z.of_nat (length (tokenize_ultrafast text)) <= 100000.
Proof.
  destruct text as [|c rest]; [simpl; lia|].
  unfold tokenize_ultrafast.
  pose proof (tokenize_scan_bound (String c rest) EmptyString 0) as H.
  lia.
Qed.

(** ** Machine integers *)

Lemma to_int_small (x : Z) :
  -2147483648 <= x <= 2147483647 -> to_int x = x.
Proof.
  intros Hx. unfold to_int, wrap.
  change (2 ^ (32 - 1)) with 2147483648.
  change (2 ^ 32) with 4294967296.
  rewrite Z.mod_small; lia.
Qed.

Lemma to_short_small (x : Z) : -32768 <= x <= 32767 -> to_short x = x.
Proof.
  intros Hx. unfold to_short, wrap.
  change (2 ^ (16 - 1)) with 32768.
  change (2 ^ 16) with 65536.
  rewrite Z.mod_small; lia.
Qed.

(** ** Strings as lists of bytes *)

Lemma app_nil_l_string (s : string) : EmptyString +:+ s = s.
Proof. reflexivity. Qed.

Lemma app_cons_string (c : ascii) (s1 s2 : string) :
  String c s1 +:+ s2 = String c (s1 +:+ s2).
Proof. reflexivity. Qed.

Lemma app_nil_r_string (s : string) : s +:+ EmptyString = s.
Proof.
  induction s as [|c s IH]; [reflexivity|].
  rewrite app_cons_string. now rewrite IH.
Qed.

Lemma app_assoc_string (s1 s2 s3 : string) :
  (s1 +:+ s2) +:+ s3 = s1 +:+ (s2 +:+ s3).
Proof.
  induction s1 as [|c s1 IH]; [reflexivity|].
  rewrite !app_cons_string. now rewrite IH.
Qed.

Lemma bytes_app (s1 s2 : string) :
  list_ascii_of_string (s1 +:+ s2)
  = list_ascii_of_string s1 ++ list_ascii_of_string s2.
Proof.
  induction s1 as [|c s1 IH]; [reflexivity|].
  rewrite app_cons_string. simpl. now rewrite IH.
Qed.

Lemma bytes_inj (s1 s2 : string) :
  list_ascii_of_string s1 = list_ascii_of_string s2 -> s1 = s2.
Proof.
  intros Heq.
  rewrite <- (string_of_list_ascii_of_string s1),
          <- (string_of_list_ascii_of_string s2).
  now rewrite Heq.
Qed.

Lemma bytes_length (s : string) :
  length (list_ascii_of_string s) = String.length s.
Proof. induction s; simpl; auto. Qed.

(** ** The caches *)

Section CacheFacts.
Context {R : Type}.
Implicit Types (head : list (Cache.Entry R)) (k : string) (r : R).

Lemma find_in_cache_insert capacity head k r :
  Cache.find_in_cache (Cache.insert_in_cache capacity head k r) k = Some r.
Proof.
  unfold Cache.insert_in_cache. simpl. now rewrite String.eqb_refl.
Qed.

Lemma find_in_cache_Some head k r :
  Cache.find_in_cache head k = Some r ->
  In (Cache.mkEntry k r) head.
Proof.
  induction head as [|[k' r'] next IH]; simpl; [discriminate|].
  destruct (String.eqb_spec k' k) as [->|Hne].
  - intros [= ->]. now left.
  - intros Hfind. right. now apply IH.
Qed.

Lemma In_tail (x : Cache.Entry R) head : In x (tail head) -> In x head.
Proof. destruct head; simpl; auto. Qed.

Lemma In_insert_in_cache capacity head k r (x : Cache.Entry R) :
  In x (Cache.insert_in_cache capacity head k r) ->
  x = Cache.mkEntry k r \/ In x head.
Proof.
  unfold Cache.insert_in_cache. intros [<-|Hin]; [now left|right].
  destruct (capacity <=? Z.of_nat (length head)); auto using In_tail.
Qed.

(** What an insertion into a full cache removes is the node at [head],
    which is the entry of the previous insertion. *)
Lemma insert_in_full_cache capacity newest older k r :
  capacity <= Z.of_nat (length (newest :: older)) ->
  Cache.insert_in_cache capacity (newest :: older) k r
  = Cache.mkEntry k r :: older.
Proof.
  intros Hfull. unfold Cache.insert_in_cache.
  now rewrite (proj2 (Z.leb_le _ _) Hfull).
Qed.
End CacheFacts.

(** ** Accessors *)

Section EngineFacts.
Context {F : Type} `{FloatOps F}.
Import HyperFastSearchEngine.
Implicit Types (e : HyperFastSearchEngine.t F) (query : string).

Lemma doc_at_outside (ds : list Document) : forall curr docID,
  docID < curr \/ curr + Z.of_nat (length ds) <= docID ->
  doc_at ds curr docID = None.
Proof.
  induction ds as [|d rest IH]; intros curr docID Hout; simpl; [easy|].
  destruct (Z.eqb_spec curr docID) as [->|Hne].
  - simpl in Hout. lia.
  - apply IH. simpl in Hout. lia.
Qed.

(** C10: for a document number outside [0, N), N the number of
    documents, the three accessors return the empty string. *)
Theorem accessors_outside_range_return_empty e
    (query_terms : list string) (docID : Z) :
  docID < 0 \/ Z.of_nat (length (HyperOptimizedIndex.docs (index e))) <= docID ->
  filename_for e docID = EmptyString
  /\ filepath_for e docID = EmptyString
  /\ get_snippet_for_doc e query_terms docID = EmptyString.
Proof.
  intros Hout.
  unfold filename_for, filepath_for, get_snippet_for_doc.
  rewrite doc_at_outside by lia. auto.
Qed.

(** ** The result cache *)

Lemma find_in_cache_insert_in_cache e k r :
  find_in_cache (insert_in_cache e k r) k = Some r.
Proof. apply find_in_cache_insert. Qed.

(** C9: a paginated search that has returned returns the same list when
    it is invoked again with the same arguments, and leaves the engine
    as it is. *)
Theorem search_with_ranking_repeatable e query (page resultsPerPage : Z)
    (results : list (RankedDoc.t F)) e' :
  search_with_ranking e query page resultsPerPage = Some (results, e') ->
  search_with_ranking e' query page resultsPerPage = Some (results, e')
  /\ index e' = index e.
Proof.
  unfold search_with_ranking.
  destruct (find_in_cache e _) as [found|] eqn:Hfind.
  - intros [= <- <-]. now rewrite Hfind.
  - assert (Hhit : forall r,
               find_in_cache
                 (insert_in_cache e (cache_key query page resultsPerPage) r)
                 (cache_key query page resultsPerPage) = Some r)
      by (intros; apply find_in_cache_insert_in_cache).
    destruct (Ndocs e =? 0).
    { intros [= <- <-]. now rewrite Hhit. }
    destruct (tokenize_ultrafast (toLowerFast query)) as [|tok toks].
    { intros [= <- <-]. now rewrite Hhit. }
    destruct (HyperOptimizedIndex.docs (index e)) as [|d ds].
    { intros [= <- <-]. now rewrite Hhit. }
    destruct (page_slice _ page resultsPerPage) as [r|]; [|discriminate].
    intros [= <- <-]. now rewrite Hhit.
Qed.
End EngineFacts.

Lemma accessors_outside_range_return_empty_witness :
  (7 < 0 \/ Z.of_nat (length (HyperOptimizedIndex.docs
                                 (HyperFastSearchEngine.index sample_engine)))
            <= 7)
  /\ (HyperFastSearchEngine.filename_for sample_engine 7 = EmptyString
      /\ HyperFastSearchEngine.filepath_for sample_engine 7 = EmptyString
      /\ HyperFastSearchEngine.get_snippet_for_doc sample_engine ["hello"] 7
         = EmptyString).
Proof.
  assert (Hout : 7 < 0
                 \/ Z.of_nat (length (HyperOptimizedIndex.docs
                                        (HyperFastSearchEngine.index
                                           sample_engine))) <= 7)
    by (right; vm_compute; discriminate).
  split; [exact Hout|].
  exact (accessors_outside_range_return_empty sample_engine ["hello"] 7 Hout).
Defined.

Lemma search_with_ranking_repeatable_witness :
  exists results e',
    HyperFastSearchEngine.search_with_ranking sample_engine "hello" 1 10
    = Some (results, e')
    /\ HyperFastSearchEngine.search_with_ranking e' "hello" 1 10
       = Some (results, e')
    /\ HyperFastSearchEngine.index e'
       = HyperFastSearchEngine.index sample_engine.
Proof.
  destruct (HyperFastSearchEngine.search_with_ranking sample_engine "hello" 1 10)
    as [[results e']|] eqn:Hrun.
  - exists results, e'. split; [reflexivity|].
    exact (search_with_ranking_repeatable sample_engine "hello" 1 10
             results e' Hrun).
  - vm_compute in Hrun. discriminate.
Defined.

(** ** Eviction *)

(** C4: the caches are not first-in first-out.  After 1000 distinct
    requests the cache is full; the next request unlinks the entry of the
    1000th request, the newest one, and the entry of the very first
    request stays.  This holds for the prefix cache of the trie and for the
    result cache of the engine. *)
Theorem full_caches_drop_newest_entry :
  (let tr := autocomplete_run UltraFastTrie.empty (seqZ 0 1000) in
   let tr' := snd (UltraFastTrie.starts_with tr "a" 1000) in
   length (UltraFastTrie.prefix_cache_head tr) = 1000%nat
   /\ UltraFastTrie.find_in_cache tr (UltraFastTrie.cache_key "a" 999)
      = Some []
   /\ length (UltraFastTrie.prefix_cache_head tr') = 1000%nat
   /\ UltraFastTrie.find_in_cache tr' (UltraFastTrie.cache_key "a" 999)
      = None
   /\ UltraFastTrie.find_in_cache tr' (UltraFastTrie.cache_key "a" 0)
      = Some [])
  /\ (let oe := search_run (F := Q) new_engine "q" (seqZ 1 1000) in
      let oe' := oe ≫= (fun e => search_run e "q" [1001]) in
      (fun e => length (HyperFastSearchEngine.search_cache_head e)) <$> oe
      = Some 1000%nat
      /\ (fun e => HyperFastSearchEngine.find_in_cache e
                     (HyperFastSearchEngine.cache_key "q" 1000 10)) <$> oe
         = Some (Some [])
      /\ (fun e => length (HyperFastSearchEngine.search_cache_head e)) <$> oe'
         = Some 1000%nat
      /\ (fun e => HyperFastSearchEngine.find_in_cache e
                     (HyperFastSearchEngine.cache_key "q" 1000 10)) <$> oe'
         = Some None
      /\ (fun e => HyperFastSearchEngine.find_in_cache e
                     (HyperFastSearchEngine.cache_key "q" 1 10)) <$> oe'
         = Some (Some [])).
Proof.
  split; vm_compute; repeat split; reflexivity.
Qed.

(** ** Cache keys *)

Lemma split_at_last_bar (a : list ascii) : forall a' b b',
  ~ In bar b -> ~ In bar b' ->
  a ++ bar :: b = a' ++ bar :: b' -> a = a' /\ b = b'.
Proof.
  induction a as [|c a IH]; intros [|c' a'] b b' Hb Hb' Heq; simpl in Heq.
  - now injection Heq as ->.
  - injection Heq as <- ->. exfalso. apply Hb.
    apply in_or_app. right. now left.
  - injection Heq as -> <-. exfalso. apply Hb'.
    apply in_or_app. right. now left.
  - injection Heq as -> Heq.
    destruct (IH a' b b' Hb Hb' Heq) as [-> ->]. auto.
Qed.

Lemma pretty_N_char_not_bar (x : N) : pretty_N_char x <> bar.
Proof. unfold pretty_N_char, bar. repeat case_match; discriminate. Qed.

Lemma pretty_N_go_no_bar (x : N) : forall s,
  ~ In bar (list_ascii_of_string s) ->
  ~ In bar (list_ascii_of_string (pretty_N_go x s)).
Proof.
  induction (N.lt_wf_0 x) as [x _ IH]; intros s Hs.
  destruct (N.eq_dec x 0%N) as [->|Hx].
  - now rewrite pretty_N_go_0.
  - rewrite pretty_N_go_step by lia.
    apply IH; [apply N.div_lt; lia|].
    simpl. intros [Hc|Hin]; [|auto].
    now apply (pretty_N_char_not_bar (x `mod` 10)%N).
Qed.

Lemma pretty_N_no_bar (x : N) : ~ In bar (list_ascii_of_string (pretty x)).
Proof.
  unfold pretty, pretty_N. case_decide.
  - simpl. intros [Hc|[]]. discriminate.
  - apply pretty_N_go_no_bar. simpl. tauto.
Qed.

Lemma pretty_Z_no_bar (z : Z) : ~ In bar (list_ascii_of_string (pretty z)).
Proof.
  destruct z as [|x|x]; unfold pretty, pretty_Z.
  - simpl. intros [Hc|[]]. discriminate.
  - apply (pretty_N_no_bar (N.pos x)).
  - rewrite app_cons_string, app_nil_l_string. simpl.
    intros [Hc|Hin]; [discriminate|].
    now apply (pretty_N_no_bar (N.pos x)).
Qed.

(** The key of the result cache determines the query, the page and the
    page size. *)
Lemma cache_key_inj (q q' : string) (p p' n n' : Z) :
  HyperFastSearchEngine.cache_key q p n
  = HyperFastSearchEngine.cache_key q' p' n' ->
  q = q' /\ p = p' /\ n = n'.
Proof.
  unfold HyperFastSearchEngine.cache_key. intros Heq.
  apply (f_equal list_ascii_of_string) in Heq.
  rewrite !bytes_app in Heq.
  change (list_ascii_of_string "|") with [bar] in Heq.
  change (list_ascii_of_string "|PAGE|")
    with (bar :: list_ascii_of_string "PAGE" ++ [bar]) in Heq.
  set (lq := list_ascii_of_string q) in *.
  set (lq' := list_ascii_of_string q') in *.
  set (lp := list_ascii_of_string (pretty p)) in *.
  set (lp' := list_ascii_of_string (pretty p')) in *.
  set (ln := list_ascii_of_string (pretty n)) in *.
  set (ln' := list_ascii_of_string (pretty n')) in *.
  set (w := list_ascii_of_string "PAGE") in *.
  assert (Hshape : forall a b c : list ascii,
             a ++ (bar :: w ++ [bar]) ++ b ++ [bar] ++ c
             = (a ++ bar :: w ++ bar :: b) ++ bar :: c).
  { intros a b c. simpl. rewrite <- ?app_assoc. simpl.
    rewrite <- ?app_assoc. reflexivity. }
  rewrite !Hshape in Heq.
  apply split_at_last_bar in Heq as [Heq2 Hn];
    [|apply pretty_Z_no_bar..].
  assert (Hshape' : forall a b : list ascii,
             a ++ bar :: w ++ bar :: b = (a ++ bar :: w) ++ bar :: b).
  { intros a b. rewrite <- ?app_assoc. reflexivity. }
  rewrite !Hshape' in Heq2.
  apply split_at_last_bar in Heq2 as [Heq4 Hp];
    [|apply pretty_Z_no_bar..].
  apply app_inv_tail in Heq4.
  apply bytes_inj in Heq4, Hp, Hn.
  apply (inj pretty) in Hp, Hn. auto.
Qed.

(** ** Pagination *)

Section Pagination.
Context {F : Type} `{FloatOps F}.
Import HyperFastSearchEngine.
Implicit Types (e : HyperFastSearchEngine.t F) (query : string).

Lemma mapM_vector_at_seqZ {A : Type} (raw : list A) (start len : Z) :
  0 <= start -> start + len <= Z.of_nat (length raw) ->
  mapM (vector_at raw) (seqZ start len)
  = Some (take (Z.to_nat len) (drop (Z.to_nat start) raw)).
Proof.
  intros Hstart Hend. apply mapM_Some_2.
  apply Forall2_same_length_lookup. split.
  - rewrite length_seqZ, length_take, length_drop. lia.
  - intros i x y Hx Hy.
    apply lookup_seqZ in Hx as [-> Hi].
    rewrite lookup_take_Some in Hy. destruct Hy as [Hy _].
    rewrite lookup_drop in Hy.
    unfold vector_at.
    destruct (Z.ltb_spec (start + Z.of_nat i) 0) as [Hneg|_]; [lia|].
    replace (Z.to_nat (start + Z.of_nat i)) with (Z.to_nat start + i)%nat
      by lia.
    exact Hy.
Qed.

Lemma page_slice_in_range (raw : list (RankedDoc.t F)) (page size : Z) :
  1 <= page -> 1 <= size -> page * size <= INT_MAX ->
  page_slice raw page size = Some (page_of raw page size).
Proof.
  unfold INT_MAX. intros Hpage Hsize Hfit.
  assert (Hstart : 0 <= (page - 1) * size) by nia.
  assert (Hstart' : (page - 1) * size + size <= 2147483647) by nia.
  unfold page_slice, page_of.
  rewrite (to_int_small (page - 1)) by nia.
  rewrite (to_int_small ((page - 1) * size)) by nia.
  rewrite (to_int_small ((page - 1) * size + size)) by nia.
  set (start := (page - 1) * size) in *.
  set (total := Z.of_nat (length raw)).
  rewrite mapM_vector_at_seqZ by (fold total; lia).
  f_equal.
  destruct (Z.le_gt_cases (start + size) total) as [Hin|Hout].
  - rewrite Z.min_l by lia. f_equal. lia.
  - rewrite Z.min_r by lia.
    rewrite !take_ge; [reflexivity|rewrite length_drop; subst total; lia..].
Qed.

Lemma page_of_nil {A : Type} (page size : Z) : page_of (@nil A) page size = [].
Proof. unfold page_of. now rewrite drop_nil, take_nil. Qed.

Lemma page_of_past_the_end {A : Type} (l : list A) (page size : Z) :
  Z.of_nat (length l) <= (page - 1) * size -> page_of l page size = [].
Proof.
  intros Hpast. unfold page_of. rewrite drop_ge by lia. apply take_nil.
Qed.

Lemma page_of_all {A : Type} (l : list A) :
  Z.of_nat (length l) <= INT_MAX -> page_of l 1 INT_MAX = l.
Proof.
  intros Hlen. unfold page_of. simpl. rewrite drop_0.
  apply take_ge. unfold INT_MAX in *. lia.
Qed.

Lemma uncached_page_in_range e query (page size : Z) :
  1 <= page -> 1 <= size -> page * size <= INT_MAX ->
  uncached_page e query page size
  = Some (page_of (ranked_list e query) page size).
Proof.
  intros Hpage Hsize Hfit. unfold uncached_page, ranked_list.
  destruct (Ndocs e =? 0); [now rewrite page_of_nil|].
  destruct (tokenize_ultrafast (toLowerFast query)) as [|tok toks];
    [now rewrite page_of_nil|].
  destruct (HyperOptimizedIndex.docs (index e)) as [|d ds];
    [now rewrite page_of_nil|].
  now apply page_slice_in_range.
Qed.

Lemma search_with_ranking_miss e query (page size : Z) :
  find_in_cache e (cache_key query page size) = None ->
  search_with_ranking e query page size
  = match uncached_page e query page size with
    | Some results =>
        Some (results, insert_in_cache e (cache_key query page size) results)
    | None => None
    end.
Proof.
  intros Hmiss. unfold search_with_ranking, uncached_page. rewrite Hmiss.
  destruct (Ndocs e =? 0); [reflexivity|].
  destruct (tokenize_ultrafast (toLowerFast query)) as [|tok toks];
    [reflexivity|].
  destruct (HyperOptimizedIndex.docs (index e)) as [|d ds]; reflexivity.
Qed.

Lemma scoring_pass_insert_in_cache e k r term_idf m exact_phrase_docs
    (qtokens : list string) : forall sc,
  scoring_pass (insert_in_cache e k r) term_idf m exact_phrase_docs qtokens sc
  = scoring_pass e term_idf m exact_phrase_docs qtokens sc.
Proof.
  induction qtokens as [|term rest IH]; intros sc; simpl; [reflexivity|].
  destruct (HyperOptimizedIndex.idx (index e) !! term); apply IH.
Qed.

Lemma rank_insert_in_cache e k r query (qtokens : list string) :
  rank (insert_in_cache e k r) query qtokens = rank e query qtokens.
Proof.
  unfold rank. rewrite scoring_pass_insert_in_cache. reflexivity.
Qed.

Lemma uncached_page_insert_in_cache e k r query (page size : Z) :
  uncached_page (insert_in_cache e k r) query page size
  = uncached_page e query page size.
Proof.
  unfold uncached_page. simpl.
  destruct (Ndocs e =? 0); [reflexivity|].
  destruct (tokenize_ultrafast (toLowerFast query)) as [|tok toks];
    [reflexivity|].
  destruct (HyperOptimizedIndex.docs (index e)) as [|d ds]; [reflexivity|].
  now rewrite rank_insert_in_cache.
Qed.

Lemma cache_coherent_insert e query (page size : Z) r :
  cache_coherent e ->
  uncached_page e query page size = Some r ->
  cache_coherent (insert_in_cache e (cache_key query page size) r).
Proof.
  intros Hco Hr entry Hin. simpl in Hin.
  apply In_insert_in_cache in Hin as [->|Hin].
  - exists query, page, size. split; [reflexivity|].
    now rewrite uncached_page_insert_in_cache.
  - destruct (Hco entry Hin) as (q & p & n & Hkey & Hval).
    exists q, p, n. split; [exact Hkey|].
    now rewrite uncached_page_insert_in_cache.
Qed.

Lemma cache_hit_is_uncached_page e query (page size : Z) found :
  cache_coherent e ->
  find_in_cache e (cache_key query page size) = Some found ->
  uncached_page e query page size = Some found.
Proof.
  intros Hco Hfind. apply find_in_cache_Some in Hfind.
  destruct (Hco _ Hfind) as (q & p & n & Hkey & Hval). simpl in Hkey, Hval.
  apply cache_key_inj in Hkey as (-> & -> & ->). exact Hval.
Qed.

(** A search whose page arithmetic fits in an [int] returns the page of
    the ranked list and keeps the cache coherent. *)
Lemma search_with_ranking_in_range e query (page size : Z) :
  cache_coherent e ->
  1 <= page -> 1 <= size -> page * size <= INT_MAX ->
  exists e',
    search_with_ranking e query page size
    = Some (page_of (ranked_list e query) page size, e')
    /\ cache_coherent e' /\ index e' = index e /\ Ndocs e' = Ndocs e.
Proof.
  intros Hco Hpage Hsize Hfit.
  pose proof (uncached_page_in_range e query page size Hpage Hsize Hfit)
    as Hfresh.
  destruct (find_in_cache e (cache_key query page size)) as [found|] eqn:Hfind.
  - exists e. unfold search_with_ranking. rewrite Hfind.
    apply (cache_hit_is_uncached_page _ _ _ _ _ Hco) in Hfind.
    rewrite Hfresh in Hfind. injection Hfind as <-. auto.
  - rewrite (search_with_ranking_miss _ _ _ _ Hfind), Hfresh.
    eexists. split; [reflexivity|]. split; [|split; reflexivity].
    now apply cache_coherent_insert.
Qed.

(** C3, as the code has it: for a page and a page size of at least 1
    whose product fits in a 32-bit [int], the search returns the slice
    [(page-1)*size, page*size) of the ranked list clamped to its length,
    which is empty for a page past the end, and
    [get_total_results_count] returns the length of the whole ranked
    list, a length that fits in an [int]. *)
Theorem search_page_is_slice_when_in_int_range e query (page size : Z) :
  cache_coherent e ->
  1 <= page -> 1 <= size -> page * size <= INT_MAX ->
  (exists e',
      search_with_ranking e query page size
      = Some (page_of (ranked_list e query) page size, e')
      /\ cache_coherent e')
  /\ (Z.of_nat (length (ranked_list e query)) <= (page - 1) * size ->
      page_of (ranked_list e query) page size = [])
  /\ (Z.of_nat (length (ranked_list e query)) <= INT_MAX ->
      exists e',
        get_total_results_count e query
        = Some (Z.of_nat (length (ranked_list e query)), e')
        /\ cache_coherent e').
Proof.
  intros Hco Hpage Hsize Hfit. split; [|split].
  - destruct (search_with_ranking_in_range e query page size)
      as (e' & Hrun & Hco' & _); auto. eauto.
  - apply page_of_past_the_end.
  - intros Hlen. unfold get_total_results_count.
    destruct (Z.eqb_spec (Ndocs e) 0) as [Hzero|Hdocs].
    + exists e. split; [|exact Hco].
      unfold ranked_list. now rewrite (proj2 (Z.eqb_eq _ _) Hzero).
    + destruct (search_with_ranking_in_range e query 1 INT_MAX)
        as (e' & Hrun & Hco' & _); auto; [unfold INT_MAX; lia..|].
      rewrite Hrun. rewrite page_of_all by exact Hlen. eauto.
Qed.
End Pagination.

Lemma cache_coherent_sample_engine : cache_coherent sample_engine.
Proof. intros entry []. Qed.

Lemma search_page_is_slice_when_in_int_range_witness :
  let e := sample_engine in
  let ranked := ranked_list e "hello" in
  (cache_coherent e /\ 1 <= 2 /\ 1 <= 1 /\ 2 * 1 <= INT_MAX)
  /\ (exists e',
         HyperFastSearchEngine.search_with_ranking e "hello" 2 1
         = Some (page_of ranked 2 1, e')
         /\ cache_coherent e')
  /\ (Z.of_nat (length ranked) <= (2 - 1) * 1 -> page_of ranked 2 1 = [])
  /\ (Z.of_nat (length ranked) <= INT_MAX ->
      exists e',
        HyperFastSearchEngine.get_total_results_count e "hello"
        = Some (Z.of_nat (length ranked), e')
        /\ cache_coherent e').
Proof.
  intros e ranked.
  assert (Hpage : 1 <= 2) by lia.
  assert (Hsize : 1 <= 1) by lia.
  assert (Hfit : 2 * 1 <= INT_MAX) by (vm_compute; discriminate).
  split; [repeat split; try assumption; exact cache_coherent_sample_engine|].
  exact (search_page_is_slice_when_in_int_range sample_engine "hello" 2 1
           cache_coherent_sample_engine Hpage Hsize Hfit).
Defined.

(** C3, as stated, fails: with one page of results, page 65537 of size
    65536 is past the end, yet [(page - 1) * size] wraps around to 0 and
    the search returns the first page; and for page 3 of size [INT_MAX] the
    wrapped start index is -2, so that the copy loop reads in front of the
    vector. *)
Lemma page_arithmetic_wraps_around :
  length (ranked_list sample_engine "hello") = 2%nat
  /\ page_of (ranked_list sample_engine "hello")
             65537 65536 = []
  /\ fst <$> HyperFastSearchEngine.search_with_ranking
               sample_engine "hello" 65537 65536
     = Some (ranked_list sample_engine "hello")
  /\ HyperFastSearchEngine.search_with_ranking sample_engine "hello"
       3 INT_MAX = None.
Proof.
  assert (Hlen : length (ranked_list
                           sample_engine "hello") = 2%nat)
    by (vm_compute; reflexivity).
  split; [exact Hlen|]. split.
  - apply page_of_past_the_end. rewrite Hlen. lia.
  - split; vm_compute; reflexivity.
Qed.

(** ** Sorting *)

Section SortFacts.
Context {A : Type} (comp : A -> A -> bool).

Lemma sort_insert_Permutation (x : A) (l : list A) :
  Permutation (sort_insert comp x l) (x :: l).
Proof.
  induction l as [|y l IH]; simpl; [reflexivity|].
  destruct (comp x y); [reflexivity|].
  rewrite IH. apply perm_swap.
Qed.

Lemma std_sort_Permutation (l : list A) : Permutation (std_sort comp l) l.
Proof.
  induction l as [|x l IH]; simpl; [reflexivity|].
  rewrite sort_insert_Permutation. now constructor.
Qed.

Hypothesis comp_asym : forall x y, comp x y = true -> comp y x = false.

Lemma sort_insert_StronglySorted (x : A) (l : list A) :
  (forall y z, In y l -> In z l ->
     comp z x = true -> comp x y = true -> comp z y = true) ->
  StronglySorted (in_order comp) l ->
  StronglySorted (in_order comp) (sort_insert comp x l).
Proof.
  induction l as [|y l IH]; intros Htrans Hsorted; simpl.
  - repeat constructor.
  - inversion Hsorted as [|? ? Hl Hall]; subst.
    destruct (comp x y) eqn:Hxy.
    + constructor; [exact Hsorted|].
      constructor; [now apply comp_asym|].
      rewrite Forall_forall in Hall |- *. intros z Hz%list_elem_of_In.
      unfold in_order. destruct (comp z x) eqn:Hzx; [|reflexivity].
      rewrite <- (Hall z (proj2 (list_elem_of_In _ _) Hz)).
      symmetry. apply (Htrans y z); simpl; auto.
    + constructor.
      * apply IH; [|exact Hl].
        intros y' z Hy' Hz. apply Htrans; now right.
      * rewrite Forall_forall in Hall |- *. intros z Hz%list_elem_of_In.
        apply (Permutation_in _ (sort_insert_Permutation x l)) in Hz.
        destruct Hz as [<-|Hz]; [exact Hxy|].
        apply Hall. now apply list_elem_of_In.
Qed.

Lemma std_sort_StronglySorted (l : list A) :
  (forall x y z, In x l -> In y l -> In z l ->
     comp z x = true -> comp x y = true -> comp z y = true) ->
  StronglySorted (in_order comp) (std_sort comp l).
Proof.
  induction l as [|x l IH]; intros Htrans; simpl; [constructor|].
  apply sort_insert_StronglySorted.
  - intros y z Hy Hz.
    apply (Permutation_in _ (std_sort_Permutation l)) in Hy, Hz.
    apply Htrans; simpl; auto.
  - apply IH. intros x' y z Hx' Hy Hz. apply Htrans; now right.
Qed.

Lemma StronglySorted_lookup (R : A -> A -> Prop) (l : list A) :
  StronglySorted R l ->
  forall (i j : nat) x y,
    (i < j)%nat -> l !! i = Some x -> l !! j = Some y -> R x y.
Proof.
  induction 1 as [|a l Hsorted IH Hall]; intros i j x y Hij Hi Hj.
  - rewrite lookup_nil in Hi. discriminate.
  - destruct j as [|j]; [lia|]. simpl in Hj.
    destruct i as [|i]; simpl in Hi.
    + injection Hi as ->. rewrite Forall_lookup in Hall.
      exact (Hall j y Hj).
    + apply (IH i j); auto. lia.
Qed.
End SortFacts.

(** ** Ranking *)

Section RankingFacts.
Context {F : Type} `{FloatLaws F}.
Import HyperFastSearchEngine.
Implicit Types (e : HyperFastSearchEngine.t F) (query : string).

Lemma RankedDoc_lt_asym (a b : RankedDoc.t F) :
  RankedDoc.lt a b = true -> RankedDoc.lt b a = false.
Proof.
  unfold RankedDoc.lt.
  rewrite (fneqb_sym (RankedDoc.titleBoost b) (RankedDoc.titleBoost a)).
  rewrite (ffabs_fsub_sym (RankedDoc.score b) (RankedDoc.score a)).
  destruct (RankedDoc.exactPhraseMatch a), (RankedDoc.exactPhraseMatch b);
    simpl; try discriminate; try reflexivity.
  all: destruct (fneqb _ _); [apply fltb_asym|];
    destruct (fltb (f_lit (1 # 10000)) _); [apply fltb_asym|];
    intros Hlt%Z.ltb_lt; apply Z.ltb_ge; lia.
Qed.

Lemma gather_Some m exact_phrase_docs occurrences (kv : Z * F) rd :
  gather m exact_phrase_docs occurrences kv = Some rd ->
  RankedDoc.docID rd = fst kv /\ RankedDoc.score rd = snd kv
  /\ exceeds_threshold (snd kv).
Proof.
  unfold gather, exceeds_threshold.
  destruct (fleb (snd kv) _); [discriminate|].
  intros [= <-]. auto.
Qed.

Lemma gather_is_Some m exact_phrase_docs occurrences (kv : Z * F) :
  exceeds_threshold (snd kv) ->
  exists rd, gather m exact_phrase_docs occurrences kv = Some rd.
Proof. unfold gather, exceeds_threshold. intros ->. eauto. Qed.

Lemma NoDup_omap_gather m exact_phrase_docs occurrences
    (l : list (Z * F)) :
  NoDup (map fst l) ->
  NoDup (map RankedDoc.docID (omap (gather m exact_phrase_docs occurrences) l)).
Proof.
  induction l as [|kv l IH]; simpl; intros Hnd; [constructor|].
  apply NoDup_cons in Hnd as [Hnotin Hnd].
  destruct (gather m exact_phrase_docs occurrences kv) as [rd|] eqn:Hg;
    [|now apply IH].
  simpl. apply NoDup_cons. split; [|now apply IH].
  intros Hin. apply Hnotin.
  apply gather_Some in Hg as (Hid & _).
  rewrite <- Hid.
  apply list_elem_of_fmap in Hin as (rd' & -> & Hrd').
  apply list_elem_of_omap in Hrd' as (kv' & Hkv' & Hg').
  apply gather_Some in Hg' as (-> & _).
  apply list_elem_of_fmap. eauto.
Qed.

Lemma In_gathered (r : Ranking F) rd :
  In rd (gathered r) ->
  doc_scores (r_scores r) !! RankedDoc.docID rd = Some (RankedDoc.score rd)
  /\ exceeds_threshold (RankedDoc.score rd).
Proof.
  unfold gathered. intros Hin%list_elem_of_In.
  apply list_elem_of_omap in Hin as ([docID s] & Hkv & Hg).
  apply elem_of_map_to_list in Hkv.
  apply gather_Some in Hg as (-> & -> & Hs). auto.
Qed.

Lemma gathered_complete (r : Ranking F) (docID : Z) (s : F) :
  doc_scores (r_scores r) !! docID = Some s -> exceeds_threshold s ->
  exists rd, In rd (gathered r)
             /\ RankedDoc.docID rd = docID /\ RankedDoc.score rd = s.
Proof.
  intros Hlook Hs.
  destruct (gather_is_Some (r_titles r) (r_exact_phrase_docs r)
              (doc_occurrences (r_scores r)) (docID, s) Hs) as [rd Hg].
  exists rd. split.
  - apply list_elem_of_In. unfold gathered. apply list_elem_of_omap.
    exists (docID, s). split; [now apply elem_of_map_to_list|exact Hg].
  - apply gather_Some in Hg as (? & ? & _). auto.
Qed.

(** For a strict weak order being less is transitive. *)
Lemma strict_weak_on_trans (l : list (RankedDoc.t F)) :
  strict_weak_on l ->
  forall a b c, In a l -> In b l -> In c l ->
    RankedDoc.lt a b = true -> RankedDoc.lt b c = true ->
    RankedDoc.lt a c = true.
Proof.
  intros Hweak a b c Ha Hb Hc Hab Hbc.
  destruct (RankedDoc.lt a c) eqn:Hac; [reflexivity|].
  pose proof (RankedDoc_lt_asym _ _ Hbc) as Hcb.
  rewrite (Hweak a c b Ha Hc Hb Hac Hcb) in Hab. discriminate.
Qed.

Lemma sorted_results_spec (r : Ranking F) :
  Permutation (sorted_results r) (gathered r)
  /\ (strict_weak_on (sorted_results r) ->
      sorted_by_tuple (sorted_results r)).
Proof.
  split; [apply std_sort_Permutation|].
  intros Hweak. unfold sorted_by_tuple, sorted_results.
  apply (std_sort_StronglySorted (fun a b => RankedDoc.lt b a)).
  - intros x y. apply RankedDoc_lt_asym.
  - intros x y z Hx Hy Hz Hzx Hxy.
    assert (Hin : forall rd, In rd (gathered r) -> In rd (sorted_results r))
      by (intros rd; apply Permutation_in, Permutation_sym,
            std_sort_Permutation).
    apply (strict_weak_on_trans _ Hweak y x z); auto.
Qed.

(** Three results that are less than one another in a circle cannot be
    put in order. *)
Lemma circle_not_sorted (l : list (RankedDoc.t F)) (a b c : RankedDoc.t F) :
  In a l -> In b l -> In c l ->
  RankedDoc.lt a b = true -> RankedDoc.lt b c = true ->
  RankedDoc.lt c a = true ->
  ~ sorted_by_tuple l.
Proof.
  intros Ha Hb Hc Hab Hbc Hca Hsorted.
  apply list_elem_of_In, list_elem_of_lookup_1 in Ha as [ia Hia].
  apply list_elem_of_In, list_elem_of_lookup_1 in Hb as [ib Hib].
  apply list_elem_of_In, list_elem_of_lookup_1 in Hc as [ic Hic].
  pose proof (StronglySorted_lookup _ _ Hsorted) as Hlook.
  assert (Hlater : forall (i j : nat) x y,
             l !! i = Some x -> l !! j = Some y ->
             RankedDoc.lt x y = true -> (j < i)%nat).
  { intros i j x y Hi Hj Hxy.
    destruct (Nat.lt_trichotomy i j) as [Hlt|[Heq|Hgt]]; [| |exact Hgt].
    - rewrite (Hlook i j x y Hlt Hi Hj) in Hxy. discriminate.
    - subst j. rewrite Hi in Hj. injection Hj as ->.
      rewrite (RankedDoc_lt_asym _ _ Hxy) in Hxy. discriminate. }
  pose proof (Hlater _ _ _ _ Hia Hib Hab).
  pose proof (Hlater _ _ _ _ Hib Hic Hbc).
  pose proof (Hlater _ _ _ _ Hic Hia Hca).
  lia.
Qed.

End RankingFacts.

Lemma Q_laws : FloatLaws Q.
Proof.
  split.
  - intros a b. unfold fltb; simpl. unfold Qltb.
    rewrite !negb_true_iff, negb_false_iff.
    intros Hba. apply Qle_bool_iff.
    destruct (Qlt_le_dec a b) as [Hlt|Hle]; [now apply Qlt_le_weak|].
    apply Qle_bool_iff in Hle. congruence.
  - intros a b. simpl. now rewrite Qeq_bool_comm.
  - intros [an ad] [bn bd]. simpl. unfold Qabs, Qminus, Qplus, Qopp. simpl.
    f_equal; [|apply Pos.mul_comm].
    rewrite <- Z.abs_opp. f_equal. lia.
Qed.

Lemma strict_weak_on_sample_results :
  strict_weak_on (ranked_list sample_engine "hello").
Proof.
  intros a b c Ha Hb Hc.
  vm_compute in Ha, Hb, Hc.
  destruct Ha as [<-|[<-|[]]]; destruct Hb as [<-|[<-|[]]];
    destruct Hc as [<-|[<-|[]]]; vm_compute; congruence.
Qed.



(** ** The document length the ranker reads *)

Section LengthFacts.
Context {F : Type} `{FloatOps F}.
Import HyperFastSearchEngine.

(** The scoring and the normalization read the index only through the
    token count of its first document. *)
Lemma ranker_reads_head_only (ix ix' : HyperOptimizedIndex.t) :
  head_totalTokens ix = head_totalTokens ix' ->
  (forall idfv m exact_phrase_docs pp,
      base_score (F := F) ix idfv m exact_phrase_docs pp
      = base_score ix' idfv m exact_phrase_docs pp)
  /\ (forall m docID (score : F),
         normalize ix m docID score = normalize ix' m docID score).
Proof.
  intros Hhead. split.
  - intros. unfold base_score. now rewrite Hhead.
  - intros. unfold normalize. now rewrite Hhead.
Qed.

(** C1: the ranker does not use the token count of the posting's own
    document.  In [length_corpus] the only posting of "zebra" belongs to
    document 1, which has 1500 tokens, but the length read for it is 2, the
    token count of document 0: the final score of document 1 for the query
    "zebra" is the score of a document of 2 tokens multiplied by 0.1, the
    factor of documents shorter than 100 tokens, and the contribution of
    the posting is the same for every index whose first document has 2
    tokens. *)
Theorem ranker_reads_first_document_length :
  let ix := HyperOptimizedIndex.build_from_files length_corpus in
  let e : HyperFastSearchEngine.t F := index_folder new_engine length_corpus in
  HyperOptimizedIndex.idx ix !! "zebra" = Some [Posting.mk 1 1 [0]]
  /\ totalTokens <$> HyperOptimizedIndex.docs ix !! 1%nat = Some 1500
  /\ totalTokens <$> HyperOptimizedIndex.docs ix !! 0%nat = Some 2
  /\ head_totalTokens ix = 2
  /\ final_scores e "zebra"
     = {[ 1 := fmul (single_occurrence_score 2 2 1) (f_lit (1 # 10)) ]}
  /\ (forall m (score : F),
         has_title m 1 = false ->
         normalize ix m 1 score = fmul score (f_lit (1 # 10)))
  /\ (forall ix', head_totalTokens ix' = 2 ->
        forall idfv m exact_phrase_docs,
          base_score (F := F) ix idfv m exact_phrase_docs (Posting.mk 1 1 [0])
          = base_score ix' idfv m exact_phrase_docs (Posting.mk 1 1 [0])).
Proof.
  intros ix e.
  assert (Hrun : HyperOptimizedIndex.idx ix !! "zebra"
                 = Some [Posting.mk 1 1 [0]]
                 /\ totalTokens <$> HyperOptimizedIndex.docs ix !! 1%nat
                    = Some 1500
                 /\ totalTokens <$> HyperOptimizedIndex.docs ix !! 0%nat
                    = Some 2
                 /\ head_totalTokens ix = 2)
    by (vm_compute; repeat split; reflexivity).
  assert (Hscores : final_scores e "zebra"
                    = {[ 1 := fmul (single_occurrence_score 2 2 1)
                                   (f_lit (1 # 10)) ]})
    by (vm_compute; reflexivity).
  clearbody ix e.
  destruct Hrun as (Hidx & Hown & Hfirst & Hhead).
  split; [exact Hidx|]. split; [exact Hown|]. split; [exact Hfirst|].
  split; [exact Hhead|]. split; [exact Hscores|]. split.
  - intros m score Hno. unfold normalize. rewrite Hhead, Hno. reflexivity.
  - intros ix' Hhead' idfv m exact_phrase_docs.
    apply ranker_reads_head_only. congruence.
Qed.
End LengthFacts.

(** ** Snippets *)

Section SnippetFacts.
Local Open Scope nat_scope.
Implicit Types (text term : string) (query_terms : list string).

Lemma length_append (s1 s2 : string) :
  String.length (s1 +:+ s2) = String.length s1 + String.length s2.
Proof.
  induction s1 as [|c s1 IH]; [reflexivity|].
  rewrite app_cons_string. simpl. now rewrite IH.
Qed.

Lemma length_substring (s : string) : forall n m,
  String.length (String.substring n m s) = Nat.min m (String.length s - n).
Proof.
  induction s as [|c s IH]; intros [|n] [|m];
    cbn [String.substring String.length]; rewrite ?IH; lia.
Qed.

Lemma substring_whole (s : string) : forall m,
  String.length s <= m -> String.substring 0 m s = s.
Proof.
  induction s as [|c s IH]; intros [|m] Hm; simpl in *; try lia; auto.
  f_equal. apply IH. lia.
Qed.

Lemma occurs_at_bound text term (p : nat) :
  occurs_at text term p -> 1 <= String.length term ->
  p + String.length term <= String.length text.
Proof.
  unfold occurs_at. intros Hocc Hlen.
  apply (f_equal String.length) in Hocc.
  rewrite length_substring in Hocc. lia.
Qed.

Lemma is_match_bound text query_terms (p : nat) :
  is_match text query_terms p -> p < String.length text.
Proof.
  intros (term & _ & Hlen & Hocc).
  apply occurs_at_bound in Hocc; lia.
Qed.

(** *** [find] *)

Lemma index_ge (s1 s2 : string) : forall n m,
  String.index n s1 s2 = Some m -> n <= m.
Proof.
  induction s2 as [|b s2 IH]; intros [|n] m; simpl; try lia.
  - discriminate.
  - destruct (String.index n s1 s2) as [k|] eqn:Hk; [|discriminate].
    intros [= <-]. apply IH in Hk. lia.
Qed.

Lemma find_first_occurrence text term (p : nat) :
  occurs_at text term p -> term <> EmptyString ->
  exists m, find text term 0 = Some m /\ m <= p /\ occurs_at text term m.
Proof.
  intros Hocc Hne. unfold find.
  destruct (String.index 0 term text) as [m|] eqn:Hidx.
  - exists m. split; [reflexivity|]. split.
    + destruct (Nat.le_gt_cases m p) as [Hle|Hgt]; [exact Hle|].
      exfalso. now apply (index_correct2 _ _ _ _ Hidx p (Nat.le_0_l p) Hgt).
    + exact (index_correct1 _ _ _ _ Hidx).
  - exfalso. now apply (index_correct3 _ p _ _ Hidx Hne (Nat.le_0_l p)).
Qed.

Lemma In_find_all (fuel : nat) text term : forall pos p t,
  In (p, t) (find_all fuel text term pos) ->
  t = term /\ occurs_at text term p.
Proof.
  induction fuel as [|fuel IH]; intros pos p t; simpl; [easy|].
  destruct (find text term pos) as [m|] eqn:Hfind; [|easy].
  intros [[= <- <-]|Hin].
  - split; [reflexivity|]. exact (index_correct1 _ _ _ _ Hfind).
  - now apply IH in Hin.
Qed.

(** The fuel of [find_all] is enough: every occurrence at or after [pos]
    is collected. *)
Lemma find_all_complete (fuel : nat) text term : forall pos p,
  term <> EmptyString -> occurs_at text term p ->
  pos <= p -> p - pos < fuel ->
  In (p, term) (find_all fuel text term pos).
Proof.
  induction fuel as [|fuel IH]; intros pos p Hne Hocc Hpos Hfuel; [lia|].
  simpl. unfold find.
  destruct (String.index pos term text) as [m|] eqn:Hidx.
  - pose proof (index_ge _ _ _ _ Hidx) as Hge.
    destruct (Nat.lt_trichotomy m p) as [Hlt|[->|Hgt]].
    + right. apply IH; auto; lia.
    + now left.
    + exfalso. now apply (index_correct2 _ _ _ _ Hidx p Hpos Hgt).
  - exfalso. now apply (index_correct3 _ p _ _ Hidx Hne Hpos).
Qed.

Lemma In_collect_matches text query_terms (p : nat) (t : string) :
  In (p, t) (collect_matches text query_terms) <->
  In t query_terms /\ 2 <= String.length t /\ occurs_at text t p.
Proof.
  unfold collect_matches. rewrite in_flat_map. split.
  - intros (term & Hterm & Hin).
    destruct (Nat.ltb_spec (String.length term) 2) as [Hshort|Hlong];
      [easy|].
    apply In_find_all in Hin as [-> Hocc]. auto.
  - intros (Hterm & Hlen & Hocc). exists t. split; [exact Hterm|].
    destruct (Nat.ltb_spec (String.length t) 2) as [Hshort|Hlong]; [lia|].
    apply find_all_complete.
    + intros ->. simpl in Hlen. lia.
    + exact Hocc.
    + lia.
    + apply occurs_at_bound in Hocc; lia.
Qed.

Lemma collect_matches_is_match text query_terms (p : nat) :
  is_match text query_terms p <->
  exists t, In (p, t) (collect_matches text query_terms).
Proof.
  split.
  - intros (term & Hin). exists term. now apply In_collect_matches.
  - intros (term & Hin). exists term. now apply In_collect_matches.
Qed.

(** *** The sorted matches start with the earliest one *)

Lemma std_sort_nil_inv {A : Type} (comp : A -> A -> bool) (l : list A) :
  std_sort comp l = [] -> l = [].
Proof.
  intros Hnil. pose proof (std_sort_Permutation comp l) as Hperm.
  rewrite Hnil in Hperm. now apply Permutation_nil.
Qed.

Lemma std_sort_pair_lt_head (l : list (nat * string)) : forall h rest,
  std_sort pair_lt l = h :: rest ->
  In h l /\ forall x, In x l -> fst h <= fst x.
Proof.
  induction l as [|x l IH]; intros h rest; simpl; [discriminate|].
  destruct (std_sort pair_lt l) as [|h' rest'] eqn:Hsorted; simpl.
  - apply std_sort_nil_inv in Hsorted as ->.
    intros [= <- <-]. split; [now left|].
    intros y [<-|[]]. lia.
  - destruct (IH h' rest' eq_refl) as [Hin Hmin].
    destruct (pair_lt x h') eqn:Hlt.
    + intros [= <- <-]. split; [now left|].
      assert (Hle : fst x <= fst h').
      { unfold pair_lt in Hlt.
        destruct (Nat.ltb_spec (fst x) (fst h')); [lia|].
        destruct (Nat.ltb_spec (fst h') (fst x)); [discriminate|lia]. }
      intros y [<-|Hy]; [lia|]. specialize (Hmin y Hy). lia.
    + intros [= <- <-]. split; [now right|].
      assert (Hle : fst h' <= fst x).
      { unfold pair_lt in Hlt.
        destruct (Nat.ltb_spec (fst x) (fst h')); [discriminate|lia]. }
      intros y [<-|Hy]; [lia|]. now apply Hmin.
Qed.

(** *** Windows *)

Lemma window_is_specified_window text (p : nat) :
  window text p = specified_window text p.
Proof.
  unfold window, specified_window, substr.
  destruct (Nat.ltb_spec 200 p) as [Hfar|Hnear].
  - destruct (Nat.ltb_spec 0 (p - 200)); [|lia].
    destruct (Nat.ltb_spec (Nat.min (p + 200) (String.length text))
                (String.length text));
      now rewrite ?app_assoc_string, ?app_nil_r_string.
  - replace (p - 200) with 0 by lia. simpl (0 <? 0).
    destruct (Nat.ltb_spec (Nat.min (p + 200) (String.length text))
                (String.length text));
      now rewrite ?app_nil_l_string, ?app_nil_r_string.
Qed.

Lemma length_specified_window text (p : nat) :
  p < String.length text ->
  String.length (specified_window text p) <= 100 ->
  String.length text <= 100.
Proof.
  unfold specified_window. intros Hp.
  rewrite !length_append, length_substring.
  destruct (Nat.ltb_spec 0 (p - 200));
    destruct (Nat.ltb_spec (Nat.min (p + 200) (String.length text))
                (String.length text)); simpl String.length; lia.
Qed.

Lemma specified_window_of_short_text text (p : nat) :
  String.length text <= 100 -> specified_window text p = text
  \/ String.length text <= p.
Proof.
  intros Hshort.
  destruct (Nat.le_gt_cases (String.length text) p) as [Hout|Hin];
    [now right|left].
  unfold specified_window.
  replace (p - 200) with 0 by lia.
  replace (Nat.min (p + 200) (String.length text)) with (String.length text)
    by lia.
  rewrite !Nat.ltb_irrefl, Nat.sub_0_r.
  rewrite app_nil_l_string, substring_whole by lia.
  apply app_nil_r_string.
Qed.

Lemma head_of_short_text text :
  String.length text <= 100 -> head_of_text text = text.
Proof.
  intros Hshort. unfold head_of_text, substr. apply substring_whole. lia.
Qed.

Lemma first_window_of_short_text text (matches : list (nat * string)) :
  String.length text <= 100 ->
  (forall m, In m matches -> fst m < String.length text) ->
  first_window text matches = None.
Proof.
  intros Hshort. induction matches as [|m rest IH]; intros Hpos; simpl;
    [reflexivity|].
  rewrite window_is_specified_window.
  destruct (specified_window_of_short_text text (fst m) Hshort) as [->|Hout].
  - destruct (Nat.ltb_spec 100 (String.length text)); [lia|].
    apply IH. intros m' Hm'. apply Hpos. now right.
  - specialize (Hpos m (or_introl eq_refl)). lia.
Qed.

(** Whatever the loop over the sorted matches does, its outcome is the
    window around the first of them. *)
Lemma first_window_is_first text (h : nat * string)
    (rest : list (nat * string)) :
  (forall m, In m (h :: rest) -> fst m < String.length text) ->
  default (head_of_text text) (first_window text (h :: rest))
  = specified_window text (fst h).
Proof.
  intros Hpos. simpl first_window. rewrite window_is_specified_window.
  destruct (Nat.ltb_spec 100 (String.length (specified_window text (fst h))))
    as [Hlong|Hshort]; [reflexivity|].
  assert (Hh : fst h < String.length text) by (apply Hpos; now left).
  pose proof (length_specified_window _ _ Hh Hshort) as Htext.
  rewrite first_window_of_short_text;
    [|exact Htext|intros m Hm; apply Hpos; now right].
  simpl. rewrite head_of_short_text by exact Htext.
  destruct (specified_window_of_short_text text (fst h) Htext) as [->|Hout];
    [reflexivity|lia].
Qed.

(** *** The branch without matches *)

Lemma first_line_snippet_spec text : forall rest i,
  (forall k, String.get k rest = String.get (i + k) text) ->
  match first_line_snippet text rest i with
  | Some snippet =>
      exists j, i <= j /\ long_line_at text j /\ snippet = line_slice text j
                /\ forall j', i <= j' -> j' < j -> ~ long_line_at text j'
  | None => forall j, i <= j -> ~ long_line_at text j
  end.
Proof.
  induction rest as [|c rest IH]; intros i Hsuffix;
    cbn [first_line_snippet]; cbv zeta.
  - intros j Hj [(c & Hget & _) _].
    specialize (Hsuffix (j - i)). replace (i + (j - i)) with j in Hsuffix by lia.
    simpl in Hsuffix. congruence.
  - assert (Hhere : String.get i text = Some c).
    { specialize (Hsuffix 0). simpl in Hsuffix.
      now rewrite Nat.add_0_r in Hsuffix. }
    assert (Hnext : forall k, String.get k rest = String.get (S i + k) text).
    { intros k. specialize (Hsuffix (S k)). simpl in Hsuffix.
      now replace (S i + k) with (i + S k) by lia. }
    specialize (IH (S i) Hnext).
    fold (line_slice text i).
    assert (Hskip : ~ long_line_at text i ->
              match first_line_snippet text rest (S i) with
              | Some snippet =>
                  exists j, i <= j /\ long_line_at text j
                            /\ snippet = line_slice text j
                            /\ forall j', i <= j' -> j' < j ->
                                          ~ long_line_at text j'
              | None => forall j, i <= j -> ~ long_line_at text j
              end).
    { intros Hnot.
      destruct (first_line_snippet text rest (S i)) as [snippet|].
      - destruct IH as (j & Hj & Hlong & Heq & Hfirst).
        exists j. split; [lia|]. split; [exact Hlong|]. split; [exact Heq|].
        intros j' Hj' Hlt. destruct (Nat.eq_dec j' i) as [->|Hne]; [exact Hnot|].
        apply Hfirst; lia.
      - intros j Hj. destruct (Nat.eq_dec j i) as [->|Hne]; [exact Hnot|].
        apply IH. lia. }
    destruct (isalpha c) eqn:Halpha.
    + destruct (Nat.ltb_spec 50 (String.length (line_slice text i)))
        as [Hlong|Hshort].
      * exists i. split; [lia|]. split; [split; eauto|].
        split; [reflexivity|]. intros j' Hj' Hlt. lia.
      * apply Hskip. intros [_ Hlong]. lia.
    + apply Hskip. intros [(c' & Hget & Hc') _]. congruence.
Qed.

(** C7, as the code has it.  When some query term of at least 2 bytes
    occurs in the text, the snippet is the window around the earliest
    occurrence: up to 200 bytes on either side of its offset, with "..."
    in front unless the window starts at offset 0 and "..." behind unless
    it ends at the end of the text.  When none occurs, the snippet is the
    rest of the line, cut at 300 bytes, from the first letter whose rest of
    line is longer than 50 bytes, and the first 300 bytes of the text when
    there is no such letter. *)
Theorem get_snippet_improved_cases text query_terms :
  query_terms <> [] ->
  (forall p, earliest_match text query_terms p ->
     get_snippet_improved text query_terms = specified_window text p)
  /\ ((forall p, ~ is_match text query_terms p) ->
      (forall i, long_line_at text i ->
                 (forall j, j < i -> ~ long_line_at text j) ->
                 get_snippet_improved text query_terms = line_slice text i)
      /\ ((forall i, ~ long_line_at text i) ->
          get_snippet_improved text query_terms = head_of_text text)).
Proof.
  intros Hterms.
  destruct (String.eqb_spec text EmptyString) as [->|Htext].
  { split.
    - intros p [Hmatch _]. apply is_match_bound in Hmatch.
      simpl in Hmatch. lia.
    - intros _. split.
      + intros i [(c & Hget & _) _]. simpl in Hget. discriminate.
      + intros _. reflexivity. }
  assert (Hunfold : get_snippet_improved text query_terms
            = match collect_matches text query_terms with
              | [] => default (head_of_text text)
                              (first_line_snippet text text 0)
              | _ => default (head_of_text text)
                       (first_window text
                          (std_sort pair_lt (collect_matches text query_terms)))
              end).
  { unfold get_snippet_improved.
    destruct text; [congruence|]. destruct query_terms; [congruence|].
    reflexivity. }
  rewrite Hunfold. clear Hunfold. split.
  - intros p [Hmatch Hfirst].
    apply collect_matches_is_match in Hmatch as Hin. destruct Hin as [t Hin].
    destruct (collect_matches text query_terms) as [|m0 ms] eqn:Hcollect;
      [destruct Hin|].
    rewrite <- Hcollect in *.
    destruct (std_sort pair_lt (collect_matches text query_terms))
      as [|h rest] eqn:Hsorted.
    { apply std_sort_nil_inv in Hsorted. rewrite Hsorted in Hin.
      destruct Hin. }
    pose proof (std_sort_Permutation pair_lt
                  (collect_matches text query_terms)) as Hperm.
    rewrite Hsorted in Hperm.
    destruct (std_sort_pair_lt_head _ _ _ Hsorted) as [Hh Hmin].
    assert (Hhp : fst h = p).
    { specialize (Hmin _ Hin). simpl in Hmin.
      destruct (Nat.eq_dec (fst h) p) as [Heq|Hne]; [exact Heq|].
      exfalso. apply (Hfirst (fst h)); [lia|].
      apply collect_matches_is_match. exists (snd h).
      now destruct h. }
    rewrite first_window_is_first, Hhp; [reflexivity|].
    intros m Hm. apply (is_match_bound text query_terms).
    apply collect_matches_is_match. exists (snd m).
    apply (Permutation_in _ Hperm) in Hm. now destruct m.
  - intros Hnone.
    destruct (collect_matches text query_terms) as [|[p t] ms] eqn:Hcollect.
    2:{ exfalso. apply (Hnone p). apply collect_matches_is_match.
        exists t. rewrite Hcollect. now left. }
    pose proof (first_line_snippet_spec text text 0 (fun k => eq_refl))
      as Hspec.
    destruct (first_line_snippet text text 0) as [snippet|]; simpl; split.
    + destruct Hspec as (j & _ & Hlong & -> & Hbefore).
      intros i Hi Hfirst.
      destruct (Nat.lt_trichotomy i j) as [Hlt|[->|Hgt]].
      * exfalso. apply (Hbefore i); [lia|exact Hlt|exact Hi].
      * reflexivity.
      * exfalso. now apply (Hfirst j).
    + destruct Hspec as (j & _ & Hlong & _). intros Hno.
      exfalso. now apply (Hno j).
    + intros i Hi _. exfalso. apply (Hspec i); [lia|exact Hi].
    + reflexivity.
Qed.

End SnippetFacts.

Lemma get_snippet_improved_cases_witness :
  ["hello"; "zz"] <> []
  /\ (forall p, earliest_match "say hello" ["hello"; "zz"] p ->
        get_snippet_improved "say hello" ["hello"; "zz"]
        = specified_window "say hello" p)
  /\ ((forall p, ~ is_match "say hello" ["hello"; "zz"] p) ->
      (forall i, long_line_at "say hello" i ->
                 (forall j, (j < i)%nat -> ~ long_line_at "say hello" j) ->
                 get_snippet_improved "say hello" ["hello"; "zz"]
                 = line_slice "say hello" i)
      /\ ((forall i, ~ long_line_at "say hello" i) ->
          get_snippet_improved "say hello" ["hello"; "zz"]
          = head_of_text "say hello")).
Proof.
  assert (Hterms : ["hello"; "zz"] <> []) by discriminate.
  split; [exact Hterms|].
  exact (get_snippet_improved_cases "say hello" ["hello"; "zz"] Hterms).
Defined.

(** C7, as stated, fails on a text without matches whose first line is
    short: the specified snippet is the first 300 bytes from the first
    letter on, here the whole text, while the code returns the second
    line. *)
Lemma snippet_without_match_is_line_bounded :
  (forall p, ~ is_match two_line_text ["zz"] p)
  /\ specified_fallback two_line_text = two_line_text
  /\ get_snippet_improved two_line_text ["zz"] = repeat_string 60 "a"
  /\ get_snippet_improved two_line_text ["zz"]
     <> specified_fallback two_line_text.
Proof.
  split; [|split; [|split]].
  - intros p Hp. apply collect_matches_is_match in Hp as [t Hin].
    vm_compute in Hin. exact Hin.
  - vm_compute. reflexivity.
  - vm_compute. reflexivity.
  - vm_compute. discriminate.
Qed.

(** ** The inverted index *)

Section IndexFacts.
Import HyperOptimizedIndex.

(** *** One document *)

Lemma positions_ok_weaken (i j : Z) (p : Posting.t) :
  i <= j -> positions_ok i p -> positions_ok j p.
Proof.
  intros Hij [Hsorted Hbound]. split; [exact Hsorted|].
  eapply Forall_impl; [exact Hbound|]. simpl. intros x Hx. lia.
Qed.

Lemma positions_ok_snoc (i : Z) (p : Posting.t) (freq : Z) :
  0 <= i -> positions_ok i p ->
  positions_ok (i + 1)
    (Posting.mk (Posting.docID p) freq (Posting.positions p ++ [i])).
Proof.
  intros Hi [Hsorted Hbound]. split; simpl.
  - apply StronglySorted_app_2; [|exact Hsorted|repeat constructor].
    intros x1 x2 Hx1 Hx2%list_elem_of_singleton. subst x2.
    rewrite Forall_forall in Hbound. apply Hbound in Hx1. lia.
  - apply Forall_app. split.
    + eapply Forall_impl; [exact Hbound|]. simpl. intros x Hx. lia.
    + repeat constructor; lia.
Qed.

Lemma count_token_ok (docId i : Z) (local : gmap string Posting.t)
    (t : string) :
  0 <= i -> local_ok docId i local ->
  local_ok docId (i + 1) (count_token docId local i t).
Proof.
  intros Hi Hlocal t' p'. unfold count_token.
  destruct (decide (t = t')) as [<-|Hne].
  2:{ rewrite lookup_insert_ne by exact Hne. intros Hp'.
      destruct (Hlocal _ _ Hp') as (Hid & Hcounts & Hpos).
      split; [exact Hid|]. split; [exact Hcounts|].
      intros Hfit. apply (positions_ok_weaken i); [lia|]. apply Hpos. lia. }
  rewrite lookup_insert_eq. intros [= <-].
  set (p := default (Posting.new docId) (local !! t)).
  assert (Hp : Posting.docID p = docId /\ counts_ok p
               /\ (i <= 32768 -> positions_ok i p)).
  { subst p. destruct (local !! t) as [p0|] eqn:Hp0; simpl.
    - exact (Hlocal _ _ Hp0).
    - split; [reflexivity|]. split.
      + unfold counts_ok, Posting.pos_size. simpl. lia.
      + intros _. split; simpl; constructor. }
  destruct Hp as (Hid & (Hfreq & Hsize) & Hpos).
  destruct (Z.ltb_spec (Posting.freq p) 1000) as [Hlt|Hge].
  2:{ split; [exact Hid|]. split; [split; assumption|].
      intros Hfit. apply (positions_ok_weaken i); [lia|]. apply Hpos. lia. }
  unfold MAX_POSTING_POSITIONS.
  destruct (Z.ltb_spec (Posting.pos_size p) 50) as [Hroom|Hfull].
  - split; [exact Hid|]. split.
    + unfold counts_ok, Posting.pos_size in *. simpl.
      rewrite length_app. simpl. lia.
    + intros Hfit. rewrite to_short_small by lia.
      apply positions_ok_snoc; [exact Hi|]. apply Hpos. lia.
  - split; [exact Hid|]. split.
    + unfold counts_ok, Posting.pos_size in *. simpl. lia.
    + intros Hfit. apply (positions_ok_weaken i); [lia|].
      destruct (Hpos ltac:(lia)) as [Hsorted Hbound]. split; assumption.
Qed.

Lemma index_tokens_ok (docId : Z) (tokens : list string) :
  forall i local v,
    0 <= i -> local_ok docId i local ->
    local_ok docId (i + Z.of_nat (length tokens))
             (fst (index_tokens docId tokens i local v)).
Proof.
  induction tokens as [|t rest IH]; intros i local v Hi Hlocal.
  - simpl. now rewrite Z.add_0_r.
  - cbn [index_tokens].
    replace (i + Z.of_nat (length (t :: rest)))
      with (i + 1 + Z.of_nat (length rest)) by (cbn [length]; lia).
    apply IH; [lia|]. now apply count_token_ok.
Qed.

(** *** Merging the postings of a document *)

Lemma lookup_add_postings (local : gmap string Posting.t)
    (idx : gmap string (list Posting.t)) (t : string) :
  add_postings local idx !! t
  = match local !! t with
    | Some p => Some (default [] (idx !! t) ++ [p])
    | None => idx !! t
    end.
Proof.
  unfold add_postings. revert t.
  apply (map_fold_weak_ind
           (fun (r : gmap string (list Posting.t))
                (m : gmap string Posting.t) =>
              forall t, r !! t
                        = match m !! t with
                          | Some p => Some (default [] (idx !! t) ++ [p])
                          | None => idx !! t
                          end)).
  - intros t. now rewrite lookup_empty.
  - intros k p m r Hfresh IH t.
    destruct (decide (k = t)) as [<-|Hne].
    + rewrite !lookup_insert_eq. rewrite (IH k), Hfresh. reflexivity.
    + rewrite !lookup_insert_ne by exact Hne. apply IH.
Qed.

(** *** The loop over the files *)

Lemma posting_ok_app (docs : list Document) (doc : Document)
    (p : Posting.t) :
  posting_ok docs p -> posting_ok (docs ++ [doc]) p.
Proof.
  intros (Hcounts & Hid & d & Hd & Hpos).
  split; [exact Hcounts|]. split; [exact Hid|].
  exists d. split; [now apply lookup_app_l_Some|exact Hpos].
Qed.

Lemma ingest_file_inv (st : BuildState) (path content : string) :
  build_inv st -> build_inv (ingest_file st path content).
Proof.
  intros [Hid Hidx]. unfold ingest_file.
  pose proof (index_tokens_ok (b_docId st) (tokenize_ultrafast content)
                0 ∅ (b_vocabulary st) (Z.le_refl 0)) as Hlocal.
  destruct (index_tokens (b_docId st) (tokenize_ultrafast content) 0 ∅
              (b_vocabulary st)) as [local v].
  simpl in Hlocal.
  assert (Hempty : local_ok (b_docId st) 0 ∅)
    by (intros t p Hp; now rewrite lookup_empty in Hp).
  specialize (Hlocal Hempty). clear Hempty.
  set (doc := mkDocument _ _ _ _ _).
  split; simpl.
  - rewrite length_app. simpl. lia.
  - intros t postings. rewrite lookup_add_postings.
    assert (Hold : forall old, b_idx st !! t = Some old ->
              Forall (posting_ok (b_docs st ++ [doc])) old
              /\ Forall (fun p => Posting.docID p < b_docId st + 1) old
              /\ NoDup (map Posting.docID old)).
    { intros old Hlook. destruct (Hidx _ _ Hlook) as (Hok & Hlt & Hnd).
      split; [|split; [|exact Hnd]].
      - eapply Forall_impl; [exact Hok|]. intros p. apply posting_ok_app.
      - eapply Forall_impl; [exact Hlt|]. simpl. intros p Hp. lia. }
    destruct (local !! t) as [p|] eqn:Hp; [|exact (Hold postings)].
    intros [= <-].
    destruct (Hlocal _ _ Hp) as (Hpid & Hcounts & Hpos).
    assert (Hnew : posting_ok (b_docs st ++ [doc]) p).
    { split; [exact Hcounts|]. split; [lia|].
      exists doc. split.
      - rewrite Hpid, Hid, Nat2Z.id. apply list_lookup_middle. reflexivity.
      - simpl. exact Hpos. }
    destruct (b_idx st !! t) as [old|] eqn:Hlook; simpl.
    + destruct (Hold old eq_refl) as (Hok & Hlt & Hnd).
      destruct (Hidx _ _ Hlook) as (_ & Hlt0 & _).
      split; [|split].
      * apply Forall_app. split; [exact Hok|]. now constructor.
      * apply Forall_app. split; [exact Hlt|]. constructor; [lia|constructor].
      * rewrite map_app. apply NoDup_app. split; [exact Hnd|].
        split; [|simpl; apply NoDup_singleton].
        intros x Hx Hx'%list_elem_of_singleton. subst x.
        apply list_elem_of_fmap in Hx as (q & Hq & Hin).
        rewrite Forall_forall in Hlt0. apply Hlt0 in Hin. lia.
    + split; [|split].
      * now constructor.
      * constructor; [lia|constructor].
      * simpl. apply NoDup_singleton.
Qed.

Lemma ingest_inv (files : list InputFile) : forall st,
  build_inv st -> build_inv (ingest files st).
Proof.
  induction files as [|f rest IH]; intros st Hinv; simpl; [exact Hinv|].
  destruct (contents f) as [content|]; [|now apply IH].
  destruct (100 * 1024 * 1024 <? slen content); [now apply IH|].
  pose proof (ingest_file_inv st (path f) content Hinv) as Hinv'.
  destruct (200000 <? _); [exact Hinv'|now apply IH].
Qed.

Lemma build_inv_initial :
  build_inv (mkBuildState ∅ [] (mkVocabulary ∅ []) 0 0).
Proof.
  split; [reflexivity|]. intros t postings Hlook. simpl in Hlook.
  now rewrite lookup_empty in Hlook.
Qed.

(** The posting lists and the document list of a built index come out of
    the loop over the files. *)
Lemma build_from_files_state (files : list InputFile) :
  exists st, build_inv st
             /\ idx (build_from_files files) = b_idx st
             /\ docs (build_from_files files) = b_docs st
             /\ docFreq (build_from_files files) = count_docFreq (b_idx st).
Proof.
  destruct files as [|f rest].
  - exists (mkBuildState ∅ [] (mkVocabulary ∅ []) 0 0).
    split; [apply build_inv_initial|]. simpl. repeat split.
  - eexists. split; [apply (ingest_inv (f :: rest)), build_inv_initial|].
    simpl. repeat split.
Qed.

Lemma lookup_count_docFreq (idx : gmap string (list Posting.t))
    (t : string) (postings : list Posting.t) :
  idx !! t = Some postings ->
  count_docFreq idx !! t
  = Some (Z.min (Z.of_nat (length postings)) 32767).
Proof.
  intros Hlook. unfold count_docFreq. rewrite lookup_fmap, Hlook. simpl.
  f_equal. apply to_short_small. lia.
Qed.

(** C5, as the code has it: in a built index, for every term,
    [docFreq] is the number of postings of the term saturated at 32767,
    the postings belong to pairwise distinct documents, and every posting
    has a frequency between 0 and 1000 and at most min(freq, 50)
    positions; when its document has at most 32768 tokens, so that every
    token index fits in a [short], the positions increase strictly and are
    token indices of that document. *)
Theorem build_from_files_invariants (files : list InputFile)
    (t : string) (postings : list Posting.t) :
  idx (build_from_files files) !! t = Some postings ->
  docFreq (build_from_files files) !! t
  = Some (Z.min (Z.of_nat (length postings)) 32767)
  /\ NoDup (map Posting.docID postings)
  /\ forall p, In p postings ->
       0 <= Posting.freq p <= 1000
       /\ 0 <= Posting.pos_size p <= Z.min (Posting.freq p) 50
       /\ 0 <= Posting.docID p
       /\ exists d,
            docs (build_from_files files) !! Z.to_nat (Posting.docID p)
            = Some d
            /\ (totalTokens d <= 32768 ->
                StronglySorted Z.lt (Posting.positions p)
                /\ Forall (fun x => 0 <= x < totalTokens d)
                          (Posting.positions p)).
Proof.
  destruct (build_from_files_state files)
    as (st & [_ Hinv] & -> & -> & ->).
  intros Hlook. destruct (Hinv _ _ Hlook) as (Hok & _ & Hnd).
  split; [now apply lookup_count_docFreq|]. split; [exact Hnd|].
  intros p Hp%list_elem_of_In.
  rewrite Forall_forall in Hok.
  destruct (Hok _ Hp) as ((Hfreq & Hsize) & Hid & d & Hd & Hpos).
  split; [exact Hfreq|]. split; [exact Hsize|]. split; [exact Hid|].
  exists d. split; [exact Hd|exact Hpos].
Qed.
End IndexFacts.

(** ** The trie *)

Section TrieFacts.
Import UltraFastTrie.
Implicit Types (cur n : Node) (w word prefix : string).

Lemma islower_letter_index (c : ascii) :
  islower c = true -> 0 <= letter_index c < 26.
Proof.
  unfold islower, letter_index, char_val.
  intros [Hlo Hhi]%andb_true_iff.
  apply Z.leb_le in Hlo, Hhi.
  destruct (Z.ltb_spec (code c) 128); lia.
Qed.

Lemma letter_index_in_range (c : ascii) :
  0 <= letter_index c < 26 ->
  (letter_index c <? 0) || (26 <=? letter_index c) = false.
Proof.
  intros Hrange.
  destruct (Z.ltb_spec (letter_index c) 0); [lia|].
  destruct (Z.leb_spec 26 (letter_index c)); [lia|reflexivity].
Qed.

Lemma well_formed_new_node : well_formed new_node.
Proof.
  constructor; [reflexivity|].
  intros i n Hlook. apply lookup_replicate in Hlook as [[=] _].
Qed.

Lemma well_formed_child cur (idx : Z) n :
  well_formed cur -> child cur idx = Some n -> well_formed n.
Proof.
  intros Hwf. destruct Hwf as [b cs Hlen Hcs]. unfold child. simpl.
  destruct (cs !! Z.to_nat idx) as [[m|]|] eqn:Hlook; try discriminate.
  intros [= <-]. eauto.
Qed.

Lemma well_formed_next cur (idx : Z) :
  well_formed cur -> well_formed (default new_node (child cur idx)).
Proof.
  intros Hwf. destruct (child cur idx) as [n|] eqn:Hchild; simpl.
  - eauto using well_formed_child.
  - apply well_formed_new_node.
Qed.

Lemma well_formed_insert_from w : forall cur,
  well_formed cur -> well_formed (insert_from cur w).
Proof.
  induction w as [|c rest IH]; intros cur Hwf; simpl.
  - destruct Hwf as [b cs Hlen Hcs]. now constructor.
  - destruct ((letter_index c <? 0) || (26 <=? letter_index c));
      [exact Hwf|].
    pose proof (well_formed_next cur (letter_index c) Hwf) as Hnext.
    destruct Hwf as [b cs Hlen Hcs]. simpl in *.
    constructor; [now rewrite length_insert|].
    intros i n Hlook.
    destruct (decide (Z.to_nat (letter_index c) = i)) as [<-|Hne].
    + destruct (Nat.lt_ge_cases (Z.to_nat (letter_index c)) (length cs))
        as [Hin|Hout].
      * rewrite list_lookup_insert_eq in Hlook by exact Hin.
        injection Hlook as <-. now apply IH.
      * rewrite list_insert_ge in Hlook by exact Hout. eauto.
    + rewrite list_lookup_insert_ne in Hlook by exact Hne. eauto.
Qed.

(** After [insert], the walk along the word ends on a node flagged
    [is_end], provided the word is made of letters. *)
Lemma walk_insert_from_self w : forall cur,
  well_formed cur -> letters_only w = true ->
  exists n, walk (insert_from cur w) w = Some n /\ is_end n = true.
Proof.
  induction w as [|c rest IH]; intros cur Hwf Hletters; simpl.
  - eauto.
  - simpl in Hletters. apply andb_true_iff in Hletters as [Hc Hrest].
    apply islower_letter_index in Hc.
    rewrite (letter_index_in_range c Hc).
    pose proof (well_formed_next cur (letter_index c) Hwf) as Hnext.
    destruct (IH _ Hnext Hrest) as (n & Hwalk & Hend).
    exists n. split; [|exact Hend].
    destruct Hwf as [b cs Hlen Hcs]. unfold child at 1. simpl.
    rewrite list_lookup_insert_eq by lia. exact Hwalk.
Qed.

(** [insert] keeps every stored word. *)
Lemma walk_insert_from_other w' : forall w cur n,
  well_formed cur -> walk cur w' = Some n ->
  exists n', walk (insert_from cur w) w' = Some n'
             /\ (is_end n = true -> is_end n' = true).
Proof.
  induction w' as [|c' rest' IH]; intros w cur n Hwf Hwalk.
  - simpl in Hwalk. injection Hwalk as <-.
    destruct w as [|c rest]; simpl; [eauto|].
    destruct ((letter_index c <? 0) || (26 <=? letter_index c)); eauto.
  - simpl in Hwalk.
    destruct ((letter_index c' <? 0) || (26 <=? letter_index c')) eqn:Hc';
      [discriminate|].
    destruct (child cur (letter_index c')) as [m|] eqn:Hchild;
      [|discriminate].
    pose proof (well_formed_child _ _ _ Hwf Hchild) as Hm.
    destruct w as [|c rest]; simpl.
    + rewrite Hc'.
      change (child (mkNode true (children cur)) (letter_index c'))
        with (child cur (letter_index c')).
      rewrite Hchild. eauto.
    + destruct ((letter_index c <? 0) || (26 <=? letter_index c)) eqn:Hc.
      * simpl. rewrite Hc', Hchild. eauto.
      * simpl. rewrite Hc'.
        destruct (decide (letter_index c = letter_index c')) as [Heq|Hne].
        -- rewrite Heq, Hchild. simpl.
           destruct (IH rest m n Hm Hwalk) as (n' & Hwalk' & Hend).
           exists n'. split; [|exact Hend].
           destruct Hwf as [b cs Hlen Hcs]. unfold child in *. simpl in *.
           destruct (cs !! Z.to_nat (letter_index c')) as [[m0|]|] eqn:Hlook;
             try discriminate.
           apply lookup_lt_Some in Hlook.
           rewrite list_lookup_insert_eq by exact Hlook. exact Hwalk'.
        -- exists n. split; [|auto].
           assert (Hidx : Z.to_nat (letter_index c)
                          <> Z.to_nat (letter_index c')).
           { apply orb_false_iff in Hc as [Hc1 _].
             apply orb_false_iff in Hc' as [Hc'1 _].
             apply Z.ltb_ge in Hc1, Hc'1. lia. }
           unfold child in *. simpl.
           rewrite list_lookup_insert_ne by exact Hidx.
           destruct (children cur !! Z.to_nat (letter_index c'))
             as [[m0|]|]; try discriminate.
           injection Hchild as ->. exact Hwalk.
Qed.

(** *** The breadth-first enumeration *)

Lemma walk_app w1 : forall cur w2,
  walk cur (w1 +:+ w2) = walk cur w1 ≫= fun n => walk n w2.
Proof.
  induction w1 as [|c rest IH]; intros cur w2; [reflexivity|].
  rewrite app_cons_string. simpl.
  destruct ((letter_index c <? 0) || (26 <=? letter_index c));
    [reflexivity|].
  destruct (child cur (letter_index c)); [apply IH|reflexivity].
Qed.

Lemma well_formed_walk w : forall cur n,
  well_formed cur -> walk cur w = Some n -> well_formed n.
Proof.
  induction w as [|c rest IH]; intros cur n Hwf; simpl.
  - now intros [= <-].
  - destruct ((letter_index c <? 0) || (26 <=? letter_index c));
      [discriminate|].
    destruct (child cur (letter_index c)) as [m|] eqn:Hchild;
      [|discriminate].
    apply IH. eauto using well_formed_child.
Qed.

Lemma letter_index_of_slot (i : nat) :
  (i < 26)%nat -> letter_index (ascii_of_nat (97 + i)) = Z.of_nat i.
Proof.
  intros Hi.
  do 26 (destruct i as [|i]; [reflexivity|]). lia.
Qed.

Lemma walk_slot cur (i : nat) m :
  (i < 26)%nat -> children cur !! i = Some (Some m) ->
  walk cur (String (ascii_of_nat (97 + i)) EmptyString) = Some m.
Proof.
  intros Hi Hlook. cbn [walk].
  rewrite letter_index_of_slot by exact Hi.
  destruct (Z.ltb_spec (Z.of_nat i) 0); [lia|].
  destruct (Z.leb_spec 26 (Z.of_nat i)); [lia|]. simpl.
  unfold child. now rewrite Nat2Z.id, Hlook.
Qed.

Lemma queue_ok_push (root : Node) q (item : Node * string) :
  queue_ok root q -> walk root (snd item) = Some (fst item) ->
  queue_ok root (FixedQueue.push q item).
Proof.
  intros Hq Hitem. unfold FixedQueue.push.
  destruct (FixedQueue.full q); [exact Hq|].
  apply Forall_app. split; [exact Hq|]. now constructor.
Qed.

Lemma queue_ok_push_children (root : Node) node str
    (cs : list (option Node)) : forall q (i : nat),
  walk root str = Some node ->
  (forall j m, cs !! j = Some (Some m) ->
               children node !! (i + j)%nat = Some (Some m)) ->
  (i + length cs <= 26)%nat ->
  queue_ok root q -> queue_ok root (push_children q cs i str).
Proof.
  induction cs as [|c cs IH]; intros q i Hnode Hcs Hlen Hq; simpl;
    [exact Hq|].
  simpl in Hlen. apply IH; [exact Hnode| |lia|].
  - intros j m Hj. replace (S i + j)%nat with (i + S j)%nat by lia.
    now apply Hcs.
  - destruct c as [m|]; [|exact Hq].
    apply queue_ok_push; [exact Hq|]. simpl.
    rewrite walk_app, Hnode. cbv beta iota delta [mbind option_bind].
    apply walk_slot; [lia|].
    specialize (Hcs O m eq_refl). now rewrite Nat.add_0_r in Hcs.
Qed.

(** The enumeration only adds words the trie holds, and keeps what it has
    already found. *)
Lemma bfs_sound (root : Node) (limit : Z) (fuel : nat) :
  forall q results,
    well_formed root -> queue_ok root q ->
    Forall (fun w => exists n, walk root w = Some n /\ is_end n = true)
           results ->
    Forall (fun w => exists n, walk root w = Some n /\ is_end n = true)
           (bfs fuel q results limit).
Proof.
  induction fuel as [|fuel IH]; intros q results Hwf Hq Hres; simpl;
    [exact Hres|].
  destruct q as [|[node str] q']; [exact Hres|].
  destruct (Z.of_nat (length results) <? limit); [|exact Hres].
  inversion Hq as [|? ? Hnode Hq']; subst. simpl in Hnode.
  apply IH; [exact Hwf| |].
  - destruct (Z.of_nat (length _) <? limit); [|exact Hq'].
    pose proof (well_formed_walk _ _ _ Hwf Hnode) as Hwfn.
    destruct Hwfn as [b cs Hlen Hcs].
    apply (queue_ok_push_children root (mkNode b cs)); auto.
    simpl. lia.
  - destruct (is_end node) eqn:Hend; [|exact Hres].
    apply Forall_app. split; [exact Hres|]. constructor; eauto.
Qed.

Lemma bfs_keeps_results (limit : Z) (x : string) (fuel : nat) :
  forall q results, In x results -> In x (bfs fuel q results limit).
Proof.
  induction fuel as [|fuel IH]; intros q results Hin; simpl; [exact Hin|].
  destruct q as [|[node str] q']; [exact Hin|].
  destruct (Z.of_nat (length results) <? limit); [|exact Hin].
  apply IH. destruct (is_end node); [|exact Hin].
  apply in_or_app. now left.
Qed.

(** *** The fuel of the enumeration is enough *)

Lemma node_count_children (b : bool) (cs : list (option Node)) :
  node_count (mkNode b cs) = S (children_count cs).
Proof.
  simpl. f_equal.
Qed.

Lemma queue_count_push q (item : Node * string) :
  (queue_count (FixedQueue.push q item)
   <= queue_count q + node_count (fst item))%nat.
Proof.
  unfold FixedQueue.push, queue_count.
  destruct (FixedQueue.full q); [lia|].
  rewrite map_app, list_sum_app. simpl. lia.
Qed.

Lemma queue_count_push_children (cs : list (option Node)) str :
  forall q (i : nat),
    (queue_count (push_children q cs i str)
     <= queue_count q + children_count cs)%nat.
Proof.
  induction cs as [|[m|] cs IH]; intros q i; simpl; [lia| |apply IH].
  etransitivity; [apply IH|].
  pose proof (queue_count_push q
                (m, str +:+ String (ascii_of_nat (97 + i)) EmptyString)).
  simpl in *. lia.
Qed.

Lemma queue_count_cons (n : Node) (str : string) q :
  queue_count ((n, str) :: q) = (node_count n + queue_count q)%nat.
Proof. reflexivity. Qed.

Lemma bfs_fuel_enough (limit : Z) (fuel : nat) : forall q results extra,
  (queue_count q <= fuel)%nat ->
  bfs (fuel + extra) q results limit = bfs fuel q results limit.
Proof.
  induction fuel as [|fuel IH]; intros q results extra Hq.
  - destruct q as [|[[b cs] str] q'].
    + destruct extra; reflexivity.
    + rewrite queue_count_cons, node_count_children in Hq. lia.
  - cbn [Nat.add bfs].
    destruct q as [|[[b cs] str] q']; [reflexivity|].
    destruct (Z.of_nat (length results) <? limit); [|reflexivity].
    apply IH.
    rewrite queue_count_cons, node_count_children in Hq.
    destruct (Z.of_nat (length _) <? limit); [|lia].
    pose proof (queue_count_push_children cs str q' 0) as Hpush.
    cbn [children]. lia.
Qed.

(** *** [starts_with] on a trie whose cache is empty *)

Lemma starts_with_sound (tr : t) prefix (limit : Z) w :
  well_formed (root tr) -> prefix_cache_head tr = [] ->
  In w (fst (starts_with tr prefix limit)) -> contains tr w = true.
Proof.
  intros Hwf Hcache. unfold starts_with, find_in_cache.
  rewrite Hcache. simpl.
  destruct prefix as [|c rest]; [intros []|].
  destruct (walk (root tr) (String c rest)) as [cur|] eqn:Hwalk;
    [|intros []].
  intros Hin%list_elem_of_In.
  assert (Hq : queue_ok (root tr)
                 (FixedQueue.push FixedQueue.init (cur, String c rest)))
    by (repeat constructor; exact Hwalk).
  pose proof (bfs_sound (root tr) limit (node_count cur) _ [] Hwf Hq
                (Forall_nil_2 _)) as Hsound.
  rewrite Forall_forall in Hsound.
  destruct (Hsound w Hin) as (n & Hn & Hend).
  unfold contains. now rewrite Hn.
Qed.

Lemma starts_with_self (tr : t) w (limit : Z) :
  prefix_cache_head tr = [] -> contains tr w = true ->
  w <> EmptyString -> 1 <= limit ->
  In w (fst (starts_with tr w limit)).
Proof.
  intros Hcache Hcontains Hne Hlimit. unfold starts_with, find_in_cache.
  rewrite Hcache. simpl.
  destruct w as [|c rest]; [congruence|].
  unfold contains in Hcontains.
  destruct (walk (root tr) (String c rest)) as [cur|]; [|discriminate].
  destruct cur as [b cs]. simpl in Hcontains. subst b.
  rewrite node_count_children.
  change (FixedQueue.push FixedQueue.init (mkNode true cs, String c rest))
    with [(mkNode true cs, String c rest)].
  cbn [bfs length is_end].
  destruct (Z.ltb_spec (Z.of_nat 0) limit) as [_|Hno]; [|simpl in Hno; lia].
  apply bfs_keeps_results. now left.
Qed.

(** *** Building the trie *)

Lemma insert_keeps_shape (tr : t) w :
  well_formed (root tr) ->
  well_formed (root (insert tr w))
  /\ prefix_cache_head (insert tr w) = prefix_cache_head tr.
Proof.
  intros Hwf. unfold insert.
  destruct ((slen w =? 0) || (25 <? slen w)); [auto|]. simpl.
  split; [now apply well_formed_insert_from|reflexivity].
Qed.

Lemma insert_keeps_words (tr : t) w w' :
  well_formed (root tr) -> contains tr w' = true ->
  contains (insert tr w) w' = true.
Proof.
  intros Hwf. unfold insert.
  destruct ((slen w =? 0) || (25 <? slen w)); [auto|].
  unfold contains. simpl.
  destruct (walk (root tr) w') as [n|] eqn:Hwalk; [|discriminate].
  intros Hend.
  destruct (walk_insert_from_other w' w _ _ Hwf Hwalk) as (n' & -> & Hn').
  auto.
Qed.

Lemma insert_stores_word (tr : t) w :
  well_formed (root tr) -> letters_only w = true ->
  1 <= slen w <= 25 -> contains (insert tr w) w = true.
Proof.
  intros Hwf Hletters Hlen. unfold insert.
  destruct (Z.eqb_spec (slen w) 0); [lia|].
  destruct (Z.ltb_spec 25 (slen w)); [lia|]. simpl.
  unfold contains. simpl.
  now destruct (walk_insert_from_self w _ Hwf Hletters) as (m & -> & ->).
Qed.
End TrieFacts.

(** ** The vocabulary and the trie of a built index *)

Section VocabularyFacts.
Import HyperOptimizedIndex.

Lemma note_word_spec (v : Vocabulary) (t : string) :
  listed v ->
  listed (note_word v t)
  /\ In t (unique_words_vec (note_word v t))
  /\ forall w, In w (unique_words_vec v) ->
               In w (unique_words_vec (note_word v t)).
Proof.
  intros Hv. unfold note_word.
  destruct (decide (t ∈ unique_words_set v)) as [Hin|Hnotin].
  - auto.
  - split; [|split].
    + intros w. simpl. rewrite elem_of_union, elem_of_singleton.
      intros [->|Hw]; apply in_or_app; [right; now left|left; auto].
    + simpl. apply in_or_app. right. now left.
    + intros w Hw. simpl. apply in_or_app. now left.
Qed.

Lemma count_token_keys (docId i : Z) (local : gmap string Posting.t)
    (t t' : string) :
  is_Some (count_token docId local i t !! t') ->
  t' = t \/ is_Some (local !! t').
Proof.
  unfold count_token. destruct (decide (t = t')) as [<-|Hne]; [auto|].
  rewrite lookup_insert_ne by exact Hne. auto.
Qed.

Lemma index_tokens_vocabulary (docId : Z) (tokens : list string) :
  forall i local v,
    listed v ->
    let result := index_tokens docId tokens i local v in
    listed (snd result)
    /\ (forall w, In w (unique_words_vec v) ->
                  In w (unique_words_vec (snd result)))
    /\ (forall t, In t tokens -> In t (unique_words_vec (snd result)))
    /\ (forall t, is_Some (fst result !! t) ->
                  is_Some (local !! t) \/ In t tokens).
Proof.
  induction tokens as [|t rest IH]; intros i local v Hv; cbn [index_tokens].
  - simpl. repeat split; auto. intros t [].
  - destruct (note_word_spec v t Hv) as (Hv' & Ht & Hmono).
    destruct (IH (i + 1) (count_token docId local i t) (note_word v t) Hv')
      as (Hlisted & Hkeep & Htokens & Hkeys).
    split; [exact Hlisted|]. split; [auto|]. split.
    + intros w [<-|Hw]; auto.
    + intros w Hw. destruct (Hkeys w Hw) as [Hlocal|Hrest].
      * apply count_token_keys in Hlocal as [->|Hlocal]; [right; now left|auto].
      * right. now right.
Qed.

Lemma ingest_file_vocabulary (st : BuildState) (path content : string) :
  vocabulary_inv st -> vocabulary_inv (ingest_file st path content).
Proof.
  intros [Hlisted Hkeys]. unfold ingest_file.
  pose proof (index_tokens_vocabulary (b_docId st)
                (tokenize_ultrafast content) 0 ∅ (b_vocabulary st) Hlisted)
    as Htokens.
  destruct (index_tokens (b_docId st) (tokenize_ultrafast content) 0 ∅
              (b_vocabulary st)) as [local v].
  simpl in Htokens. destruct Htokens as (Hv & Hkeep & Hnew & Hlocal).
  split; simpl; [exact Hv|].
  intros t. rewrite lookup_add_postings.
  destruct (local !! t) as [p|] eqn:Hp.
  - intros _. destruct (Hlocal t) as [Hempty|Hin]; [now rewrite Hp| |auto].
    rewrite lookup_empty in Hempty. now destruct Hempty.
  - auto.
Qed.

Lemma ingest_vocabulary (files : list InputFile) : forall st,
  vocabulary_inv st -> vocabulary_inv (ingest files st).
Proof.
  induction files as [|f rest IH]; intros st Hinv; simpl; [exact Hinv|].
  destruct (contents f) as [content|]; [|now apply IH].
  destruct (100 * 1024 * 1024 <? slen content); [now apply IH|].
  pose proof (ingest_file_vocabulary st (path f) content Hinv) as Hinv'.
  destruct (200000 <? _); [exact Hinv'|now apply IH].
Qed.

(** *** The length sort *)

Lemma exchange_pass_spec (rest : list string) : forall x,
  Permutation (fst (exchange_pass x rest) :: snd (exchange_pass x rest))
              (x :: rest)
  /\ length (snd (exchange_pass x rest)) = length rest.
Proof.
  induction rest as [|y rest IH]; intros x; simpl; [auto|].
  destruct (slen y <? slen x).
  - destruct (IH y) as [Hperm Hlen].
    destruct (exchange_pass y rest) as [x' r]. simpl in *.
    split; [|now rewrite Hlen].
    now rewrite (perm_swap x x' r), Hperm.
  - destruct (IH x) as [Hperm Hlen].
    destruct (exchange_pass x rest) as [x' r]. simpl in *.
    split; [|now rewrite Hlen].
    rewrite (perm_swap y x' r), Hperm. apply perm_swap.
Qed.

Lemma exchange_sort_Permutation (fuel : nat) : forall l,
  Permutation (exchange_sort fuel l) l.
Proof.
  induction fuel as [|fuel IH]; intros [|x rest]; simpl; try reflexivity.
  destruct (exchange_pass_spec rest x) as [Hperm _].
  destruct (exchange_pass x rest) as [x' rest']. simpl in *.
  now rewrite IH.
Qed.

(** One unit of fuel per element is enough. *)
Lemma exchange_sort_fuel_enough (l : list string) : forall extra,
  exchange_sort (length l + extra) l = exchange_sort (length l) l.
Proof.
  remember (length l) as n eqn:Hn. revert l Hn.
  induction n as [|n IH]; intros [|x rest] Hn extra; simpl in *;
    try discriminate; try reflexivity.
  - destruct extra; reflexivity.
  - destruct (exchange_pass_spec rest x) as [_ Hlen].
    destruct (exchange_pass x rest) as [x' rest']. simpl in *.
    f_equal. apply IH. lia.
Qed.

Lemma sort_by_length_Permutation (words : list string) :
  Permutation (sort_by_length words) words.
Proof.
  unfold sort_by_length. rewrite exchange_sort_Permutation.
  symmetry. apply Permutation_rev.
Qed.

(** *** The trie of the vocabulary *)

Lemma trie_step_shape (tr : UltraFastTrie.t) (w : string) :
  well_formed (UltraFastTrie.root tr) ->
  well_formed (UltraFastTrie.root (trie_step tr w))
  /\ UltraFastTrie.prefix_cache_head (trie_step tr w)
     = UltraFastTrie.prefix_cache_head tr.
Proof.
  intros Hwf. unfold trie_step.
  destruct ((2 <=? slen w) && (slen w <=? 20)); [|auto].
  now apply insert_keeps_shape.
Qed.

Lemma foldl_trie_step_shape (words : list string) : forall tr,
  well_formed (UltraFastTrie.root tr) ->
  well_formed (UltraFastTrie.root (foldl trie_step tr words))
  /\ UltraFastTrie.prefix_cache_head (foldl trie_step tr words)
     = UltraFastTrie.prefix_cache_head tr.
Proof.
  induction words as [|w rest IH]; intros tr Hwf; simpl; [auto|].
  destruct (trie_step_shape tr w Hwf) as [Hwf' Hcache].
  destruct (IH _ Hwf') as [Hwf'' Hcache'].
  split; [exact Hwf''|congruence].
Qed.

Lemma foldl_trie_step_keeps (words : list string) (w : string) :
  forall tr,
    well_formed (UltraFastTrie.root tr) ->
    UltraFastTrie.contains tr w = true ->
    UltraFastTrie.contains (foldl trie_step tr words) w = true.
Proof.
  induction words as [|w' rest IH]; intros tr Hwf Hw; simpl; [exact Hw|].
  apply IH; [now apply trie_step_shape|].
  unfold trie_step.
  destruct ((2 <=? slen w') && (slen w' <=? 20)); [|exact Hw].
  now apply insert_keeps_words.
Qed.

Lemma foldl_trie_step_stores (words : list string) (w : string) :
  forall tr,
    well_formed (UltraFastTrie.root tr) ->
    In w words -> 2 <= slen w <= 20 -> letters_only w = true ->
    UltraFastTrie.contains (foldl trie_step tr words) w = true.
Proof.
  induction words as [|w' rest IH]; intros tr Hwf Hin Hlen Hletters;
    simpl; [destruct Hin|].
  destruct Hin as [->|Hin].
  - apply foldl_trie_step_keeps; [now apply trie_step_shape|].
    unfold trie_step.
    destruct (Z.leb_spec 2 (slen w)); [|lia].
    destruct (Z.leb_spec (slen w) 20); [|lia]. simpl.
    apply insert_stores_word; auto. lia.
  - apply IH; auto. now apply trie_step_shape.
Qed.

Lemma build_trie_shape (words : list string) :
  well_formed (UltraFastTrie.root (build_trie words))
  /\ UltraFastTrie.prefix_cache_head (build_trie words) = [].
Proof.
  apply (foldl_trie_step_shape words UltraFastTrie.empty).
  apply well_formed_new_node.
Qed.

Lemma trie_shape (files : list InputFile) :
  well_formed (UltraFastTrie.root (trie (build_from_files files)))
  /\ UltraFastTrie.prefix_cache_head (trie (build_from_files files)) = [].
Proof.
  destruct files as [|f rest]; simpl.
  - split; [apply well_formed_new_node|reflexivity].
  - apply build_trie_shape.
Qed.

Lemma vocabulary_inv_initial :
  vocabulary_inv (mkBuildState ∅ [] (mkVocabulary ∅ []) 0 0).
Proof.
  split; simpl.
  - intros t Ht. now apply not_elem_of_empty in Ht.
  - intros t Ht. rewrite lookup_empty in Ht. now destruct Ht.
Qed.

(** C6, as the code has it: after [build_from_files], every term of the
    index that is 2 to 20 bytes long and made of the letters a to z only
    is stored in the trie, and [starts_with] returns it for the term
    itself as prefix and any limit of at least 1. *)
Theorem indexed_letter_terms_are_in_trie (files : list InputFile)
    (t : string) (limit : Z) :
  is_Some (idx (build_from_files files) !! t) ->
  2 <= slen t <= 20 -> letters_only t = true -> 1 <= limit ->
  UltraFastTrie.contains (trie (build_from_files files)) t = true
  /\ In t (fst (UltraFastTrie.starts_with (trie (build_from_files files))
                                          t limit)).
Proof.
  intros Hkey Hlen Hletters Hlimit.
  assert (Hstored : UltraFastTrie.contains (trie (build_from_files files)) t
                    = true).
  { destruct files as [|f rest]; simpl in *.
    - rewrite lookup_empty in Hkey. now destruct Hkey.
    - pose proof (ingest_vocabulary (f :: rest) _ vocabulary_inv_initial)
        as [_ Hkeys].
      apply Hkeys in Hkey.
      apply (foldl_trie_step_stores _ t UltraFastTrie.empty);
        [apply well_formed_new_node| |exact Hlen|exact Hletters].
      apply (Permutation_in _
               (Permutation_sym (sort_by_length_Permutation _))).
      exact Hkey. }
  split; [exact Hstored|].
  apply starts_with_self; [apply trie_shape|exact Hstored| |exact Hlimit].
  intros ->. simpl in Hlen. unfold slen in Hlen. simpl in Hlen. lia.
Qed.
End VocabularyFacts.

Lemma build_from_files_invariants_witness :
  HyperOptimizedIndex.idx (HyperOptimizedIndex.build_from_files sample_files)
    !! "hello"
  = Some [Posting.mk 0 1 [0]; Posting.mk 1 2 [2; 7]]
  /\ (HyperOptimizedIndex.docFreq
        (HyperOptimizedIndex.build_from_files sample_files) !! "hello"
      = Some (Z.min (Z.of_nat (length [Posting.mk 0 1 [0];
                                       Posting.mk 1 2 [2; 7]])) 32767)
      /\ NoDup (map Posting.docID
                    [Posting.mk 0 1 [0]; Posting.mk 1 2 [2; 7]])
      /\ forall p, In p [Posting.mk 0 1 [0]; Posting.mk 1 2 [2; 7]] ->
           0 <= Posting.freq p <= 1000
           /\ 0 <= Posting.pos_size p <= Z.min (Posting.freq p) 50
           /\ 0 <= Posting.docID p
           /\ exists d,
                HyperOptimizedIndex.docs
                  (HyperOptimizedIndex.build_from_files sample_files)
                  !! Z.to_nat (Posting.docID p) = Some d
                /\ (totalTokens d <= 32768 ->
                    StronglySorted Z.lt (Posting.positions p)
                    /\ Forall (fun x => 0 <= x < totalTokens d)
                              (Posting.positions p))).
Proof.
  assert (Hlook : HyperOptimizedIndex.idx
                    (HyperOptimizedIndex.build_from_files sample_files)
                    !! "hello"
                  = Some [Posting.mk 0 1 [0]; Posting.mk 1 2 [2; 7]])
    by (vm_compute; reflexivity).
  split; [exact Hlook|].
  exact (build_from_files_invariants sample_files "hello" _ Hlook).
Defined.

Lemma indexed_letter_terms_are_in_trie_witness :
  (is_Some (HyperOptimizedIndex.idx
              (HyperOptimizedIndex.build_from_files sample_files) !! "hello")
   /\ 2 <= slen "hello" <= 20 /\ letters_only "hello" = true /\ 1 <= 10)
  /\ UltraFastTrie.contains
       (HyperOptimizedIndex.trie
          (HyperOptimizedIndex.build_from_files sample_files)) "hello" = true
  /\ In "hello"
        (fst (UltraFastTrie.starts_with
                (HyperOptimizedIndex.trie
                   (HyperOptimizedIndex.build_from_files sample_files))
                "hello" 10)).
Proof.
  assert (Hkey : is_Some (HyperOptimizedIndex.idx
                            (HyperOptimizedIndex.build_from_files sample_files)
                            !! "hello"))
    by (eexists; vm_compute; reflexivity).
  assert (Hlen : 2 <= slen "hello" <= 20) by (vm_compute; split; discriminate).
  assert (Hletters : letters_only "hello" = true) by reflexivity.
  assert (Hlimit : 1 <= 10) by lia.
  split; [repeat split; assumption|].
  exact (indexed_letter_terms_are_in_trie sample_files "hello" 10
           Hkey Hlen Hletters Hlimit).
Defined.

(** C6, as stated, fails for a term with a digit: "x86" is a key of the
    index and 3 bytes long, but the trie stops at the digit, and no prefix
    and no limit make [starts_with] return it. *)
Lemma term_with_digit_is_not_completed :
  is_Some (HyperOptimizedIndex.idx
             (HyperOptimizedIndex.build_from_files x86_corpus) !! "x86")
  /\ slen "x86" = 3
  /\ forall (prefix : string) (limit : Z),
       ~ In "x86"
            (fst (UltraFastTrie.starts_with
                    (HyperOptimizedIndex.trie
                       (HyperOptimizedIndex.build_from_files x86_corpus))
                    prefix limit)).
Proof.
  split; [eexists; vm_compute; reflexivity|]. split; [reflexivity|].
  intros prefix limit Hin.
  destruct (trie_shape x86_corpus) as [Hwf Hcache].
  apply (starts_with_sound _ _ _ _ Hwf Hcache) in Hin.
  vm_compute in Hin. discriminate.
Qed.

(** ** Saturation of the document frequency *)

Section Saturation.
Import HyperOptimizedIndex.

Lemma ingest_file_copies (st : BuildState) (k : nat) (path : string) :
  copies_state st k -> copies_state (ingest_file st path "ab") (S k).
Proof.
  intros [Hlen Hv]. unfold ingest_file.
  change (tokenize_ultrafast "ab") with ["ab"].
  cbn [index_tokens]. split.
  - cbn [b_idx]. rewrite lookup_add_postings.
    assert (Hp : exists p, count_token (b_docId st) ∅ 0 "ab" !! "ab" = Some p)
      by (unfold count_token; rewrite lookup_insert_eq; eauto).
    destruct Hp as [p ->].
    change (length (default [] (b_idx st !! "ab") ++ [p]) = S k).
    rewrite length_app, Hlen. cbn [length]. lia.
  - right. cbn [b_vocabulary]. destruct Hv as [-> | ->]; reflexivity.
Qed.

Lemma copies_state_vocabulary (st : BuildState) (k : nat) :
  copies_state st k ->
  (200000 <? Z.of_nat (length (unique_words_vec (b_vocabulary st)))) = false.
Proof. intros [_ [-> | ->]]; reflexivity. Qed.

Lemma ingest_copies (n : nat) : forall first st k,
  copies_state st k -> copies_state (ingest (copies_from first n) st) (k + n).
Proof.
  induction n as [|n IH]; intros first st k Hst.
  - simpl. now rewrite Nat.add_0_r.
  - cbn [copies_from ingest contents path].
    change (100 * 1024 * 1024 <? slen "ab") with false. cbv iota.
    pose proof (ingest_file_copies st k
                  ("data/" +:+ pretty first +:+ ".txt") Hst) as Hst'.
    rewrite (copies_state_vocabulary _ _ Hst').
    replace (k + S n)%nat with (S k + n)%nat by lia.
    now apply IH.
Qed.

Lemma build_copies (n : nat) :
  exists postings,
    idx (build_from_files (copies (S n))) !! "ab" = Some postings
    /\ length postings = S n
    /\ docFreq (build_from_files (copies (S n))) !! "ab"
       = Some (Z.min (Z.of_nat (S n)) 32767).
Proof.
  pose proof (ingest_copies (S n) 0
                (mkBuildState ∅ [] (mkVocabulary ∅ []) 0 0) 0) as Hrun.
  destruct Hrun as [Hlen _]; [split; [reflexivity|now left]|].
  fold (copies (S n)) in Hlen.
  change (build_from_files (copies (S n)))
    with (let st := ingest (copies (S n))
                      (mkBuildState ∅ [] (mkVocabulary ∅ []) 0 0) in
          mkIndex (b_idx st) (count_docFreq (b_idx st)) (b_docs st)
            (build_trie (sort_by_length (unique_words_vec (b_vocabulary st))))
            (b_total_words_processed st) (Z.of_nat (length (b_docs st)))).
  cbv zeta. cbn [idx docFreq].
  destruct (b_idx _ !! "ab") as [postings|] eqn:Hlook;
    [|simpl in Hlen; discriminate].
  simpl in Hlen. exists postings. split; [reflexivity|].
  split; [exact Hlen|].
  rewrite (lookup_count_docFreq _ _ _ Hlook). now rewrite Hlen.
Qed.
End Saturation.

(** C5, as stated, fails on a corpus of 32768 documents that all contain
    the same term: the term has 32768 postings and a [docFreq] of 32767. *)
Lemma docFreq_saturates_at_32767 :
  exists postings,
    HyperOptimizedIndex.idx
      (HyperOptimizedIndex.build_from_files (copies (Z.to_nat 32768)))
      !! "ab" = Some postings
    /\ Z.of_nat (length postings) = 32768
    /\ HyperOptimizedIndex.docFreq
         (HyperOptimizedIndex.build_from_files (copies (Z.to_nat 32768)))
         !! "ab" = Some 32767.
Proof.
  replace (Z.to_nat 32768) with (S (Z.to_nat 32767)) by lia.
  destruct (build_copies (Z.to_nat 32767)) as (postings & Hlook & Hlen & Hdf).
  exists postings. split; [exact Hlook|]. split; [lia|].
  rewrite Hdf. f_equal; lia.
Qed.

(* ================================================================== *)
(** * Further properties *)

(** ** The tokenizer *)

Ltac ascii_cases c :=
  destruct c as [[|] [|] [|] [|] [|] [|] [|] [|]]; vm_compute; try reflexivity.

Lemma tolower_idem (c : ascii) : tolower (tolower c) = tolower c.
Proof. ascii_cases c. Qed.

Lemma isupper_tolower (c : ascii) : isupper (tolower c) = false.
Proof. ascii_cases c. Qed.

Lemma isalnum_tolower (c : ascii) : isalnum (tolower c) = isalnum c.
Proof. ascii_cases c. Qed.

Lemma is_nul_tolower (c : ascii) : is_nul (tolower c) = is_nul c.
Proof. ascii_cases c. Qed.

Lemma lower_alnum_tolower (c : ascii) :
  isalnum c = true -> lower_alnum (tolower c) = true.
Proof. ascii_cases c; discriminate. Qed.

Lemma tolower_lower_alnum (c : ascii) :
  lower_alnum c = true -> tolower c = c.
Proof. ascii_cases c; discriminate. Qed.

Lemma lower_alnum_isalnum (c : ascii) :
  lower_alnum c = true -> isalnum c = true /\ is_nul c = false.
Proof. ascii_cases c; (discriminate || auto). Qed.

Lemma tolower_not_upper (c : ascii) : isupper c = false -> tolower c = c.
Proof. unfold tolower. now intros ->. Qed.

Lemma all_of_app (f : ascii -> bool) (s1 s2 : string) :
  all_of f (s1 +:+ s2) = all_of f s1 && all_of f s2.
Proof.
  induction s1 as [|c s1 IH]; [reflexivity|].
  rewrite app_cons_string. simpl. rewrite IH. now rewrite andb_assoc.
Qed.

Lemma slen_app (s1 s2 : string) : slen (s1 +:+ s2) = slen s1 + slen s2.
Proof.
  unfold slen. induction s1 as [|c s1 IH]; [reflexivity|].
  rewrite app_cons_string. cbn [String.length]. lia.
Qed.

(** ** toLowerFast *)

Lemma length_toLowerFast (s : string) :
  String.length (toLowerFast s) = String.length s.
Proof. induction s as [|c s IH]; simpl; congruence. Qed.

Lemma toLowerFast_idem (s : string) :
  toLowerFast (toLowerFast s) = toLowerFast s.
Proof.
  induction s as [|c s IH]; simpl; [reflexivity|].
  now rewrite tolower_idem, IH.
Qed.

Lemma toLowerFast_app (s1 s2 : string) :
  toLowerFast (s1 +:+ s2) = toLowerFast s1 +:+ toLowerFast s2.
Proof.
  induction s1 as [|c s1 IH]; [reflexivity|].
  rewrite app_cons_string. simpl. now rewrite IH.
Qed.

Lemma toLowerFast_fixed (s : string) :
  all_of (fun c => negb (isupper c)) s = true -> toLowerFast s = s.
Proof.
  induction s as [|c s IH]; simpl; [reflexivity|].
  intros [Hc Hs]%andb_true_iff. apply negb_true_iff in Hc.
  now rewrite (tolower_not_upper c Hc), IH.
Qed.

(** X6: lower-casing keeps the length, leaves no upper-case letter,
    changes nothing in a string without upper-case letters and, applied
    twice, gives what it gives applied once. *)
Theorem toLowerFast_lowers_once (s : string) :
  String.length (toLowerFast s) = String.length s
  /\ all_of (fun c => negb (isupper c)) (toLowerFast s) = true
  /\ (all_of (fun c => negb (isupper c)) s = true -> toLowerFast s = s)
  /\ toLowerFast (toLowerFast s) = toLowerFast s.
Proof.
  split; [apply length_toLowerFast|]. split; [|split].
  - induction s as [|c s IH]; simpl; [reflexivity|].
    now rewrite isupper_tolower, IH.
  - apply toLowerFast_fixed.
  - apply toLowerFast_idem.
Qed.

(** ** Tokens *)

Lemma buffer_put_lower_alnum (buffer : string) (c : ascii) :
  isalnum c = true -> all_of lower_alnum buffer = true ->
  all_of lower_alnum (buffer_put buffer c) = true.
Proof.
  intros Hc Hbuf. unfold buffer_put.
  destruct (slen buffer <? 31); [|exact Hbuf].
  rewrite all_of_app, Hbuf. simpl.
  now rewrite (lower_alnum_tolower c Hc).
Qed.

Lemma tokenize_scan_words (text : string) : forall buffer n_added,
  all_of lower_alnum buffer = true ->
  Forall word_ok (tokenize_scan text buffer n_added).
Proof.
  assert (Hflush : forall buffer, all_of lower_alnum buffer = true ->
            Forall word_ok (if keep_word buffer then [buffer] else [])).
  { intros buffer Hbuf. destruct (keep_word buffer) eqn:Hkeep;
      repeat constructor; assumption. }
  induction text as [|c rest IH]; intros buffer n Hbuf; simpl;
    [now apply Hflush|].
  destruct (is_nul c || negb (n <? 100000)); [now apply Hflush|].
  destruct (isalnum c) eqn:Hc.
  { apply IH. now apply buffer_put_lower_alnum. }
  destruct (0 <? slen buffer); [|now apply IH].
  destruct (keep_word buffer) eqn:Hkeep; [|now apply IH].
  constructor; [split; assumption|now apply IH].
Qed.

(** X8: every term the tokenizer emits is 2 to 15 bytes long, made of
    lower-case letters and digits only, not a stop word and not a number. *)
Theorem tokenize_ultrafast_emits_words (text w : string) :
  In w (tokenize_ultrafast text) ->
  2 <= slen w <= 15
  /\ all_of lower_alnum w = true
  /\ is_stop_word w = false
  /\ all_of isdigit w = false.
Proof.
  intros Hin.
  assert (Hall : Forall word_ok (tokenize_ultrafast text)).
  { destruct text as [|c rest]; [constructor|].
    now apply tokenize_scan_words. }
  rewrite Forall_forall in Hall. apply list_elem_of_In in Hin.
  destruct (Hall w Hin) as [Hkeep Hchars].
  unfold keep_word in Hkeep.
  apply andb_true_iff in Hkeep as [Hkeep Hdigits].
  apply andb_true_iff in Hkeep as [Hkeep Hstop].
  apply andb_true_iff in Hkeep as [Hlo Hhi].
  apply Z.leb_le in Hlo, Hhi.
  apply negb_true_iff in Hstop, Hdigits. auto.
Qed.

Lemma tokenize_ultrafast_emits_words_witness :
  In "x86" (tokenize_ultrafast "An x86 CPU")
  /\ (2 <= slen "x86" <= 15
      /\ all_of lower_alnum "x86" = true
      /\ is_stop_word "x86" = false
      /\ all_of isdigit "x86" = false).
Proof.
  assert (Hin : In "x86" (tokenize_ultrafast "An x86 CPU"))
    by (vm_compute; auto).
  split; [exact Hin|].
  exact (tokenize_ultrafast_emits_words "An x86 CPU" "x86" Hin).
Defined.

(** ** Case *)

Lemma buffer_put_tolower (buffer : string) (c : ascii) :
  buffer_put buffer (tolower c) = buffer_put buffer c.
Proof. unfold buffer_put. now rewrite tolower_idem. Qed.

Lemma tokenize_scan_toLowerFast (text : string) : forall buffer n_added,
  tokenize_scan (toLowerFast text) buffer n_added
  = tokenize_scan text buffer n_added.
Proof.
  induction text as [|c rest IH]; intros buffer n; simpl; [reflexivity|].
  rewrite is_nul_tolower, isalnum_tolower, buffer_put_tolower, !IH.
  reflexivity.
Qed.

(** X9: the tokenizer does not see the case of its input: a text and its
    lower-cased form give the same terms. *)
Theorem tokenize_ultrafast_ignores_case (text : string) :
  tokenize_ultrafast (toLowerFast text) = tokenize_ultrafast text.
Proof.
  destruct text as [|c rest]; [reflexivity|].
  apply (tokenize_scan_toLowerFast (String c rest)).
Qed.

(** ** NUL bytes *)

Lemma tokenize_scan_stops_at_nul (text rest : string) :
  forall buffer n_added,
    tokenize_scan (text +:+ String Ascii.zero rest) buffer n_added
    = tokenize_scan text buffer n_added.
Proof.
  induction text as [|c text IH]; intros buffer n.
  - reflexivity.
  - rewrite app_cons_string. simpl. now rewrite !IH.
Qed.

(** X10: the tokenizer reads its input as a C string: whatever follows the
    first NUL byte yields no term. *)
Theorem tokenize_ultrafast_stops_at_nul (text rest : string) :
  tokenize_ultrafast (text +:+ String Ascii.zero rest)
  = tokenize_ultrafast text.
Proof.
  destruct text as [|c text]; [reflexivity|].
  apply (tokenize_scan_stops_at_nul (String c text)).
Qed.

(** ** Joining and splitting *)

Lemma tokenize_scan_word (w : string) : forall rest buffer n_added,
  all_of lower_alnum w = true ->
  slen buffer + slen w <= 31 -> n_added < 100000 ->
  tokenize_scan (w +:+ rest) buffer n_added
  = tokenize_scan rest (buffer +:+ w) n_added.
Proof.
  induction w as [|c w IH]; intros rest buffer n Hw Hlen Hn.
  - now rewrite app_nil_r_string.
  - rewrite app_cons_string. simpl in Hw.
    apply andb_true_iff in Hw as [Hc Hw].
    destruct (lower_alnum_isalnum c Hc) as [Halnum Hnul].
    cbn [tokenize_scan]. rewrite Hnul, Halnum.
    destruct (Z.ltb_spec n 100000) as [_|]; [|lia]. cbn [negb orb].
    assert (Hlen' : slen (String c w) = 1 + slen w)
      by (unfold slen; cbn [String.length]; lia).
    unfold buffer_put.
    destruct (Z.ltb_spec (slen buffer) 31) as [_|Hfull];
      [|unfold slen in *; lia].
    rewrite (tolower_lower_alnum c Hc).
    rewrite IH; [|exact Hw| |exact Hn].
    + now rewrite app_assoc_string.
    + rewrite slen_app. unfold slen in *. cbn [String.length] in *. lia.
Qed.

Lemma word_ok_slen (w : string) : word_ok w -> 2 <= slen w <= 15.
Proof.
  intros [Hkeep _]. unfold keep_word in Hkeep.
  apply andb_true_iff in Hkeep as [Hkeep _].
  apply andb_true_iff in Hkeep as [Hkeep _].
  apply andb_true_iff in Hkeep as [Hlo Hhi].
  apply Z.leb_le in Hlo, Hhi. lia.
Qed.

Lemma tokenize_scan_blanks (ws : list string) : forall w0 n_added,
  word_ok w0 -> Forall word_ok ws ->
  n_added + Z.of_nat (length ws) < 100000 ->
  tokenize_scan (blanks ws) w0 n_added = w0 :: ws.
Proof.
  induction ws as [|w ws IH]; intros w0 n Hw0 Hws Hn.
  - simpl. now rewrite (proj1 Hw0).
  - inversion Hws as [|? ? Hw Hws']; subst.
    pose proof (word_ok_slen _ Hw0) as Hlen0.
    pose proof (word_ok_slen _ Hw) as Hlen.
    cbn [blanks foldr]. fold (blanks ws).
    change (" " +:+ w +:+ blanks ws) with (String " " (w +:+ blanks ws)).
    cbn [tokenize_scan].
    change (is_nul " ") with false. change (isalnum " ") with false.
    destruct (Z.ltb_spec n 100000) as [_|]; [|lia]. cbn [negb orb].
    destruct (Z.ltb_spec 0 (slen w0)) as [_|]; [|lia].
    rewrite (proj1 Hw0). f_equal.
    cbn [length] in Hn.
    rewrite tokenize_scan_word;
      [|exact (proj2 Hw)|change (slen EmptyString) with 0; lia|lia].
    rewrite app_nil_l_string. apply IH; [exact Hw|exact Hws'|lia].
Qed.

Lemma tokenize_ultrafast_blanks (w : string) (ws : list string) :
  word_ok w -> Forall word_ok ws ->
  Z.of_nat (length ws) < 100000 ->
  tokenize_ultrafast (w +:+ blanks ws) = w :: ws.
Proof.
  intros Hw Hws Hn.
  pose proof (word_ok_slen _ Hw) as Hlen.
  assert (Hscan : tokenize_ultrafast (w +:+ blanks ws)
                  = tokenize_scan (w +:+ blanks ws) EmptyString 0).
  { destruct w as [|c w]; [unfold slen in Hlen; simpl in Hlen; lia|].
    reflexivity. }
  rewrite Hscan.
  rewrite tokenize_scan_word;
    [|exact (proj2 Hw)|change (slen EmptyString) with 0; lia|lia].
  rewrite app_nil_l_string. apply tokenize_scan_blanks; auto.
Qed.

Lemma join_suggestions_blanks (sug : list string) : forall i query,
  0 < i ->
  join_suggestions sug i query
  = query +:+ blanks (take (Z.to_nat (5 - i)) sug).
Proof.
  induction sug as [|val next IH]; intros i query Hi.
  - simpl. rewrite take_nil. simpl. now rewrite app_nil_r_string.
  - cbn [join_suggestions].
    destruct (Z.ltb_spec i 5) as [Hlt|Hge].
    + destruct (Z.ltb_spec 0 i) as [_|]; [|lia].
      rewrite IH by lia.
      replace (Z.to_nat (5 - i)) with (S (Z.to_nat (5 - (i + 1)))) by lia.
      cbn [take blanks foldr]. fold (blanks (take (Z.to_nat (5 - (i + 1))) next)).
      now rewrite !app_assoc_string.
    + replace (Z.to_nat (5 - i)) with O by lia.
      simpl. now rewrite app_nil_r_string.
Qed.

Lemma join_suggestions_first (val : string) (next : list string) :
  join_suggestions (val :: next) 0 EmptyString
  = val +:+ blanks (take 4 next).
Proof.
  cbn [join_suggestions]. change (0 <? 5) with true.
  change (0 <? 0) with false. cbv iota.
  rewrite join_suggestions_blanks by lia. reflexivity.
Qed.

Lemma join_suggestions_tokens (sug : list string) :
  Forall word_ok sug ->
  tokenize_ultrafast (toLowerFast (join_suggestions sug 0 EmptyString))
  = take 5 sug.
Proof.
  intros Hsug.
  destruct sug as [|val next]; [reflexivity|].
  rewrite join_suggestions_first.
  assert (Hcase : tokenize_ultrafast (toLowerFast (val +:+ blanks (take 4 next)))
                  = tokenize_ultrafast (val +:+ blanks (take 4 next))).
  { destruct (val +:+ blanks (take 4 next)) as [|c rest]; [reflexivity|].
    apply (tokenize_scan_toLowerFast (String c rest)). }
  rewrite Hcase.
  inversion Hsug as [|? ? Hval Hnext]; subst.
  change (take 5 (val :: next)) with (val :: take 4 next).
  apply tokenize_ultrafast_blanks; [exact Hval| |].
  - now apply Forall_take.
  - rewrite length_take. lia.
Qed.

(** X11: words that the tokenizer would emit, joined with blanks, are split
    by the tokenizer into the same words again; the query that the prefix
    search builds from its suggestions gives back the first five of
    them. *)
Theorem tokenizer_splits_joined_words (w : string) (ws : list string) :
  word_ok w -> Forall word_ok ws -> Z.of_nat (length ws) < 100000 ->
  tokenize_ultrafast (w +:+ blanks ws) = w :: ws
  /\ tokenize_ultrafast
       (toLowerFast (join_suggestions (w :: ws) 0 EmptyString))
     = take 5 (w :: ws).
Proof.
  intros Hw Hws Hlen. split.
  - now apply tokenize_ultrafast_blanks.
  - apply join_suggestions_tokens. now constructor.
Qed.

(** ** The tokenizer as a pipeline *)

Lemma slen_toLowerFast (s : string) : slen (toLowerFast s) = slen s.
Proof. unfold slen. now rewrite length_toLowerFast. Qed.

Lemma slen_nonneg (s : string) : 0 <= slen s.
Proof. unfold slen. lia. Qed.

Lemma keep_word_long (w : string) : 15 < slen w -> keep_word w = false.
Proof.
  intros Hlong. unfold keep_word.
  destruct (Z.leb_spec (slen w) 15); [lia|].
  now rewrite andb_false_r.
Qed.

Lemma buffers_keep (buffer run : string) :
  buffers buffer run ->
  (if keep_word buffer then [buffer] else [])
  = filter (fun w => keep_word w = true) [toLowerFast run].
Proof.
  intros [Hshort Hlong].
  destruct (Z.le_gt_cases (slen run) 31) as [Hle|Hgt].
  - rewrite (Hshort Hle). cbn [filter list_filter].
    destruct (decide (keep_word (toLowerFast run) = true)) as [->|Hno];
      [reflexivity|].
    now destruct (keep_word (toLowerFast run)).
  - rewrite keep_word_long by (rewrite (Hlong ltac:(lia)); lia).
    cbn [filter list_filter].
    destruct (decide (keep_word (toLowerFast run) = true)) as [Hyes|Hno];
      [|reflexivity].
    rewrite keep_word_long in Hyes; [discriminate|].
    rewrite slen_toLowerFast. lia.
Qed.

Lemma buffers_put (buffer run : string) (c : ascii) :
  buffers buffer run ->
  buffers (buffer_put buffer c) (run +:+ String c EmptyString).
Proof.
  intros [Hshort Hlong]. unfold buffers, buffer_put.
  rewrite slen_app. change (slen (String c EmptyString)) with 1.
  pose proof (slen_nonneg run) as Hrun.
  destruct (Z.le_gt_cases (slen run) 31) as [Hle|Hgt].
  - rewrite (Hshort Hle), slen_toLowerFast.
    destruct (Z.ltb_spec (slen run) 31) as [Hroom|Hfull].
    + split; [|lia]. intros _. now rewrite toLowerFast_app.
    + split; [lia|]. intros _. rewrite slen_toLowerFast. lia.
  - rewrite (Hlong ltac:(lia)). change (31 <? 31) with false.
    split; [lia|]. intros _. apply Hlong. lia.
Qed.

Lemma buffers_empty (buffer run : string) :
  buffers buffer run -> (0 <? slen buffer) = false -> run = EmptyString.
Proof.
  intros [Hshort Hlong] Hzero. apply Z.ltb_ge in Hzero.
  pose proof (slen_nonneg buffer) as Hbuf.
  destruct (Z.le_gt_cases (slen run) 31) as [Hle|Hgt].
  - rewrite (Hshort Hle), slen_toLowerFast in Hzero.
    destruct run; [reflexivity|]. unfold slen in Hzero. simpl in Hzero. lia.
  - rewrite (Hlong ltac:(lia)) in Hzero. lia.
Qed.

Lemma filter_keep_cons (w : string) (l : list string) :
  filter (fun w => keep_word w = true) (w :: l)
  = (if keep_word w then [w] else [])
    ++ filter (fun w => keep_word w = true) l.
Proof.
  cbn [filter list_filter].
  destruct (decide (keep_word w = true)) as [->|Hno]; [reflexivity|].
  now destruct (keep_word w).
Qed.

Lemma tokenize_scan_pipeline (text : string) : forall buffer run n_added,
  buffers buffer run -> 0 <= n_added < 100000 ->
  tokenize_scan text buffer n_added
  = take (Z.to_nat (100000 - n_added))
         (filter (fun w => keep_word w = true)
                 (map toLowerFast (alnum_runs text run))).
Proof.
  assert (Hflush : forall buffer run n,
            buffers buffer run -> 0 <= n < 100000 ->
            (if keep_word buffer then [buffer] else [])
            = take (Z.to_nat (100000 - n))
                   (filter (fun w => keep_word w = true) [toLowerFast run])).
  { intros buffer run n Hbuf Hn. rewrite <- (buffers_keep buffer run Hbuf).
    replace (Z.to_nat (100000 - n)) with (S (Z.to_nat (100000 - n - 1)))
      by lia.
    destruct (keep_word buffer); [|reflexivity].
    cbn [take]. now rewrite take_nil. }
  induction text as [|c rest IH]; intros buffer run n Hbuf Hn;
    cbn [tokenize_scan alnum_runs map].
  - now apply Hflush.
  - destruct (Z.ltb_spec n 100000) as [_|]; [|lia].
    cbn [negb]. rewrite orb_false_r.
    destruct (is_nul c); [now apply Hflush|].
    destruct (isalnum c).
    { apply IH; [now apply buffers_put|exact Hn]. }
    assert (Hnil : buffers EmptyString EmptyString)
      by (split; [auto|change (slen EmptyString) with 0; lia]).
    cbn [map]. rewrite filter_keep_cons.
    destruct (0 <? slen buffer) eqn:Hsome.
    + destruct (Z.le_gt_cases (slen run) 31) as [Hle|Hgt].
      * rewrite <- (proj1 Hbuf Hle).
        destruct (keep_word buffer) eqn:Hkeep.
        -- replace (Z.to_nat (100000 - n))
             with (S (Z.to_nat (100000 - (n + 1)))) by lia.
           cbn [app take]. f_equal.
           destruct (Z.eq_dec (n + 1) 100000) as [Hend|Hmore].
           ++ rewrite Hend. cbn [Z.sub Z.to_nat]. rewrite Z.sub_diag.
              cbn [Z.to_nat]. rewrite take_0.
              destruct rest as [|c' rest']; cbn [tokenize_scan].
              ** reflexivity.
              ** change (100000 <? 100000) with false. cbn [negb].
                 now rewrite orb_true_r.
           ++ apply IH; [exact Hnil|lia].
        -- cbn [app]. apply IH; [exact Hnil|exact Hn].
      * rewrite (keep_word_long buffer)
          by (rewrite (proj2 Hbuf ltac:(lia)); lia).
        rewrite (keep_word_long (toLowerFast run))
          by (rewrite slen_toLowerFast; lia).
        cbn [app]. apply IH; [exact Hnil|exact Hn].
    + rewrite (buffers_empty buffer run Hbuf Hsome).
      cbn [toLowerFast]. rewrite keep_word_empty. cbn [app].
      assert (Hbuffer : buffer = EmptyString).
      { apply Z.ltb_ge in Hsome. pose proof (slen_nonneg buffer).
        destruct buffer; [reflexivity|].
        unfold slen in Hsome. simpl in Hsome. lia. }
      rewrite Hbuffer. apply IH; [exact Hnil|exact Hn].
Qed.

(** X7: the tokenizer is a pipeline: the text up to its first NUL byte is
    cut at every byte that is neither a letter nor a digit, the pieces are
    lower-cased, those of 2 to 15 bytes that are neither stop words nor
    numbers are kept, and the first 100000 of them are the terms. *)
Theorem tokenize_ultrafast_is_split_and_filter (text : string) :
  tokenize_ultrafast text
  = take (Z.to_nat 100000)
         (filter (fun w => keep_word w = true)
                 (map toLowerFast (alnum_runs text EmptyString))).
Proof.
  destruct text as [|c rest].
  - cbn [tokenize_ultrafast alnum_runs map toLowerFast].
    rewrite filter_keep_cons, keep_word_empty. reflexivity.
  - change (tokenize_ultrafast (String c rest))
      with (tokenize_scan (String c rest) EmptyString 0).
    rewrite (tokenize_scan_pipeline _ EmptyString EmptyString 0);
      [reflexivity| |lia].
    split; [auto|change (slen EmptyString) with 0; lia].
Qed.

Lemma tokenizer_splits_joined_words_witness :
  (word_ok "hello" /\ Forall word_ok ["world"; "x86"]
   /\ Z.of_nat (length ["world"; "x86"]) < 100000)
  /\ (tokenize_ultrafast ("hello" +:+ blanks ["world"; "x86"])
      = "hello" :: ["world"; "x86"]
      /\ tokenize_ultrafast
           (toLowerFast
              (join_suggestions ("hello" :: ["world"; "x86"]) 0 EmptyString))
         = take 5 ("hello" :: ["world"; "x86"])).
Proof.
  assert (Hw : word_ok "hello") by (split; reflexivity).
  assert (Hws : Forall word_ok ["world"; "x86"])
    by (repeat constructor; reflexivity).
  assert (Hlen : Z.of_nat (length ["world"; "x86"]) < 100000)
    by (simpl; lia).
  split; [auto|].
  exact (tokenizer_splits_joined_words "hello" ["world"; "x86"] Hw Hws Hlen).
Defined.

(** ** The trie and its prefix cache *)

Section TrieMore.
Import UltraFastTrie.
Implicit Types (cur n : Node) (w word prefix : string).

Lemma letter_of_index (c : ascii) :
  (letter_index c <? 0) || (26 <=? letter_index c) = false ->
  c = ascii_of_nat (97 + Z.to_nat (letter_index c)).
Proof. ascii_cases c; intros Hc; (discriminate Hc || reflexivity). Qed.

Lemma islower_of_index (c : ascii) :
  islower c = negb ((letter_index c <? 0) || (26 <=? letter_index c)).
Proof. ascii_cases c. Qed.

Lemma letter_index_inj (c c' : ascii) :
  (letter_index c <? 0) || (26 <=? letter_index c) = false ->
  (letter_index c' <? 0) || (26 <=? letter_index c') = false ->
  letter_index c = letter_index c' -> c = c'.
Proof.
  intros Hc Hc' Heq.
  rewrite (letter_of_index c Hc), (letter_of_index c' Hc'). now rewrite Heq.
Qed.

Lemma stored_new_node w : stored new_node w = false.
Proof.
  destruct w as [|c rest]; [reflexivity|].
  unfold stored. simpl.
  destruct ((letter_index c <? 0) || (26 <=? letter_index c)); [reflexivity|].
  unfold child.
  destruct (children new_node !! Z.to_nat (letter_index c)) as [[m|]|] eqn:Hlook;
    try reflexivity.
  apply lookup_replicate in Hlook as [[=] _].
Qed.

Lemma stored_cons cur (c : ascii) w :
  stored cur (String c w)
  = if (letter_index c <? 0) || (26 <=? letter_index c) then false
    else match child cur (letter_index c) with
         | Some m => stored m w
         | None => false
         end.
Proof.
  unfold stored. simpl.
  destruct ((letter_index c <? 0) || (26 <=? letter_index c)); [reflexivity|].
  now destruct (child cur (letter_index c)).
Qed.

Lemma child_insert_eq (b : bool) (cs : list (option Node)) (idx : Z) m :
  0 <= idx < 26 -> length cs = 26%nat ->
  child (mkNode b (<[Z.to_nat idx := Some m]> cs)) idx = Some m.
Proof.
  intros Hidx Hlen. unfold child. simpl.
  rewrite list_lookup_insert_eq by lia. reflexivity.
Qed.

Lemma child_insert_ne (b b' : bool) (cs : list (option Node)) (idx idx' : Z) m :
  0 <= idx -> 0 <= idx' -> idx <> idx' ->
  child (mkNode b (<[Z.to_nat idx := Some m]> cs)) idx'
  = child (mkNode b' cs) idx'.
Proof.
  intros Hidx Hidx' Hne. unfold child. simpl.
  rewrite list_lookup_insert_ne by lia. reflexivity.
Qed.

Lemma index_range (c : ascii) :
  (letter_index c <? 0) || (26 <=? letter_index c) = false ->
  0 <= letter_index c < 26.
Proof.
  intros [H1 H2]%orb_false_iff.
  apply Z.ltb_ge in H1. apply Z.leb_gt in H2. lia.
Qed.

(** What is stored below a node after the walk of [insert]: what was
    stored before, and the word when it is made of letters. *)
Lemma stored_insert_from w : forall cur w',
  well_formed cur ->
  stored (insert_from cur w) w'
  = stored cur w' || (String.eqb w' w && letters_only w).
Proof.
  induction w as [|c rest IH]; intros cur w' Hwf.
  - destruct w' as [|c' rest']; simpl.
    + unfold stored. simpl. now rewrite orb_true_r.
    + rewrite orb_false_r. rewrite !stored_cons. reflexivity.
  - cbn [insert_from].
    destruct ((letter_index c <? 0) || (26 <=? letter_index c)) eqn:Hc.
    + unfold letters_only. cbn [all_of]. rewrite islower_of_index, Hc.
      simpl. now rewrite andb_false_r, orb_false_r.
    + pose proof (index_range c Hc) as Hrange.
      unfold letters_only. cbn [all_of]. rewrite islower_of_index, Hc.
      cbn [negb andb]. fold (letters_only rest).
      pose proof (well_formed_next cur (letter_index c) Hwf) as Hnext.
      destruct w' as [|c' rest'].
      * unfold stored. simpl. now rewrite orb_false_r.
      * rewrite !stored_cons.
        destruct ((letter_index c' <? 0) || (26 <=? letter_index c')) eqn:Hc'.
        { simpl. destruct (Ascii.eqb_spec c' c) as [->|Hne]; [congruence|].
          reflexivity. }
        pose proof (index_range c' Hc') as Hrange'.
        destruct (Z.eq_dec (letter_index c) (letter_index c')) as [Heq|Hne].
        -- pose proof (letter_index_inj c c' Hc Hc' Heq) as <-.
           destruct Hwf as [b cs Hlen Hcs].
           rewrite child_insert_eq by assumption.
           rewrite IH by exact Hnext.
           cbn [String.eqb]. rewrite Ascii.eqb_refl.
           cbn [children] in *.
           destruct (child (mkNode b cs) (letter_index c)) as [m|];
             [reflexivity|].
           simpl. now rewrite stored_new_node.
        -- destruct cur as [b cs].
           rewrite (child_insert_ne _ b) by lia.
           cbn [String.eqb].
           destruct (Ascii.eqb_spec c' c) as [->|_]; [congruence|].
           simpl. now rewrite orb_false_r.
Qed.

Lemma contains_insert (tr : t) w w' :
  well_formed (root tr) ->
  contains (insert tr w) w'
  = contains tr w' || (String.eqb w' w && insertable w).
Proof.
  intros Hwf. unfold insert, insertable.
  destruct (Z.eqb_spec (slen w) 0) as [Hzero|Hpos]; cbn [orb].
  { destruct (Z.leb_spec 1 (slen w)); [lia|].
    now rewrite andb_false_r, !andb_false_r, orb_false_r. }
  destruct (Z.ltb_spec 25 (slen w)) as [Hlong|Hshort].
  { destruct (Z.leb_spec (slen w) 25); [lia|].
    now rewrite !andb_false_r, orb_false_r. }
  destruct (Z.leb_spec 1 (slen w)); [|unfold slen in *; lia].
  destruct (Z.leb_spec (slen w) 25); [|lia].
  rewrite !andb_true_r.
  apply (stored_insert_from w (root tr) w' Hwf).
Qed.

(** X2: [insert] stores the word when it is 1 to 25 bytes long and made
    of the letters a to z, and stores nothing otherwise; no other word
    appears or disappears, and the prefix cache stays as it is. *)
Theorem insert_stores_exactly (tr : t) w w' :
  well_formed (root tr) ->
  contains (insert tr w) w'
  = contains tr w' || (String.eqb w' w && insertable w)
  /\ well_formed (root (insert tr w))
  /\ prefix_cache_head (insert tr w) = prefix_cache_head tr.
Proof.
  intros Hwf. split; [now apply contains_insert|].
  unfold insert.
  destruct ((slen w =? 0) || (25 <? slen w)); [auto|].
  split; [now apply well_formed_insert_from|reflexivity].
Qed.

(** *** The prefix cache *)

Lemma trie_cache_key_inj (p p' : string) (l l' : Z) :
  cache_key p l = cache_key p' l' -> p = p' /\ l = l'.
Proof.
  unfold cache_key. intros Heq.
  apply (f_equal list_ascii_of_string) in Heq.
  rewrite !bytes_app in Heq.
  change (list_ascii_of_string "|") with [bar] in Heq.
  simpl in Heq.
  apply split_at_last_bar in Heq as [Hp Hl]; [|apply pretty_Z_no_bar..].
  apply bytes_inj in Hp, Hl. apply (inj pretty) in Hl. auto.
Qed.

Lemma starts_with_miss (tr : t) prefix (limit : Z) :
  find_in_cache tr (cache_key prefix limit) = None ->
  starts_with tr prefix limit
  = (completions (root tr) prefix limit,
     insert_in_cache tr (cache_key prefix limit)
                     (completions (root tr) prefix limit)).
Proof.
  intros Hmiss. unfold starts_with. rewrite Hmiss.
  destruct prefix; reflexivity.
Qed.

Lemma starts_with_coherent (tr : t) prefix (limit : Z) :
  prefix_cache_coherent tr ->
  fst (starts_with tr prefix limit) = completions (root tr) prefix limit
  /\ root (snd (starts_with tr prefix limit)) = root tr
  /\ prefix_cache_coherent (snd (starts_with tr prefix limit)).
Proof.
  intros Hco.
  destruct (find_in_cache tr (cache_key prefix limit)) as [found|] eqn:Hfind.
  - unfold starts_with. rewrite Hfind. simpl. split; [|auto].
    apply find_in_cache_Some in Hfind.
    destruct (Hco _ Hfind) as (p & l & Hkey & Hval). simpl in Hkey, Hval.
    apply trie_cache_key_inj in Hkey as [-> ->]. exact Hval.
  - rewrite (starts_with_miss _ _ _ Hfind). simpl.
    split; [reflexivity|]. split; [reflexivity|].
    intros entry Hin. simpl in Hin.
    apply In_insert_in_cache in Hin as [->|Hin]; [|auto].
    exists prefix, limit. auto.
Qed.

(** *** The limit *)

Lemma bfs_limit (limit : Z) (fuel : nat) : forall q results,
  Z.of_nat (length results) <= Z.max 0 limit ->
  Z.of_nat (length (bfs fuel q results limit)) <= Z.max 0 limit.
Proof.
  induction fuel as [|fuel IH]; intros q results Hres; simpl; [exact Hres|].
  destruct q as [|[node str] q']; [exact Hres|].
  destruct (Z.ltb_spec (Z.of_nat (length results)) limit) as [Hlt|_];
    [|exact Hres].
  apply IH. destruct (is_end node); [|exact Hres].
  rewrite length_app. simpl. lia.
Qed.

(** *** The prefix *)

Lemma push_children_added (cs : list (option Node)) : forall q (i : nat) str,
  exists added,
    push_children q cs i str = q ++ added
    /\ map snd added `sublist_of` map (slot_word str) (seq i (length cs)).
Proof.
  induction cs as [|c cs IH]; intros q i str.
  - exists []. simpl. now rewrite app_nil_r.
  - cbn [push_children length seq map].
    destruct c as [m|].
    + unfold FixedQueue.push.
      destruct (FixedQueue.full q).
      * destruct (IH q (S i) str) as (added & -> & Hsub).
        exists added. split; [reflexivity|]. now apply sublist_cons.
      * destruct (IH (q ++ [(m, slot_word str i)]) (S i) str)
          as (added & Heq & Hsub).
        exists ((m, slot_word str i) :: added). split.
        -- unfold slot_word in *. rewrite Heq. now rewrite <- app_assoc.
        -- simpl. now apply sublist_skip.
    + destruct (IH q (S i) str) as (added & -> & Hsub).
      exists added. split; [reflexivity|]. now apply sublist_cons.
Qed.

Lemma bfs_prefix (p : string) (limit : Z) (fuel : nat) :
  forall q results,
    Forall (fun item => exists rest, snd item = p +:+ rest) q ->
    Forall (fun w => exists rest, w = p +:+ rest) results ->
    Forall (fun w => exists rest, w = p +:+ rest) (bfs fuel q results limit).
Proof.
  induction fuel as [|fuel IH]; intros q results Hq Hres; simpl;
    [exact Hres|].
  destruct q as [|[node str] q']; [exact Hres|].
  destruct (Z.of_nat (length results) <? limit); [|exact Hres].
  inversion Hq as [|? ? [rest Hstr] Hq']; subst. simpl in Hstr.
  apply IH.
  - destruct (Z.of_nat (length _) <? limit); [|exact Hq'].
    destruct (push_children_added (children node) q' 0 str)
      as (added & -> & Hsub).
    apply Forall_app. split; [exact Hq'|].
    rewrite Forall_forall. intros item Hitem.
    assert (Hin : snd item ∈ map snd added)
      by (apply list_elem_of_fmap; eauto).
    apply (elem_of_sublist _ _ _ Hin) in Hsub.
    apply list_elem_of_fmap in Hsub as (j & -> & _).
    exists (rest +:+ String (ascii_of_nat (97 + j)) EmptyString).
    unfold slot_word. rewrite Hstr. apply app_assoc_string.
  - destruct (is_end node); [|exact Hres].
    apply Forall_app. split; [exact Hres|]. repeat constructor. eauto.
Qed.

(** *** The order of the results *)

Lemma length_slot_word (str : string) (j : nat) :
  String.length (slot_word str j) = S (String.length str).
Proof.
  unfold slot_word. rewrite length_append. simpl. lia.
Qed.

Lemma slot_word_inj (s s' : string) (j j' : nat) :
  (j < 26)%nat -> (j' < 26)%nat ->
  slot_word s j = slot_word s' j' -> s = s' /\ j = j'.
Proof.
  intros Hj Hj' Heq. unfold slot_word in Heq.
  apply (f_equal list_ascii_of_string) in Heq.
  rewrite !bytes_app in Heq. simpl in Heq.
  apply app_inj_tail in Heq as [Hs Hc].
  split; [now apply bytes_inj|].
  apply (f_equal nat_of_ascii) in Hc.
  rewrite !nat_ascii_embedding in Hc by lia. lia.
Qed.

Lemma NoDup_slot_words (str : string) (n : nat) :
  (n <= 26)%nat -> NoDup (map (slot_word str) (seq 0 n)).
Proof.
  intros Hn. apply NoDup_fmap_2_strong; [|apply NoDup_seq].
  intros j j' Hj%elem_of_seq Hj'%elem_of_seq Heq.
  apply slot_word_inj in Heq as [_ Heq]; [exact Heq|lia..].
Qed.

Lemma same_length_sorted (n : nat) (l : list string) :
  Forall (fun a => String.length a = n) l -> StronglySorted shorter l.
Proof.
  induction 1 as [|a l Ha Hl IH]; constructor; [exact IH|].
  eapply Forall_impl; [exact Hl|]. unfold shorter. simpl. intros b Hb. lia.
Qed.

Lemma bfs_inv_initial cur prefix :
  bfs_inv (FixedQueue.push FixedQueue.init (cur, prefix)) [].
Proof.
  change (FixedQueue.push FixedQueue.init (cur, prefix))
    with [(cur, prefix)].
  split; [|split; [|split]]; simpl.
  - repeat constructor.
  - apply NoDup_singleton.
  - intros s s' [<-|[]] [<-|[]]. lia.
  - intros s j [<-|[]] [Heq|[]].
    apply (f_equal String.length) in Heq.
    rewrite length_slot_word in Heq. lia.
Qed.

Lemma bfs_inv_next (node : Node) (str : string) q'
    (added : list (Node * string)) (results results' : list string) :
  bfs_inv ((node, str) :: q') results ->
  map snd added `sublist_of` map (slot_word str) (seq 0 26) ->
  results' = results \/ results' = results ++ [str] ->
  bfs_inv (q' ++ added) results'.
Proof.
  intros (Hsorted & Hnodup & Hlen & Hparent) Hsub Hres.
  cbn [map snd] in *.
  set (Q := map snd q') in *. set (A := map snd added) in *.
  apply StronglySorted_app in Hsorted as (Hrq & Hr & Hq).
  apply StronglySorted_inv in Hq as [Hq Hfront].
  rewrite Forall_forall in Hfront.
  assert (HA : forall a, a ∈ A -> String.length a = S (String.length str)).
  { intros a Ha. apply (elem_of_sublist _ _ _ Ha) in Hsub.
    apply list_elem_of_fmap in Hsub as (j & -> & _).
    apply length_slot_word. }
  assert (HQlo : forall x, x ∈ Q -> (String.length str <= String.length x)%nat)
    by (intros x Hx; now apply Hfront).
  assert (HQhi : forall x, x ∈ Q ->
             (String.length x <= S (String.length str))%nat).
  { intros x Hx%list_elem_of_In. apply Hlen; [now left|now right]. }
  assert (Hres_le : forall x, x ∈ results' ->
             (String.length x <= String.length str)%nat).
  { intros x Hx. destruct Hres as [-> | ->].
    - apply (Hrq x str Hx). now left.
    - apply elem_of_app in Hx as [Hx|Hx%list_elem_of_singleton].
      + apply (Hrq x str Hx). now left.
      + subst x. lia. }
  assert (Hstr_fresh : str ∉ Q).
  { intros Hin. apply NoDup_app in Hnodup as (_ & _ & Hnd).
    apply NoDup_cons in Hnd as [Hnotin _]. contradiction. }
  assert (HL1 : StronglySorted shorter (results' ++ Q)
                /\ NoDup (results' ++ Q)).
  { destruct Hres as [-> | ->].
    - split.
      + apply StronglySorted_app_2; [|exact Hr|exact Hq].
        intros x1 x2 Hx1 Hx2. apply (Hrq x1 x2 Hx1). now right.
      + apply (sublist_NoDup _ _ Hnodup).
        apply sublist_app; [reflexivity|]. now apply sublist_cons.
    - rewrite <- !app_assoc. simpl. split; [|exact Hnodup].
      apply StronglySorted_app_2; [exact Hrq|exact Hr|].
      constructor; [exact Hq|]. now apply Forall_forall. }
  destruct HL1 as [Hsorted1 Hnodup1].
  unfold bfs_inv. rewrite map_app. fold Q A. rewrite !app_assoc.
  split; [|split; [|split]].
  - apply StronglySorted_app_2; [|exact Hsorted1|].
    + intros x1 x2 Hx1 Hx2. unfold shorter. rewrite (HA x2 Hx2).
      apply elem_of_app in Hx1 as [Hx1|Hx1].
      * specialize (Hres_le x1 Hx1). lia.
      * now apply HQhi.
    + apply (same_length_sorted (S (String.length str))).
      now apply Forall_forall.
  - apply NoDup_app. split; [exact Hnodup1|]. split.
    + intros x Hx Hx'. pose proof (HA x Hx') as Hlen'.
      apply elem_of_app in Hx as [Hx|Hx].
      * specialize (Hres_le x Hx). lia.
      * apply (elem_of_sublist _ _ _ Hx') in Hsub.
        apply list_elem_of_fmap in Hsub as (j & -> & _).
        apply (Hparent str j); [now left|].
        right. now apply list_elem_of_In.
    + apply (sublist_NoDup _ _ (NoDup_slot_words str 26 (le_n _)) Hsub).
  - intros s s' Hs%list_elem_of_In Hs'%list_elem_of_In.
    assert (Hlo : (String.length str <= String.length s)%nat).
    { apply elem_of_app in Hs as [Hs|Hs]; [now apply HQlo|].
      rewrite (HA s Hs). lia. }
    assert (Hhi : (String.length s' <= S (String.length str))%nat).
    { apply elem_of_app in Hs' as [Hs'|Hs']; [now apply HQhi|].
      rewrite (HA s' Hs'). lia. }
    lia.
  - intros s j Hs%list_elem_of_In Hs'%list_elem_of_In.
    apply elem_of_app in Hs as [Hs|Hs].
    + apply elem_of_app in Hs' as [Hs'|Hs'].
      * apply (Hparent s j); right; now apply list_elem_of_In.
      * apply (elem_of_sublist _ _ _ Hs') in Hsub.
        apply list_elem_of_fmap in Hsub as (j' & Heq & _).
        assert (Hlen' : String.length s = String.length str).
        { apply (f_equal String.length) in Heq.
          rewrite !length_slot_word in Heq. lia. }
        unfold slot_word in Heq.
        apply (f_equal list_ascii_of_string) in Heq.
        rewrite !bytes_app in Heq. simpl in Heq.
        apply app_inj_tail in Heq as [Heq _]. apply bytes_inj in Heq.
        subst s. contradiction.
    + pose proof (HA s Hs) as Hlen'.
      pose proof (length_slot_word s j) as Hlen''.
      apply elem_of_app in Hs' as [Hs'|Hs'].
      * specialize (HQhi _ Hs'). lia.
      * specialize (HA _ Hs'). lia.
Qed.

Lemma bfs_ordered (root : Node) (limit : Z) (fuel : nat) :
  forall q results,
    well_formed root -> queue_ok root q -> bfs_inv q results ->
    StronglySorted shorter (bfs fuel q results limit)
    /\ NoDup (bfs fuel q results limit).
Proof.
  assert (Hdone : forall q results, bfs_inv q results ->
            StronglySorted shorter results /\ NoDup results).
  { intros q results (Hsorted & Hnodup & _). split.
    - now apply StronglySorted_app_1_l in Hsorted.
    - now apply NoDup_app in Hnodup as (Hnd & _). }
  induction fuel as [|fuel IH]; intros q results Hwf Hq Hinv; simpl;
    [now apply (Hdone q)|].
  destruct q as [|[node str] q'] eqn:Hqeq; [now apply (Hdone [])|].
  destruct (Z.of_nat (length results) <? limit); [|now apply (Hdone q); subst].
  inversion Hq as [|? ? Hnode Hq']; subst. simpl in Hnode.
  pose proof (well_formed_walk _ _ _ Hwf Hnode) as Hwfn.
  set (results' := if is_end node then results ++ [str] else results).
  assert (Hres : results' = results \/ results' = results ++ [str])
    by (subst results'; destruct (is_end node); auto).
  destruct (Z.of_nat (length results') <? limit).
  - destruct (push_children_added (children node) q' 0 str)
      as (added & Heq & Hsub).
    assert (Hlen : length (children node) = 26%nat)
      by (destruct Hwfn; assumption).
    rewrite Hlen in Hsub.
    apply IH; [exact Hwf| |].
    + destruct Hwfn as [b cs Hlen' Hcs].
      apply (queue_ok_push_children root (mkNode b cs)); auto.
      simpl. lia.
    + rewrite Heq. exact (bfs_inv_next _ _ _ _ _ _ Hinv Hsub Hres).
  - apply IH; [exact Hwf|exact Hq'|].
    rewrite <- (app_nil_r q').
    apply (bfs_inv_next node str q' [] results results' Hinv);
      [apply sublist_nil_l|exact Hres].
Qed.

(** *** Completeness of the enumeration *)

Lemma node_count_pos n : (1 <= node_count n)%nat.
Proof. destruct n as [b cs]. rewrite node_count_children. lia. Qed.

Lemma length_le_queue_count q : (length q <= queue_count q)%nat.
Proof.
  induction q as [|[n str] q IH]; [simpl; lia|].
  rewrite queue_count_cons. pose proof (node_count_pos n).
  cbn [length]. lia.
Qed.

Lemma queue_count_app q1 q2 :
  queue_count (q1 ++ q2) = (queue_count q1 + queue_count q2)%nat.
Proof. unfold queue_count. now rewrite map_app, list_sum_app. Qed.

Lemma queue_count_children_items (cs : list (option Node)) : forall i str,
  queue_count (children_items cs i str) = children_count cs.
Proof.
  induction cs as [|[m|] cs IH]; intros i str; simpl; [reflexivity| |apply IH].
  rewrite queue_count_cons. now rewrite IH.
Qed.

Lemma push_children_all (cs : list (option Node)) : forall q (i : nat) str,
  (length q + length (children_items cs i str) <= 1024)%nat ->
  push_children q cs i str = q ++ children_items cs i str.
Proof.
  induction cs as [|[m|] cs IH]; intros q i str Hroom.
  - simpl. now rewrite app_nil_r.
  - cbn [push_children children_items] in *. cbn [length] in Hroom.
    unfold FixedQueue.push, FixedQueue.full, MAX_QUEUE_SIZE.
    destruct (Z.eqb_spec (Z.of_nat (length q)) 1024) as [Hfull|_]; [lia|].
    fold (slot_word str i). rewrite IH.
    + now rewrite <- app_assoc.
    + rewrite length_app. simpl. lia.
  - cbn [push_children children_items] in *. now apply IH.
Qed.

Lemma In_children_items (cs : list (option Node)) : forall i j str m,
  cs !! j = Some (Some m) ->
  In (m, slot_word str (i + j)) (children_items cs i str).
Proof.
  induction cs as [|c cs IH]; intros i j str m Hlook; [discriminate|].
  destruct j as [|j]; simpl in Hlook.
  - injection Hlook as ->. rewrite Nat.add_0_r. now left.
  - replace (i + S j)%nat with (S i + j)%nat by lia.
    destruct c; [right|]; now apply IH.
Qed.

Lemma pending_next (w : string) (node : Node) (str : string) q'
    (results : list string) :
  pending w ((node, str) :: q') results ->
  pending w (q' ++ children_items (children node) 0 str)
            (if is_end node then results ++ [str] else results).
Proof.
  intros [Hfound|(n0 & s0 & rest & Hin & -> & Hstored)].
  - left. destruct (is_end node); [apply in_or_app|]; auto.
  - destruct Hin as [[= <- <-]|Hin].
    + destruct rest as [|c rest].
      * left. unfold stored in Hstored. simpl in Hstored. rewrite Hstored.
        rewrite app_nil_r_string. apply in_or_app. right. now left.
      * right. rewrite stored_cons in Hstored.
        destruct ((letter_index c <? 0) || (26 <=? letter_index c)) eqn:Hc;
          [discriminate|].
        destruct (child node (letter_index c)) as [m|] eqn:Hchild;
          [|discriminate].
        exists m, (slot_word str (Z.to_nat (letter_index c))), rest.
        split; [|split; [|exact Hstored]].
        -- apply in_or_app. right.
           apply (In_children_items (children node) 0
                    (Z.to_nat (letter_index c)) str m).
           unfold child in Hchild.
           destruct (children node !! Z.to_nat (letter_index c))
             as [[m0|]|]; congruence.
        -- unfold slot_word.
           rewrite app_assoc_string, app_cons_string, app_nil_l_string.
           now rewrite <- (letter_of_index c Hc).
    + right. exists n0, s0, rest. split; [|auto].
      apply in_or_app. now left.
Qed.

Lemma bfs_complete (w : string) (limit : Z) (total : nat) (fuel : nat) :
  forall q results,
    Z.of_nat total < limit -> (fuel <= 1024)%nat ->
    (queue_count q <= fuel)%nat ->
    (length results + queue_count q <= total)%nat ->
    pending w q results ->
    In w (bfs fuel q results limit).
Proof.
  assert (Hempty : forall results, pending w [] results -> In w results).
  { intros results [Hin|(n0 & s0 & rest & [] & _)]. exact Hin. }
  induction fuel as [|fuel IH]; intros q results Hlimit Hfuel Hq Htotal Hpend.
  - destruct q as [|[n str] q'].
    + simpl. now apply Hempty.
    + rewrite queue_count_cons in Hq. pose proof (node_count_pos n). lia.
  - cbn [bfs]. destruct q as [|[node str] q']; [now apply Hempty|].
    rewrite queue_count_cons in Hq, Htotal.
    pose proof (node_count_pos node) as Hpos.
    destruct (Z.ltb_spec (Z.of_nat (length results)) limit) as [_|]; [|lia].
    set (results' := if is_end node then results ++ [str] else results).
    assert (Hlen' : (length results' <= S (length results))%nat).
    { subst results'. destruct (is_end node); [|lia].
      rewrite length_app. simpl. lia. }
    destruct (Z.ltb_spec (Z.of_nat (length results')) limit) as [_|]; [|lia].
    destruct node as [b cs]. rewrite node_count_children in *.
    cbn [children].
    pose proof (queue_count_children_items cs 0 str) as Hitems.
    pose proof (length_le_queue_count (children_items cs 0 str)) as Hlenitems.
    pose proof (length_le_queue_count q') as Hlenq.
    rewrite push_children_all by lia.
    apply IH; [exact Hlimit|lia| | |].
    + rewrite queue_count_app. lia.
    + rewrite queue_count_app. lia.
    + apply (pending_next w (mkNode b cs) str q' results Hpend).
Qed.

(** *** [starts_with] *)

Lemma completions_ok (root : Node) prefix (limit : Z) :
  well_formed root ->
  let results := completions root prefix limit in
  Z.of_nat (length results) <= Z.max 0 limit
  /\ NoDup results
  /\ StronglySorted shorter results
  /\ forall w, In w results ->
       stored root w = true /\ exists rest, w = prefix +:+ rest.
Proof.
  intros Hwf. unfold completions.
  assert (Hnone : let results := @nil string in
            Z.of_nat (length results) <= Z.max 0 limit
            /\ NoDup results
            /\ StronglySorted shorter results
            /\ forall w, In w results ->
                 stored root w = true /\ exists rest, w = prefix +:+ rest).
  { simpl. split; [lia|]. split; [constructor|]. split; [constructor|].
    intros w []. }
  destruct prefix as [|c p]; [exact Hnone|].
  destruct (walk root (String c p)) as [cur|] eqn:Hwalk; [|exact Hnone].
  clear Hnone. set (prefix := String c p) in *.
  assert (Hq : queue_ok root (FixedQueue.push FixedQueue.init (cur, prefix)))
    by (repeat constructor; exact Hwalk).
  cbv zeta. split; [|split; [|split]].
  - apply bfs_limit. simpl. lia.
  - apply (bfs_ordered root); auto using bfs_inv_initial.
  - apply (bfs_ordered root); auto using bfs_inv_initial.
  - intros w Hw%list_elem_of_In. split.
    + pose proof (bfs_sound root limit (node_count cur) _ [] Hwf Hq
                    (Forall_nil_2 _)) as Hsound.
      rewrite Forall_forall in Hsound.
      destruct (Hsound w Hw) as (n & Hn & Hend).
      unfold stored. now rewrite Hn.
    + assert (Hpre : Forall (fun w => exists rest, w = prefix +:+ rest)
                (bfs (node_count cur)
                     (FixedQueue.push FixedQueue.init (cur, prefix)) [] limit)).
      { apply bfs_prefix; [|constructor].
        repeat constructor. exists EmptyString. simpl.
        now rewrite app_nil_r_string. }
      rewrite Forall_forall in Hpre. now apply Hpre.
Qed.

(** X3: what [starts_with] returns: at most [limit] words, none twice,
    shorter ones first, each stored in the trie and each beginning with
    the prefix. *)
Theorem starts_with_returns_stored_words (tr : t) prefix (limit : Z) :
  well_formed (root tr) -> prefix_cache_coherent tr ->
  let results := fst (starts_with tr prefix limit) in
  Z.of_nat (length results) <= Z.max 0 limit
  /\ NoDup results
  /\ StronglySorted shorter results
  /\ forall w, In w results ->
       contains tr w = true /\ exists rest, w = prefix +:+ rest.
Proof.
  intros Hwf Hco.
  destruct (starts_with_coherent tr prefix limit Hco) as (-> & _ & _).
  apply (completions_ok (root tr) prefix limit Hwf).
Qed.

Lemma completions_complete (root cur : Node) prefix rest (limit : Z) :
  prefix <> EmptyString ->
  walk root prefix = Some cur ->
  (node_count cur <= 1024)%nat -> Z.of_nat (node_count cur) < limit ->
  stored root (prefix +:+ rest) = true ->
  In (prefix +:+ rest) (completions root prefix limit).
Proof.
  intros Hne Hwalk Hsmall Hlimit Hstored. unfold completions.
  destruct prefix as [|c p]; [congruence|]. rewrite Hwalk.
  change (FixedQueue.push FixedQueue.init (cur, String c p))
    with [(cur, String c p)].
  assert (Hcount : queue_count [(cur, String c p)] = node_count cur)
    by (rewrite queue_count_cons; unfold queue_count; cbn [map];
        change (list_sum []) with O; lia).
  apply (bfs_complete _ limit (node_count cur)); auto.
  - now rewrite Hcount.
  - rewrite Hcount. cbn [length]. lia.
  - right. exists cur, (String c p), rest.
    split; [now left|]. split; [reflexivity|].
    unfold stored in *. rewrite walk_app, Hwalk in Hstored. exact Hstored.
Qed.

(** X4: when the subtree below the prefix has at most 1024 nodes and
    fewer nodes than [limit], [starts_with] returns every stored word that
    begins with the prefix. *)
Theorem starts_with_finds_all (tr : t) prefix rest (limit : Z) cur :
  prefix_cache_coherent tr ->
  prefix <> EmptyString ->
  walk (root tr) prefix = Some cur ->
  (node_count cur <= 1024)%nat -> Z.of_nat (node_count cur) < limit ->
  contains tr (prefix +:+ rest) = true ->
  In (prefix +:+ rest) (fst (starts_with tr prefix limit)).
Proof.
  intros Hco Hne Hwalk Hsmall Hlimit Hstored.
  destruct (starts_with_coherent tr prefix limit Hco) as (-> & _ & _).
  now apply (completions_complete (root tr) cur).
Qed.

(** X5: a repeated [starts_with] returns the list of the first call,
    also when words have been inserted in between: [insert] leaves the
    prefix cache as it is. *)
Theorem starts_with_repeats_across_insert (tr : t) prefix (limit : Z)
    (words : list string) :
  let first := starts_with tr prefix limit in
  fst (starts_with (foldl insert (snd first) words) prefix limit)
  = fst first.
Proof.
  cbv zeta.
  assert (Hcache : forall tr0,
            prefix_cache_head (foldl insert tr0 words)
            = prefix_cache_head tr0).
  { induction words as [|w ws IH]; intros tr0; simpl; [reflexivity|].
    rewrite IH. unfold insert.
    now destruct ((slen w =? 0) || (25 <? slen w)). }
  assert (Hhit : find_in_cache (snd (starts_with tr prefix limit))
                   (cache_key prefix limit)
                 = Some (fst (starts_with tr prefix limit))).
  { unfold starts_with.
    destruct (find_in_cache tr (cache_key prefix limit)) as [found|] eqn:Hfind.
    - exact Hfind.
    - apply find_in_cache_insert. }
  unfold starts_with at 1. unfold find_in_cache at 1.
  rewrite Hcache. fold (find_in_cache (snd (starts_with tr prefix limit))
                          (cache_key prefix limit)).
  now rewrite Hhit.
Qed.

End TrieMore.

Lemma insert_stores_exactly_witness :
  well_formed (UltraFastTrie.root UltraFastTrie.empty)
  /\ (UltraFastTrie.contains
        (UltraFastTrie.insert UltraFastTrie.empty "ab") "ab"
      = UltraFastTrie.contains UltraFastTrie.empty "ab"
        || (String.eqb "ab" "ab" && insertable "ab")
      /\ well_formed
           (UltraFastTrie.root (UltraFastTrie.insert UltraFastTrie.empty "ab"))
      /\ UltraFastTrie.prefix_cache_head
           (UltraFastTrie.insert UltraFastTrie.empty "ab")
         = UltraFastTrie.prefix_cache_head UltraFastTrie.empty).
Proof.
  split; [exact well_formed_new_node|].
  exact (insert_stores_exactly UltraFastTrie.empty "ab" "ab"
           well_formed_new_node).
Defined.


Lemma well_formed_sample_trie : well_formed (UltraFastTrie.root sample_trie).
Proof.
  unfold sample_trie. cbn [foldl].
  repeat (apply insert_keeps_shape). exact well_formed_new_node.
Qed.

Lemma prefix_cache_coherent_sample_trie : prefix_cache_coherent sample_trie.
Proof. intros entry []. Qed.

Lemma starts_with_returns_stored_words_witness :
  (well_formed (UltraFastTrie.root sample_trie)
   /\ prefix_cache_coherent sample_trie)
  /\ (let results := fst (UltraFastTrie.starts_with sample_trie "he" 2) in
      Z.of_nat (length results) <= Z.max 0 2
      /\ NoDup results
      /\ StronglySorted shorter results
      /\ forall w, In w results ->
           UltraFastTrie.contains sample_trie w = true
           /\ exists rest, w = "he" +:+ rest).
Proof.
  split; [split; [exact well_formed_sample_trie
                 |exact prefix_cache_coherent_sample_trie]|].
  exact (starts_with_returns_stored_words sample_trie "he" 2
           well_formed_sample_trie prefix_cache_coherent_sample_trie).
Defined.

Lemma starts_with_finds_all_witness :
  exists cur,
    (prefix_cache_coherent sample_trie
     /\ "he" <> EmptyString
     /\ UltraFastTrie.walk (UltraFastTrie.root sample_trie) "he" = Some cur
     /\ (UltraFastTrie.node_count cur <= 1024)%nat
     /\ Z.of_nat (UltraFastTrie.node_count cur) < 10
     /\ UltraFastTrie.contains sample_trie ("he" +:+ "lp") = true)
    /\ In ("he" +:+ "lp") (fst (UltraFastTrie.starts_with sample_trie "he" 10)).
Proof.
  destruct (UltraFastTrie.walk (UltraFastTrie.root sample_trie) "he")
    as [cur|] eqn:Hwalk; [|vm_compute in Hwalk; discriminate].
  exists cur.
  assert (Hne : "he" <> EmptyString) by discriminate.
  assert (Hcount : UltraFastTrie.node_count cur = 5%nat).
  { vm_compute in Hwalk. injection Hwalk as <-. reflexivity. }
  assert (Hsmall : (UltraFastTrie.node_count cur <= 1024)%nat)
    by (rewrite Hcount; lia).
  assert (Hlimit : Z.of_nat (UltraFastTrie.node_count cur) < 10)
    by (rewrite Hcount; lia).
  assert (Hstored : UltraFastTrie.contains sample_trie ("he" +:+ "lp") = true)
    by reflexivity.
  split; [repeat split; auto; exact prefix_cache_coherent_sample_trie|].
  exact (starts_with_finds_all sample_trie "he" "lp" 10 cur
           prefix_cache_coherent_sample_trie Hne Hwalk Hsmall Hlimit Hstored).
Defined.

(** ** The build of the index *)

Section IndexMore.
Import HyperOptimizedIndex.

Lemma occurrences_app (t : string) (l1 l2 : list string) : forall i,
  occurrences t (l1 ++ l2) i
  = occurrences t l1 i ++ occurrences t l2 (i + Z.of_nat (length l1)).
Proof.
  induction l1 as [|t' l1 IH]; intros i; simpl.
  - now rewrite Z.add_0_r.
  - rewrite IH.
    replace (i + 1 + Z.of_nat (length l1))
      with (i + Z.pos (Pos.of_succ_nat (length l1))) by lia.
    now destruct (String.eqb t' t).
Qed.

Lemma occurrences_In (t : string) (tokens : list string) : forall i,
  occurrences t tokens i <> [] <-> In t tokens.
Proof.
  induction tokens as [|t' rest IH]; intros i; simpl; [tauto|].
  destruct (String.eqb_spec t' t) as [->|Hne].
  - split; [auto|discriminate].
  - rewrite IH. split; [auto|]. intros [Heq|Hin]; [contradiction|exact Hin].
Qed.

Lemma count_token_is (docId : Z) (seen : list string)
    (local : gmap string Posting.t) (t : string) :
  local_is docId seen local ->
  local_is docId (seen ++ [t])
           (count_token docId local (Z.of_nat (length seen)) t).
Proof.
  intros Hlocal t'. unfold count_token. cbv zeta.
  destruct (decide (t = t')) as [<-|Hne].
  2:{ rewrite lookup_insert_ne by exact Hne. rewrite Hlocal.
      unfold posting_of. rewrite occurrences_app. simpl.
      destruct (String.eqb_spec t t') as [|_]; [contradiction|].
      now rewrite app_nil_r. }
  rewrite lookup_insert_eq. pose proof (Hlocal t) as Ht.
  unfold local_is in Ht. rewrite !Ht. clear Ht. unfold posting_of.
  rewrite occurrences_app. cbn [occurrences]. rewrite String.eqb_refl.
  rewrite Z.add_0_l.
  set (i := Z.of_nat (length seen)).
  destruct (occurrences t seen 0) as [|o occ] eqn:Hocc.
  - reflexivity.
  - set (l := o :: occ) in *.
    assert (Hl : (1 <= length l)%nat) by (subst l; simpl; lia).
    assert (Hnew : exists o' occ', l ++ [i] = o' :: occ')
      by (subst l; simpl; eauto).
    destruct Hnew as (o' & occ' & Hnew). clearbody l.
    rewrite Hnew. cbv iota beta.
    rewrite <- Hnew.
    cbn [from_option id Posting.freq Posting.docID Posting.positions].
    unfold Posting.pos_size, MAX_POSTING_POSITIONS.
    cbn [Posting.positions].
    rewrite length_map, length_take, length_app. cbn [length].
    f_equal.
    destruct (Z.ltb_spec (Z.min 1000 (Z.of_nat (length l))) 1000) as [Hlt|Hge].
    + destruct (Z.ltb_spec (Z.of_nat (50 `min` length l)) 50) as [Hroom|Hfull].
      * f_equal; [lia|].
        rewrite !take_ge by (rewrite ?length_app; cbn [length]; lia).
        now rewrite map_app.
      * f_equal; [lia|].
        now rewrite take_app_le by lia.
    + f_equal; [lia|].
      now rewrite take_app_le by lia.
Qed.

Lemma index_tokens_is (docId : Z) (tokens : list string) :
  forall seen local v,
    local_is docId seen local ->
    local_is docId (seen ++ tokens)
      (fst (index_tokens docId tokens (Z.of_nat (length seen)) local v)).
Proof.
  induction tokens as [|t rest IH]; intros seen local v Hlocal.
  - simpl. now rewrite app_nil_r.
  - cbn [index_tokens].
    replace (Z.of_nat (length seen) + 1)
      with (Z.of_nat (length (seen ++ [t])))
      by (rewrite length_app; simpl; lia).
    replace (seen ++ t :: rest) with ((seen ++ [t]) ++ rest)
      by (now rewrite <- app_assoc).
    apply IH. now apply count_token_is.
Qed.

Lemma postings_from_app (t : string) (l1 l2 : list Document) : forall docId,
  postings_from t (l1 ++ l2) docId
  = postings_from t l1 docId
    ++ postings_from t l2 (docId + Z.of_nat (length l1)).
Proof.
  induction l1 as [|d l1 IH]; intros docId; simpl.
  - now rewrite Z.add_0_r.
  - rewrite IH.
    replace (docId + 1 + Z.of_nat (length l1))
      with (docId + Z.pos (Pos.of_succ_nat (length l1))) by lia.
    now destruct (posting_of docId t _).
Qed.

Lemma ingest_file_is (st : BuildState) (path content : string) :
  index_is st -> index_is (ingest_file st path content).
Proof.
  intros [Hid Hidx]. unfold ingest_file.
  pose proof (index_tokens_is (b_docId st) (tokenize_ultrafast content)
                [] ∅ (b_vocabulary st)) as Hlocal.
  cbn [length app] in Hlocal. change (Z.of_nat 0) with 0 in Hlocal.
  destruct (index_tokens (b_docId st) (tokenize_ultrafast content) 0 ∅
              (b_vocabulary st)) as [local v].
  simpl in Hlocal.
  assert (Hempty : local_is (b_docId st) [] ∅)
    by (intros t; now rewrite lookup_empty).
  specialize (Hlocal Hempty). clear Hempty.
  split; simpl.
  - rewrite length_app. simpl. lia.
  - intros t. rewrite lookup_add_postings, Hlocal, Hidx.
    rewrite postings_from_app. cbn [postings_from full_content].
    rewrite Z.add_0_l, <- Hid.
    destruct (posting_of (b_docId st) t (tokenize_ultrafast content))
      as [p|].
    + destruct (postings_from t (b_docs st) 0) as [|p0 ps]; reflexivity.
    + now rewrite app_nil_r.
Qed.

Lemma ingest_is (files : list InputFile) : forall st,
  index_is st -> index_is (ingest files st).
Proof.
  induction files as [|f rest IH]; intros st Hinv; simpl; [exact Hinv|].
  destruct (contents f) as [content|]; [|now apply IH].
  destruct (100 * 1024 * 1024 <? slen content); [now apply IH|].
  pose proof (ingest_file_is st (path f) content Hinv) as Hinv'.
  destruct (200000 <? _); [exact Hinv'|now apply IH].
Qed.

Lemma index_is_initial :
  index_is (mkBuildState ∅ [] (mkVocabulary ∅ []) 0 0).
Proof. split; [reflexivity|]. intros t. simpl. apply lookup_empty. Qed.

Lemma build_from_files_is (files : list InputFile) (t : string) :
  idx (build_from_files files) !! t
  = match postings_from t (docs (build_from_files files)) 0 with
    | [] => None
    | postings => Some postings
    end.
Proof.
  destruct files as [|f rest]; [apply lookup_empty|].
  apply (ingest_is (f :: rest) _ index_is_initial).
Qed.

Lemma In_postings_from (t : string) (docs : list Document) (p : Posting.t) :
  forall docId,
    In p (postings_from t docs docId)
    <-> exists (k : nat) d,
          docs !! k = Some d
          /\ posting_of (docId + Z.of_nat k) t
               (tokenize_ultrafast (full_content d)) = Some p.
Proof.
  induction docs as [|d rest IH]; intros docId.
  - simpl. split; [tauto|]. intros (k & d & Hk & _). discriminate.
  - cbn [postings_from]. split.
    + intros Hin.
      assert (Hcases : posting_of docId t (tokenize_ultrafast (full_content d))
                       = Some p
                       \/ In p (postings_from t rest (docId + 1))).
      { destruct (posting_of docId t _) as [p0|]; [|now right].
        destruct Hin as [->|Hin]; auto. }
      destruct Hcases as [Hhere|Hlater].
      * exists O, d. rewrite Z.add_0_r. auto.
      * apply IH in Hlater as (k & d' & Hk & Hp).
        exists (S k), d'. split; [exact Hk|].
        now replace (docId + Z.of_nat (S k)) with (docId + 1 + Z.of_nat k)
          by lia.
    + intros (k & d' & Hk & Hp). destruct k as [|k].
      * injection Hk as ->. rewrite Z.add_0_r in Hp. rewrite Hp. now left.
      * assert (Hlater : In p (postings_from t rest (docId + 1))).
        { apply IH. exists k, d'. split; [exact Hk|].
          now replace (docId + 1 + Z.of_nat k) with (docId + Z.of_nat (S k))
            by lia. }
        destruct (posting_of docId t _); [now right|exact Hlater].
Qed.

Lemma index_key_iff (files : list InputFile) (t : string) :
  is_Some (idx (build_from_files files) !! t)
  <-> exists d, In d (docs (build_from_files files))
                /\ In t (tokenize_ultrafast (full_content d)).
Proof.
  rewrite build_from_files_is.
  set (ds := docs (build_from_files files)).
  split.
  - intros Hsome.
    destruct (postings_from t ds 0) as [|p ps] eqn:Hps;
      [now destruct Hsome|].
    assert (Hin : In p (postings_from t ds 0)) by (rewrite Hps; now left).
    apply In_postings_from in Hin as (k & d & Hk & Hp).
    exists d. split; [apply list_elem_of_In; eapply list_elem_of_lookup_2; eauto|].
    apply (occurrences_In t _ 0). unfold posting_of in Hp.
    destruct (occurrences t _ 0); [discriminate|discriminate].
  - intros (d & Hd%list_elem_of_In & Ht).
    apply list_elem_of_lookup in Hd as [k Hk].
    apply (occurrences_In t _ 0) in Ht.
    assert (Hp : exists p, posting_of (0 + Z.of_nat k) t
                             (tokenize_ultrafast (full_content d)) = Some p).
    { unfold posting_of.
      destruct (occurrences t _ 0); [congruence|eauto]. }
    destruct Hp as [p Hp].
    assert (Hin : In p (postings_from t ds 0))
      by (apply In_postings_from; eauto).
    destruct (postings_from t ds 0); [destruct Hin|eauto].
Qed.

(** X16: the posting list of a term holds, in the order of the documents,
    one posting for each document in which the tokenizer finds the term:
    with the number of its occurrences, at most 1000, and the token
    indices of the first 50 of them, each stored in a [short]; a term
    that no document holds has no entry. *)
Theorem index_lists_term_occurrences (files : list InputFile) (t : string) :
  let ix := build_from_files files in
  idx ix !! t
  = match postings_from t (docs ix) 0 with
    | [] => None
    | postings => Some postings
    end
  /\ (is_Some (idx ix !! t)
      <-> exists d, In d (docs ix)
                    /\ In t (tokenize_ultrafast (full_content d))).
Proof.
  cbv zeta. split; [apply build_from_files_is|apply index_key_iff].
Qed.

(** *** The vocabulary *)

Lemma note_word_exact (v : Vocabulary) (t : string) :
  NoDup (unique_words_vec v) ->
  (forall w, w ∈ unique_words_set v <-> In w (unique_words_vec v)) ->
  NoDup (unique_words_vec (note_word v t))
  /\ (forall w, w ∈ unique_words_set (note_word v t)
                <-> In w (unique_words_vec (note_word v t)))
  /\ (forall w, In w (unique_words_vec (note_word v t))
                <-> In w (unique_words_vec v) \/ w = t).
Proof.
  intros Hnd Hset. unfold note_word.
  destruct (decide (t ∈ unique_words_set v)) as [Hin|Hnotin].
  - split; [exact Hnd|]. split; [exact Hset|].
    intros w. split; [auto|]. intros [Hw| ->]; [exact Hw|now apply Hset].
  - cbn [unique_words_vec unique_words_set]. split; [|split].
    + apply NoDup_app. split; [exact Hnd|]. split; [|apply NoDup_singleton].
      intros w Hw Hw'%list_elem_of_singleton. subst w.
      apply Hnotin, Hset. now apply list_elem_of_In.
    + intros w. rewrite elem_of_union, elem_of_singleton, in_app_iff, Hset.
      simpl. intuition congruence.
    + intros w. rewrite in_app_iff. simpl. intuition congruence.
Qed.

Lemma index_tokens_exact (docId : Z) (tokens : list string) :
  forall i local v,
    NoDup (unique_words_vec v) ->
    (forall w, w ∈ unique_words_set v <-> In w (unique_words_vec v)) ->
    let v' := snd (index_tokens docId tokens i local v) in
    NoDup (unique_words_vec v')
    /\ (forall w, w ∈ unique_words_set v' <-> In w (unique_words_vec v'))
    /\ (forall w, In w (unique_words_vec v')
                  <-> In w (unique_words_vec v) \/ In w tokens).
Proof.
  induction tokens as [|t rest IH]; intros i local v Hnd Hset;
    cbn [index_tokens].
  - simpl. split; [exact Hnd|]. split; [exact Hset|]. intros w. tauto.
  - destruct (note_word_exact v t Hnd Hset) as (Hnd' & Hset' & Hvec').
    destruct (IH (i + 1) (count_token docId local i t) (note_word v t)
                 Hnd' Hset') as (Hnd'' & Hset'' & Hvec'').
    split; [exact Hnd''|]. split; [exact Hset''|].
    intros w. rewrite Hvec'', Hvec'. simpl. intuition congruence.
Qed.

Lemma ingest_file_exact (st : BuildState) (path content : string) :
  vocabulary_exact st -> vocabulary_exact (ingest_file st path content).
Proof.
  intros (Hnd & Hset & Hkeys). unfold ingest_file.
  pose proof (index_tokens_exact (b_docId st) (tokenize_ultrafast content)
                0 ∅ (b_vocabulary st) Hnd Hset) as Hvoc.
  pose proof (index_tokens_is (b_docId st) (tokenize_ultrafast content)
                [] ∅ (b_vocabulary st)) as Hlocal.
  cbn [length app] in Hlocal. change (Z.of_nat 0) with 0 in Hlocal.
  destruct (index_tokens (b_docId st) (tokenize_ultrafast content) 0 ∅
              (b_vocabulary st)) as [local v].
  cbn [fst snd] in *. cbv zeta in Hvoc.
  assert (Hempty : local_is (b_docId st) [] ∅)
    by (intros t; now rewrite lookup_empty).
  specialize (Hlocal Hempty). clear Hempty.
  destruct Hvoc as (Hnd' & Hset' & Hvec').
  unfold vocabulary_exact. cbn [b_vocabulary b_idx].
  split; [exact Hnd'|]. split; [exact Hset'|].
  intros t. rewrite Hvec', Hkeys, lookup_add_postings, Hlocal.
  rewrite <- (occurrences_In t (tokenize_ultrafast content) 0).
  unfold posting_of.
  destruct (occurrences t (tokenize_ultrafast content) 0) as [|o occ].
  - split; [intros [Hold|Hnew]; [exact Hold|congruence]|auto].
  - split; [eauto|]. intros _. right. discriminate.
Qed.

Lemma ingest_exact (files : list InputFile) : forall st,
  vocabulary_exact st -> vocabulary_exact (ingest files st).
Proof.
  induction files as [|f rest IH]; intros st Hinv; simpl; [exact Hinv|].
  destruct (contents f) as [content|]; [|now apply IH].
  destruct (100 * 1024 * 1024 <? slen content); [now apply IH|].
  pose proof (ingest_file_exact st (path f) content Hinv) as Hinv'.
  destruct (200000 <? _); [exact Hinv'|now apply IH].
Qed.

Lemma vocabulary_exact_initial :
  vocabulary_exact (mkBuildState ∅ [] (mkVocabulary ∅ []) 0 0).
Proof.
  split; [constructor|]. split; simpl.
  - intros t. rewrite elem_of_empty. tauto.
  - intros t. rewrite lookup_empty. split; [tauto|]. intros [x Hx]. discriminate.
Qed.

Lemma vocabulary_exact_size (st : BuildState) :
  vocabulary_exact st ->
  length (unique_words_vec (b_vocabulary st)) = size (b_idx st).
Proof.
  intros (Hnd & _ & Hkeys).
  rewrite <- size_dom. unfold size, set_size. simpl.
  apply Permutation_length. apply NoDup_Permutation.
  - exact Hnd.
  - apply NoDup_elements.
  - intros t. rewrite elem_of_elements, elem_of_dom, <- Hkeys.
    apply list_elem_of_In.
Qed.

(** *** The documents *)

Lemma tokenize_length_bound (text : string) :
  Z.of_nat (length (tokenize_ultrafast text)) <= 100000.
Proof.
  destruct text as [|c rest]; [simpl; lia|].
  pose proof (tokenize_scan_bound (String c rest) EmptyString 0) as Hscan.
  unfold tokenize_ultrafast. lia.
Qed.

Lemma omap_document_of_cons (f : InputFile) (l : list InputFile) :
  omap document_of (f :: l)
  = match document_of f with
    | Some d => d :: omap document_of l
    | None => omap document_of l
    end.
Proof. reflexivity. Qed.

Lemma ingest_docs (files : list InputFile) : forall st,
  exists n : nat,
    b_docs (ingest files st)
    = b_docs st ++ omap document_of (take n files)
    /\ (n = length files
        \/ 200000 < Z.of_nat (length (unique_words_vec
                                        (b_vocabulary (ingest files st))))).
Proof.
  induction files as [|f rest IH]; intros st.
  - exists O. simpl. rewrite app_nil_r. auto.
  - cbn [ingest].
    destruct (contents f) as [content|] eqn:Hcontent.
    2:{ assert (Hnone : document_of f = None)
          by (unfold document_of; now rewrite Hcontent).
        destruct (IH st) as (n & Hdocs & Hend). exists (S n).
        cbn [take]. rewrite omap_document_of_cons, Hnone.
        split; [exact Hdocs|]. cbn [length]. destruct Hend; [left; lia|auto]. }
    destruct (100 * 1024 * 1024 <? slen content) eqn:Hbig.
    { assert (Hnone : document_of f = None)
        by (unfold document_of; now rewrite Hcontent, Hbig).
      destruct (IH st) as (n & Hdocs & Hend). exists (S n).
      cbn [take]. rewrite omap_document_of_cons, Hnone.
      split; [exact Hdocs|]. cbn [length]. destruct Hend; [left; lia|auto]. }
    assert (Hdoc : exists doc,
               document_of f = Some doc
               /\ b_docs (ingest_file st (path f) content)
                  = b_docs st ++ [doc]).
    { unfold document_of. rewrite Hcontent, Hbig. eexists. split; [reflexivity|].
      unfold ingest_file.
      destruct (index_tokens _ _ _ _ _) as [local v]. reflexivity. }
    destruct Hdoc as (doc & Hdoc & Hdocs').
    destruct (200000 <? _) eqn:Hlimit.
    + exists 1%nat. cbn [take]. rewrite omap_document_of_cons, Hdoc.
      split; [exact Hdocs'|]. right. now apply Z.ltb_lt.
    + destruct (IH (ingest_file st (path f) content)) as (n & Hdocs & Hend).
      exists (S n). cbn [take]. rewrite omap_document_of_cons, Hdoc.
      split.
      * rewrite Hdocs, Hdocs'. now rewrite <- app_assoc.
      * cbn [length]. destruct Hend; [left; lia|auto].
Qed.

Lemma to_int_add_l (a b : Z) : to_int (to_int a + b) = to_int (a + b).
Proof.
  unfold to_int, wrap. f_equal.
  replace ((a + 2 ^ (32 - 1)) mod 2 ^ 32 - 2 ^ (32 - 1) + b + 2 ^ (32 - 1))
    with ((a + 2 ^ (32 - 1)) mod 2 ^ 32 + b) by lia.
  rewrite Zplus_mod_idemp_l. f_equal. lia.
Qed.

Lemma sum_tokens_app (l1 l2 : list Document) :
  sum_tokens (l1 ++ l2) = sum_tokens l1 + sum_tokens l2.
Proof.
  unfold sum_tokens. induction l1 as [|d l1 IH]; simpl; [reflexivity|].
  rewrite IH. lia.
Qed.

Lemma sum_tokens_nonneg (l : list Document) :
  Forall (fun d => 0 <= totalTokens d) l -> 0 <= sum_tokens l.
Proof.
  unfold sum_tokens. induction 1 as [|d l Hd _ IH]; simpl; lia.
Qed.

Lemma ingest_total (files : list InputFile) : forall st,
  b_total_words_processed st = to_int (sum_tokens (b_docs st)) ->
  b_total_words_processed (ingest files st)
  = to_int (sum_tokens (b_docs (ingest files st))).
Proof.
  induction files as [|f rest IH]; intros st Hst; simpl; [exact Hst|].
  destruct (contents f) as [content|]; [|now apply IH].
  destruct (100 * 1024 * 1024 <? slen content); [now apply IH|].
  assert (Hst' : b_total_words_processed (ingest_file st (path f) content)
                 = to_int (sum_tokens
                             (b_docs (ingest_file st (path f) content)))).
  { unfold ingest_file.
    destruct (index_tokens _ _ _ _ _) as [local v]. simpl.
    rewrite Hst, to_int_add_l, sum_tokens_app. simpl. f_equal. lia. }
  destruct (200000 <? _); [exact Hst'|now apply IH].
Qed.

Lemma documents_fields (files : list InputFile) :
  (exists n : nat,
      docs (build_from_files files) = omap document_of (take n files)
      /\ (n = length files
          \/ 200000 < Z.of_nat (size (idx (build_from_files files)))))
  /\ Forall (fun d =>
               filename d = basename (filepath d)
               /\ fileSize d = slen (full_content d)
               /\ fileSize d <= 100 * 1024 * 1024
               /\ totalTokens d
                  = Z.of_nat (length (tokenize_ultrafast (full_content d)))
               /\ totalTokens d <= 100000)
            (docs (build_from_files files)).
Proof.
  assert (Hrun : exists n : nat,
             docs (build_from_files files) = omap document_of (take n files)
             /\ (n = length files
                 \/ 200000 < Z.of_nat (size (idx (build_from_files files))))).
  { destruct files as [|f rest]; [exists O; auto|].
    set (st0 := mkBuildState ∅ [] (mkVocabulary ∅ []) 0 0).
    destruct (ingest_docs (f :: rest) st0) as (n & Hdocs & Hend).
    exists n. split; [exact Hdocs|].
    destruct Hend as [Hall|Hstop]; [now left|right].
    rewrite (vocabulary_exact_size _
               (ingest_exact (f :: rest) st0 vocabulary_exact_initial))
      in Hstop.
    exact Hstop. }
  split; [exact Hrun|].
  destruct Hrun as (n & Hdocs & Hend).
  rewrite Hdocs. apply Forall_forall. intros d Hd.
  apply list_elem_of_omap in Hd as (f & _ & Hf).
  unfold document_of in Hf.
  destruct (contents f) as [content|]; [|discriminate].
  destruct (Z.ltb_spec (100 * 1024 * 1024) (slen content)) as [|Hsmall];
    [discriminate|].
  injection Hf as <-. simpl.
  repeat split; try reflexivity; [exact Hsmall|].
  apply tokenize_length_bound.
Qed.

(** X14: the documents of a built index are, in the order of the files,
    the files that could be opened and are not larger than 100 MiB, up to
    the file at which the vocabulary passed 200000 words: each with the
    last component of its path as name, its bytes as content and the
    number of its tokens, which is at most 100000. *)
Theorem documents_are_the_files_read (files : list InputFile) :
  let ix := build_from_files files in
  (exists n : nat, docs ix = omap document_of (take n files))
  /\ (Z.of_nat (size (idx ix)) <= 200000 -> docs ix = omap document_of files)
  /\ Forall (fun d =>
               filename d = basename (filepath d)
               /\ fileSize d = slen (full_content d)
               /\ fileSize d <= 100 * 1024 * 1024
               /\ totalTokens d
                  = Z.of_nat (length (tokenize_ultrafast (full_content d)))
               /\ totalTokens d <= 100000)
            (docs ix).
Proof.
  cbv zeta. destruct (documents_fields files) as [(n & Hdocs & Hend) Hall].
  split; [eauto|]. split; [|exact Hall].
  intros Hsize. destruct Hend as [->|Hstop]; [|lia].
  now rewrite take_ge in Hdocs by lia.
Qed.

(** X17: [total_words_processed] is the number of tokens of all the
    documents of the index, as long as that number fits in an [int]. *)
Theorem total_words_processed_counts_tokens (files : list InputFile) :
  let ix := build_from_files files in
  sum_tokens (docs ix) <= INT_MAX ->
  total_words_processed ix = sum_tokens (docs ix).
Proof.
  cbv zeta. intros Hfit.
  assert (Hnonneg : 0 <= sum_tokens (docs (build_from_files files))).
  { destruct (documents_fields files) as [_ Hall].
    apply sum_tokens_nonneg. eapply Forall_impl; [exact Hall|].
    simpl. intros d (_ & _ & _ & Htok & _). lia. }
  rewrite <- (to_int_small (sum_tokens (docs (build_from_files files))))
    by (unfold INT_MAX in Hfit; lia).
  destruct files as [|f rest]; [reflexivity|].
  apply (ingest_total (f :: rest)). reflexivity.
Qed.

(** *** The name of a document *)

Lemma all_of_snoc (f : ascii -> bool) (s : string) (c : ascii) :
  all_of f (s +:+ String c EmptyString) = all_of f s && f c.
Proof. rewrite all_of_app. simpl. now rewrite andb_true_r. Qed.

Lemma basename_from_spec (path : string) : forall dir seen,
  all_of (fun c => negb (is_separator c)) seen = true ->
  exists dir',
    dir +:+ seen +:+ path
    = dir' +:+ basename_from path (seen +:+ path)
    /\ all_of (fun c => negb (is_separator c))
              (basename_from path (seen +:+ path)) = true
    /\ (dir' = dir
        \/ exists d c, dir' = d +:+ String c EmptyString
                       /\ is_separator c = true).
Proof.
  induction path as [|c rest IH]; intros dir seen Hseen.
  - exists dir. simpl. rewrite app_nil_r_string. auto.
  - cbn [basename_from]. fold (is_separator c).
    destruct (is_separator c) eqn:Hc.
    + destruct (IH (dir +:+ seen +:+ String c EmptyString) EmptyString
                   eq_refl) as (dir' & Heq & Hname & Hdir).
      rewrite !app_nil_l_string in *.
      exists dir'. split; [|split; [exact Hname|]].
      * rewrite <- Heq. rewrite !app_assoc_string. reflexivity.
      * right. destruct Hdir as [->|Hdir]; [|exact Hdir].
        exists (dir +:+ seen), c. rewrite app_assoc_string. auto.
    + destruct (IH dir (seen +:+ String c EmptyString)) as (dir' & Heq & Hname & Hdir).
      { now rewrite all_of_snoc, Hseen, Hc. }
      rewrite !app_assoc_string in *. simpl in *.
      exists dir'. auto.
Qed.

(** X15: the name of a document is the part of its path behind the last
    slash or backslash, the whole path when there is none; it holds no
    slash and no backslash. *)
Theorem basename_is_last_component (path : string) :
  exists dir,
    path = dir +:+ basename path
    /\ all_of (fun c => negb (is_separator c)) (basename path) = true
    /\ (dir = EmptyString
        \/ exists d c, dir = d +:+ String c EmptyString
                       /\ is_separator c = true).
Proof.
  destruct (basename_from_spec path EmptyString EmptyString eq_refl)
    as (dir' & Heq & Hname & Hdir).
  rewrite !app_nil_l_string in *. exists dir'. auto.
Qed.

(** *** The length sort *)

Lemma exchange_pass_min (rest : list string) : forall x,
  slen (fst (exchange_pass x rest)) <= slen x
  /\ Forall (fun y => slen (fst (exchange_pass x rest)) <= slen y)
            (snd (exchange_pass x rest)).
Proof.
  induction rest as [|y rest IH]; intros x; simpl; [split; [lia|constructor]|].
  destruct (Z.ltb_spec (slen y) (slen x)) as [Hlt|Hge].
  - destruct (IH y) as [Hle Hall].
    destruct (exchange_pass y rest) as [x' r]. simpl in *.
    split; [lia|]. constructor; [lia|exact Hall].
  - destruct (IH x) as [Hle Hall].
    destruct (exchange_pass x rest) as [x' r]. simpl in *.
    split; [lia|]. constructor; [lia|exact Hall].
Qed.

Lemma exchange_sort_sorted (fuel : nat) : forall l,
  (length l <= fuel)%nat -> StronglySorted shorter (exchange_sort fuel l).
Proof.
  induction fuel as [|fuel IH]; intros [|x rest] Hlen; simpl in *;
    try constructor; try lia.
  destruct (exchange_pass_spec rest x) as [_ Hlen'].
  destruct (exchange_pass_min rest x) as [_ Hmin].
  destruct (exchange_pass x rest) as [x' rest']. simpl in *.
  constructor; [apply IH; lia|].
  rewrite (exchange_sort_Permutation fuel rest').
  eapply Forall_impl; [exact Hmin|].
  unfold shorter, slen. simpl. intros y Hy. lia.
Qed.

(** X18: the hand-written exchange sort puts the words of the vocabulary
    in order of length, shortest first, and neither loses nor adds a
    word. *)
Theorem sort_by_length_sorts (words : list string) :
  StronglySorted shorter (sort_by_length words)
  /\ Permutation (sort_by_length words) words.
Proof.
  split; [|apply sort_by_length_Permutation].
  unfold sort_by_length. now apply exchange_sort_sorted.
Qed.

(** *** The words of the trie *)

Lemma contains_empty (w : string) :
  UltraFastTrie.contains UltraFastTrie.empty w = false.
Proof. apply stored_new_node. Qed.

Lemma contains_foldl_trie_step (words : list string) (w : string) :
  forall tr,
    well_formed (UltraFastTrie.root tr) ->
    UltraFastTrie.contains (foldl trie_step tr words) w = true
    <-> UltraFastTrie.contains tr w = true
        \/ (In w words /\ 2 <= slen w <= 20 /\ letters_only w = true).
Proof.
  induction words as [|w' rest IH]; intros tr Hwf; cbn [foldl].
  - simpl. tauto.
  - rewrite IH by now apply trie_step_shape.
    unfold trie_step.
    destruct (Z.leb_spec 2 (slen w')) as [Hlo|Hlo]; cbn [andb].
    2:{ simpl. split; [tauto|]. intros [Hc|([->|Hin] & Hlen & Hl)]; auto; lia. }
    destruct (Z.leb_spec (slen w') 20) as [Hhi|Hhi].
    2:{ simpl. split; [tauto|]. intros [Hc|([->|Hin] & Hlen & Hl)]; auto; lia. }
    rewrite contains_insert by exact Hwf.
    rewrite orb_true_iff, andb_true_iff. unfold insertable.
    rewrite !andb_true_iff, Z.leb_le, Z.leb_le. simpl.
    split.
    + intros [[Hc|(Heq & (Hl & _) & _)]|(Hin & Hlen & Hl)]; auto.
      apply String.eqb_eq in Heq. subst w'. right. auto.
    + intros [Hc|([->|Hin] & Hlen & Hl)]; auto.
      left. right. rewrite String.eqb_refl. repeat split; auto; lia.
Qed.

Lemma index_term_is_word (files : list InputFile) (t : string) :
  is_Some (idx (build_from_files files) !! t) -> word_ok t.
Proof.
  intros Hkey.
  apply index_key_iff in Hkey as (d & _ & Ht).
  assert (Hall : Forall word_ok (tokenize_ultrafast (full_content d))).
  { destruct (full_content d) as [|c rest]; [constructor|].
    now apply tokenize_scan_words. }
  rewrite Forall_forall in Hall. apply Hall. now apply list_elem_of_In.
Qed.

Lemma trie_words_are_terms (files : list InputFile) (w : string) :
  UltraFastTrie.contains (trie (build_from_files files)) w = true ->
  is_Some (idx (build_from_files files) !! w) /\ letters_only w = true.
Proof.
  destruct files as [|f rest];
    [simpl; rewrite contains_empty; discriminate|].
  intros Hc.
  change (trie (build_from_files (f :: rest)))
    with (build_trie
            (sort_by_length
               (unique_words_vec
                  (b_vocabulary
                     (ingest (f :: rest)
                        (mkBuildState ∅ [] (mkVocabulary ∅ []) 0 0))))))
    in Hc.
  unfold build_trie in Hc.
  apply contains_foldl_trie_step in Hc; [|apply well_formed_new_node].
  destruct Hc as [Hc|(Hin & _ & Hl)];
    [rewrite contains_empty in Hc; discriminate|].
  split; [|exact Hl].
  apply (Permutation_in _ (sort_by_length_Permutation _)) in Hin.
  now apply (ingest_exact (f :: rest) _ vocabulary_exact_initial) in Hin.
Qed.

Lemma letter_terms_are_trie_words (files : list InputFile) (w : string) :
  is_Some (idx (build_from_files files) !! w) -> letters_only w = true ->
  UltraFastTrie.contains (trie (build_from_files files)) w = true.
Proof.
  intros Hkey Hl.
  pose proof (word_ok_slen _ (index_term_is_word files w Hkey)) as Hlen.
  destruct files as [|f rest];
    [simpl in Hkey; rewrite lookup_empty in Hkey; now destruct Hkey|].
  change (trie (build_from_files (f :: rest)))
    with (build_trie
            (sort_by_length
               (unique_words_vec
                  (b_vocabulary
                     (ingest (f :: rest)
                        (mkBuildState ∅ [] (mkVocabulary ∅ []) 0 0)))))).
  unfold build_trie.
  apply contains_foldl_trie_step; [apply well_formed_new_node|].
  right. split; [|split; [lia|exact Hl]].
  apply (Permutation_in _
           (Permutation_sym (sort_by_length_Permutation _))).
  now apply (ingest_exact (f :: rest) _ vocabulary_exact_initial).
Qed.

(** X19: the trie of a built index stores exactly the terms of the index
    that are made of the letters a to z. *)
Theorem trie_stores_the_letter_terms (files : list InputFile) (w : string) :
  UltraFastTrie.contains (trie (build_from_files files)) w = true
  <-> is_Some (idx (build_from_files files) !! w)
      /\ letters_only w = true.
Proof.
  split; [apply trie_words_are_terms|].
  intros [Hkey Hletters]. now apply letter_terms_are_trie_words.
Qed.

End IndexMore.

Lemma total_words_processed_counts_tokens_witness :
  sum_tokens (HyperOptimizedIndex.docs
                (HyperOptimizedIndex.build_from_files sample_files))
  <= INT_MAX
  /\ HyperOptimizedIndex.total_words_processed
       (HyperOptimizedIndex.build_from_files sample_files)
     = sum_tokens (HyperOptimizedIndex.docs
                     (HyperOptimizedIndex.build_from_files sample_files)).
Proof.
  assert (Hfit : sum_tokens
                   (HyperOptimizedIndex.docs
                      (HyperOptimizedIndex.build_from_files sample_files))
                 <= INT_MAX) by (vm_compute; discriminate).
  split; [exact Hfit|].
  exact (total_words_processed_counts_tokens sample_files Hfit).
Defined.

(** ** The engine *)

Section EngineMore.
Context {F : Type} `{FloatOps F}.
Import HyperOptimizedIndex HyperFastSearchEngine.
Implicit Types (e : HyperFastSearchEngine.t F) (query : string).

(** *** What the ranking reads of an engine *)

Lemma scoring_pass_ext e e' term_idf m exact_phrase_docs
    (qtokens : list string) : forall sc,
  same_index e e' ->
  scoring_pass e term_idf m exact_phrase_docs qtokens sc
  = scoring_pass e' term_idf m exact_phrase_docs qtokens sc.
Proof.
  intros sc (Hidx & _ & Hdocs & _). revert sc.
  assert (Hadd : forall idfv,
            add_posting (F := F) (index e) idfv m exact_phrase_docs
            = add_posting (index e') idfv m exact_phrase_docs).
  { intros idfv. unfold add_posting, base_score, head_totalTokens.
    now rewrite Hdocs. }
  induction qtokens as [|term rest IH]; intros sc; simpl; [reflexivity|].
  rewrite <- Hidx.
  destruct (idx (index e) !! term); [|apply IH].
  rewrite Hadd. apply IH.
Qed.

Lemma rank_ext e e' query (qtokens : list string) :
  same_index e e' -> rank e query qtokens = rank e' query qtokens.
Proof.
  intros Hsame. pose proof Hsame as (Hidx & Hdf & Hdocs & Hn).
  unfold rank.
  assert (Hidf : build_term_idf e qtokens = build_term_idf e' qtokens).
  { unfold build_term_idf. generalize (∅ : gmap string F).
    induction qtokens as [|term rest IH]; intros acc; simpl; [reflexivity|].
    rewrite IH. unfold idf. now rewrite Hdf, Hn. }
  rewrite Hidf, (scoring_pass_ext e e') by exact Hsame.
  rewrite Hdocs.
  assert (Hnorm : forall m docID (score : F),
            normalize (index e) m docID score
            = normalize (index e') m docID score).
  { intros. unfold normalize, head_totalTokens. now rewrite Hdocs. }
  f_equal. f_equal.
  apply map_eq. intros docID. rewrite !map_lookup_imap.
  destruct (doc_scores _ !! docID); simpl; [|reflexivity].
  now rewrite Hnorm.
Qed.

Lemma uncached_page_ext e e' query (page size : Z) :
  same_index e e' ->
  uncached_page e query page size = uncached_page e' query page size.
Proof.
  intros Hsame. pose proof Hsame as (_ & _ & Hdocs & Hn).
  unfold uncached_page. rewrite Hn, Hdocs.
  destruct (Ndocs e' =? 0); [reflexivity|].
  destruct (tokenize_ultrafast (toLowerFast query)) as [|tok toks];
    [reflexivity|].
  destruct (docs (index e')) as [|d ds]; [reflexivity|].
  now rewrite (rank_ext e e').
Qed.

Lemma ranked_list_ext e e' query :
  same_index e e' -> ranked_list e query = ranked_list e' query.
Proof.
  intros Hsame. pose proof Hsame as (_ & _ & Hdocs & Hn).
  unfold ranked_list. rewrite Hn, Hdocs.
  destruct (Ndocs e' =? 0); [reflexivity|].
  destruct (tokenize_ultrafast (toLowerFast query)) as [|tok toks];
    [reflexivity|].
  destruct (docs (index e')) as [|d ds]; [reflexivity|].
  now rewrite (rank_ext e e').
Qed.

Lemma cache_coherent_ext e e' :
  same_index e e' -> search_cache_head e = search_cache_head e' ->
  cache_coherent e -> cache_coherent e'.
Proof.
  intros Hsame Hcache Hco entry Hin. rewrite <- Hcache in Hin.
  destruct (Hco entry Hin) as (q & p & n & Hkey & Hval).
  exists q, p, n. split; [exact Hkey|].
  now rewrite <- (uncached_page_ext e e').
Qed.

(** *** Engines that serve a list of files *)

Lemma serves_index_folder e (files : list InputFile) :
  files <> [] -> serves (index_folder e files) files.
Proof.
  intros Hfiles. destruct files as [|f rest]; [congruence|].
  unfold serves, index_folder. cbn [index Ndocs search_cache_head].
  repeat split.
  - intros entry Hin. rewrite (proj2 (trie_shape (f :: rest))) in Hin.
    destruct Hin.
  - intros entry [].
Qed.

Lemma search_with_ranking_uncached e query (page size : Z) results e' :
  cache_coherent e ->
  search_with_ranking e query page size = Some (results, e') ->
  uncached_page e query page size = Some results
  /\ (e' = e \/ e' = insert_in_cache e (cache_key query page size) results).
Proof.
  intros Hco Hrun.
  destruct (find_in_cache e (cache_key query page size)) as [found|] eqn:Hfind.
  - unfold search_with_ranking in Hrun. rewrite Hfind in Hrun.
    injection Hrun as <- <-.
    split; [now apply cache_hit_is_uncached_page|now left].
  - rewrite (search_with_ranking_miss _ _ _ _ Hfind) in Hrun.
    destruct (uncached_page e query page size) as [r|]; [|discriminate].
    injection Hrun as <- <-. auto.
Qed.

Lemma serves_search e (files : list InputFile) query (page size : Z)
    results e' :
  serves e files ->
  search_with_ranking e query page size = Some (results, e') ->
  serves e' files.
Proof.
  intros Hserves Hrun.
  pose proof Hserves as (Hidx & Hdf & Hdocs & Hroot & Htrie & Hn & Hco).
  destruct (search_with_ranking_uncached _ _ _ _ _ _ Hco Hrun)
    as [Hpage [-> | ->]]; [exact Hserves|].
  unfold serves. cbn [index Ndocs insert_in_cache].
  repeat (split; [assumption|]).
  now apply cache_coherent_insert.
Qed.

Lemma serves_autocomplete e (files : list InputFile) prefix (limit : Z) :
  serves e files -> serves (snd (autocomplete e prefix limit)) files.
Proof.
  intros (Hidx & Hdf & Hdocs & Hroot & Htrie & Hn & Hco).
  unfold autocomplete.
  destruct (starts_with_coherent (trie (index e)) (toLowerFast prefix) limit
              Htrie) as (_ & Hroot' & Htrie').
  destruct (UltraFastTrie.starts_with (trie (index e)) (toLowerFast prefix)
              limit) as [found trie'].
  cbn [fst snd] in *. unfold serves. cbn [index Ndocs trie idx docFreq docs].
  split; [exact Hidx|]. split; [exact Hdf|]. split; [exact Hdocs|].
  split; [congruence|]. split; [exact Htrie'|]. split; [exact Hn|].
  apply (cache_coherent_ext e); [|reflexivity|exact Hco].
  repeat split.
Qed.

(** X20: [index_folder] on a list of files that is not empty gives an
    engine that serves these files, and every search that returns and
    every completion leaves an engine that serves them: the index stays,
    and the two caches hold what the index gives. *)
Theorem engine_keeps_serving e (files : list InputFile) :
  (forall e0 : HyperFastSearchEngine.t F,
      files <> [] -> serves (index_folder e0 files) files)
  /\ (serves e files ->
      (forall query page size results e',
          search_with_ranking e query page size = Some (results, e') ->
          serves e' files)
      /\ (forall prefix limit,
             serves (snd (autocomplete e prefix limit)) files)).
Proof.
  split; [intros e0; apply serves_index_folder|].
  intros Hserves. split.
  - intros query page size results e'. now apply serves_search.
  - intros prefix limit. now apply serves_autocomplete.
Qed.

(** *** The documents a search returns *)

Lemma mapM_vector_at_Some {A : Type} (raw : list A) (start len : Z)
    (r : list A) :
  mapM (vector_at raw) (seqZ start len) = Some r ->
  exists (i n : nat), r = take n (drop i raw).
Proof.
  intros Hmap.
  destruct (Z.le_gt_cases len 0) as [Hempty|Hpos].
  - rewrite seqZ_nil in Hmap by lia. injection Hmap as <-.
    exists O, O. now rewrite take_0.
  - apply mapM_Some in Hmap.
    assert (Hfirst : 0 <= start).
    { assert (Hlook : seqZ start len !! O = Some start)
        by (rewrite lookup_seqZ; lia).
      destruct (Forall2_lookup_l _ _ _ _ _ Hmap Hlook) as (x & _ & Hx).
      unfold vector_at in Hx.
      destruct (Z.ltb_spec start 0); [discriminate|lia]. }
    assert (Hlast : start + len <= Z.of_nat (length raw)).
    { assert (Hlook : seqZ start len !! Z.to_nat (len - 1)
                      = Some (start + (len - 1)))
        by (rewrite lookup_seqZ; lia).
      destruct (Forall2_lookup_l _ _ _ _ _ Hmap Hlook) as (x & _ & Hx).
      unfold vector_at in Hx.
      destruct (Z.ltb_spec (start + (len - 1)) 0); [discriminate|].
      apply lookup_lt_Some in Hx. lia. }
    apply mapM_Some in Hmap.
    rewrite (mapM_vector_at_seqZ raw start len Hfirst Hlast) in Hmap.
    injection Hmap as <-. eauto.
Qed.

Lemma uncached_page_is_slice e query (page size : Z) results :
  uncached_page e query page size = Some results ->
  exists (i n : nat), results = take n (drop i (ranked_list e query)).
Proof.
  unfold uncached_page, ranked_list.
  assert (Hnil : Some (@nil (RankedDoc.t F)) = Some results ->
            exists (i n : nat), results = take n (drop i [])).
  { intros [= <-]. exists O, O. reflexivity. }
  destruct (Ndocs e =? 0); [exact Hnil|].
  destruct (tokenize_ultrafast (toLowerFast query)) as [|tok toks];
    [exact Hnil|].
  destruct (docs (index e)) as [|d ds]; [exact Hnil|].
  unfold page_slice. apply mapM_vector_at_Some.
Qed.

Lemma foldl_add_posting_keys (ix : HyperOptimizedIndex.t) (idfv : F) m
    exact_phrase_docs (postings : list Posting.t) (docID : Z) : forall sc,
  is_Some (doc_scores (foldl (add_posting ix idfv m exact_phrase_docs)
                             sc postings) !! docID) ->
  is_Some (doc_scores sc !! docID)
  \/ exists p, In p postings /\ Posting.docID p = docID.
Proof.
  induction postings as [|p rest IH]; intros sc; simpl; [auto|].
  intros Hkey. apply IH in Hkey as [Hkey|(p' & Hin & Hp')]; [|eauto].
  unfold add_posting in Hkey. cbn [doc_scores] in Hkey.
  destruct (decide (Posting.docID p = docID)) as [Heq|Hne]; [eauto|].
  rewrite lookup_insert_ne in Hkey by exact Hne. auto.
Qed.

Lemma scoring_pass_keys e term_idf m exact_phrase_docs
    (qtokens : list string) (docID : Z) : forall sc,
  is_Some (doc_scores (scoring_pass e term_idf m exact_phrase_docs
                                    qtokens sc) !! docID) ->
  is_Some (doc_scores sc !! docID)
  \/ exists term postings p,
       In term qtokens /\ idx (index e) !! term = Some postings
       /\ In p postings /\ Posting.docID p = docID.
Proof.
  induction qtokens as [|term rest IH]; intros sc; simpl; [auto|].
  destruct (idx (index e) !! term) as [postings|] eqn:Hlook.
  - intros Hkey.
    apply IH in Hkey as [Hkey|(t' & ps & p & Hin & Hps & Hp)].
    + apply foldl_add_posting_keys in Hkey as [Hkey|(p & Hin & Hp)]; [auto|].
      right. exists term, postings, p. auto.
    + right. exists t', ps, p. auto.
  - intros Hkey. apply IH in Hkey as [Hkey|(t' & ps & p & Hin & Hps & Hp)];
      [auto|].
    right. exists t', ps, p. auto.
Qed.

Lemma ranked_list_postings e query rd :
  In rd (ranked_list e query) ->
  exists term postings p,
    In term (tokenize_ultrafast (toLowerFast query))
    /\ idx (index e) !! term = Some postings
    /\ In p postings /\ Posting.docID p = RankedDoc.docID rd.
Proof.
  unfold ranked_list.
  destruct (Ndocs e =? 0); [intros []|].
  destruct (tokenize_ultrafast (toLowerFast query)) as [|tok toks] eqn:Htok;
    [intros []|].
  destruct (docs (index e)) as [|d ds]; [intros []|].
  intros Hin.
  apply (Permutation_in _ (std_sort_Permutation _ _)) in Hin.
  apply In_gathered in Hin as [Hscore _].
  unfold rank in Hscore. cbn [r_scores doc_scores] in Hscore.
  rewrite map_lookup_imap in Hscore.
  match type of Hscore with
  | context [doc_scores ?sc !! _] =>
      assert (Hkey : is_Some (doc_scores sc !! RankedDoc.docID rd))
  end.
  { destruct (doc_scores _ !! RankedDoc.docID rd); [eauto|discriminate]. }
  apply scoring_pass_keys in Hkey as [Hkey|Hkey]; [|exact Hkey].
  cbn [doc_scores] in Hkey. rewrite lookup_empty in Hkey. now destruct Hkey.
Qed.

Lemma posting_of_Some (docId : Z) (t : string) (tokens : list string)
    (p : Posting.t) :
  posting_of docId t tokens = Some p ->
  Posting.docID p = docId /\ In t tokens.
Proof.
  unfold posting_of. intros Hp.
  assert (Hocc : occurrences t tokens 0 <> []).
  { destruct (occurrences t tokens 0); [discriminate|discriminate]. }
  split; [|now apply (occurrences_In t tokens 0)].
  destruct (occurrences t tokens 0); [discriminate|].
  now injection Hp as <-.
Qed.

Lemma built_posting_document (files : list InputFile) (t : string)
    (postings : list Posting.t) (p : Posting.t) :
  idx (build_from_files files) !! t = Some postings -> In p postings ->
  document_holds (docs (build_from_files files)) (Posting.docID p) t.
Proof.
  intros Hlook Hin. rewrite build_from_files_is in Hlook.
  assert (Hin' : In p (postings_from t (docs (build_from_files files)) 0)).
  { destruct (postings_from t _ 0); [discriminate|].
    now injection Hlook as <-. }
  apply In_postings_from in Hin' as (k & d & Hk & Hp).
  apply posting_of_Some in Hp as [Hid Ht].
  unfold document_holds. rewrite Hid. split; [lia|].
  exists d. split; [|exact Ht].
  now replace (Z.to_nat (0 + Z.of_nat k)) with k by lia.
Qed.

Lemma NoDup_ranked_list e query :
  NoDup (map RankedDoc.docID (ranked_list e query)).
Proof.
  unfold ranked_list.
  destruct (Ndocs e =? 0); [constructor|].
  destruct (tokenize_ultrafast (toLowerFast query)) as [|tok toks];
    [constructor|].
  destruct (docs (index e)) as [|d ds]; [constructor|].
  set (r := rank e query (tok :: toks)).
  assert (Hids : Permutation (map RankedDoc.docID (sorted_results r))
                             (map RankedDoc.docID (gathered r)))
    by (apply Permutation_map, std_sort_Permutation).
  rewrite Hids. apply NoDup_omap_gather. apply NoDup_fst_map_to_list.
Qed.

Lemma search_results_hold_terms e (files : list InputFile)
    query (page size : Z) results e' :
  serves e files ->
  search_with_ranking e query page size = Some (results, e') ->
  forall rd, In rd results ->
    exists t, In t (tokenize_ultrafast (toLowerFast query))
              /\ document_holds (docs (build_from_files files))
                                (RankedDoc.docID rd) t.
Proof.
  intros (Hidx & _ & _ & _ & _ & _ & Hco) Hrun.
  destruct (search_with_ranking_uncached _ _ _ _ _ _ Hco Hrun) as [Hpage _].
  apply uncached_page_is_slice in Hpage as (i & n & ->).
  intros rd Hin%list_elem_of_In.
  apply elem_of_take in Hin as (j & Hj & _).
  rewrite lookup_drop in Hj. apply list_elem_of_lookup_2 in Hj.
  apply list_elem_of_In, ranked_list_postings in Hj
    as (term & postings & p & Hterm & Hlook & Hp & Hid).
  exists term. split; [exact Hterm|]. rewrite <- Hid.
  rewrite Hidx in Hlook.
  now apply (built_posting_document files term postings).
Qed.

(** X22: a search on an engine that serves a list of files returns no
    document twice, and every document it returns holds at least one of
    the terms of the query. *)
Theorem search_returns_matching_documents e (files : list InputFile)
    query (page size : Z) results e' :
  serves e files ->
  search_with_ranking e query page size = Some (results, e') ->
  NoDup (map RankedDoc.docID results)
  /\ forall rd, In rd results ->
       exists t, In t (tokenize_ultrafast (toLowerFast query))
                 /\ document_holds (docs (build_from_files files))
                                   (RankedDoc.docID rd) t.
Proof.
  intros Hserves Hrun.
  split; [|exact (search_results_hold_terms e files _ _ _ _ _ Hserves Hrun)].
  destruct Hserves as (_ & _ & _ & _ & _ & _ & Hco).
  destruct (search_with_ranking_uncached _ _ _ _ _ _ Hco Hrun) as [Hpage _].
  apply uncached_page_is_slice in Hpage as (i & n & ->).
  apply (sublist_NoDup _ (map RankedDoc.docID (ranked_list e query)));
    [apply NoDup_ranked_list|].
  apply (fmap_sublist RankedDoc.docID).
  etransitivity; [apply sublist_take|apply sublist_drop].
Qed.

(** *** Accessors *)

Lemma doc_at_inside (ds : list Document) : forall curr docID,
  curr <= docID ->
  doc_at ds curr docID = ds !! Z.to_nat (docID - curr).
Proof.
  induction ds as [|d rest IH]; intros curr docID Hle; simpl.
  - now rewrite lookup_nil.
  - destruct (Z.eqb_spec curr docID) as [->|Hne].
    + now rewrite Z.sub_diag.
    + rewrite IH by lia.
      replace (Z.to_nat (docID - curr)) with (S (Z.to_nat (docID - (curr + 1))))
        by lia.
      reflexivity.
Qed.

(** X29: for a document number in [0, N) the three accessors return the
    name, the path and the snippet of the document with that number in the
    order of indexing. *)
Theorem accessors_inside_range_return_document e
    (query_terms : list string) (docID : Z) (d : Document) :
  0 <= docID ->
  docs (index e) !! Z.to_nat docID = Some d ->
  filename_for e docID = filename d
  /\ filepath_for e docID = filepath d
  /\ get_snippet_for_doc e query_terms docID
     = get_snippet_improved (full_content d) query_terms.
Proof.
  intros Hpos Hlook.
  unfold filename_for, filepath_for, get_snippet_for_doc.
  rewrite doc_at_inside by exact Hpos. rewrite Z.sub_0_r, Hlook. auto.
Qed.

(** *** Pages outside the results *)

Lemma page_slice_no_size (raw : list (RankedDoc.t F)) (page size : Z) :
  1 <= page -> size <= 0 -> -2147483648 <= page * size ->
  page_slice raw page size = Some [].
Proof.
  intros Hpage Hsize Hfit. unfold page_slice.
  assert (Hstart : to_int (to_int (page - 1) * size) = (page - 1) * size).
  { destruct (Z.eq_dec size 0) as [->|Hne].
    - now rewrite !Z.mul_0_r.
    - rewrite (to_int_small (page - 1)) by nia.
      apply to_int_small. nia. }
  rewrite Hstart.
  rewrite (to_int_small ((page - 1) * size + size)) by nia.
  rewrite seqZ_nil; [reflexivity|]. lia.
Qed.

Lemma page_slice_no_page (raw : list (RankedDoc.t F)) (page size : Z) :
  page <= 0 -> 1 <= size ->
  -2147483648 <= (page - 1) * size ->
  page_slice raw page size = None.
Proof.
  intros Hpage Hsize Hfit. unfold page_slice.
  assert (Hp : -2147483648 <= page - 1 <= 2147483647) by nia.
  rewrite (to_int_small (page - 1)) by exact Hp.
  rewrite (to_int_small ((page - 1) * size)) by nia.
  rewrite (to_int_small ((page - 1) * size + size)) by nia.
  set (start := (page - 1) * size).
  assert (Hstart : start < 0) by (subst start; nia).
  assert (Hend : Z.min (start + size) (Z.of_nat (length raw)) = start + size)
    by (subst start; nia).
  rewrite Hend.
  replace (start + size - start) with size by lia.
  destruct (mapM (vector_at raw) (seqZ start size)) as [r|] eqn:Hmap;
    [|reflexivity].
  apply mapM_Some in Hmap.
  assert (Hlook : seqZ start size !! O = Some start)
    by (rewrite lookup_seqZ; lia).
  destruct (Forall2_lookup_l _ _ _ _ _ Hmap Hlook) as (x & _ & Hx).
  unfold vector_at in Hx.
  destruct (Z.ltb_spec start 0); [discriminate|lia].
Qed.

(** X25: on an engine whose cache holds what the index gives, and as long
    as the product named does not overflow an [int]: a search for a page
    of at least 1 with a page size of 0 or less, [page * size] being at
    least [INT_MIN], returns the empty page; a search for a page of 0 or
    less with a page size of at least 1, [(page - 1) * size] being at least
    [INT_MIN], reads in front of the vector of results, whatever their
    number, as soon as [Ndocs] is not 0, the query has a term and the index
    a document. *)
Theorem search_outside_the_pages e query (page size : Z) :
  cache_coherent e ->
  (1 <= page -> size <= 0 -> -2147483648 <= page * size ->
   exists e', search_with_ranking e query page size = Some ([], e'))
  /\ (page <= 0 -> 1 <= size -> -2147483648 <= (page - 1) * size ->
      Ndocs e <> 0 -> tokenize_ultrafast (toLowerFast query) <> [] ->
      docs (index e) <> [] ->
      search_with_ranking e query page size = None).
Proof.
  intros Hco. split.
  - intros Hfirst Hsize Hfit.
    assert (Hpage : uncached_page e query page size = Some []).
    { unfold uncached_page.
      destruct (Ndocs e =? 0); [reflexivity|].
      destruct (tokenize_ultrafast (toLowerFast query)); [reflexivity|].
      destruct (docs (index e)); [reflexivity|].
      now apply page_slice_no_size. }
    destruct (find_in_cache e (cache_key query page size)) as [found|] eqn:Hfind.
    + exists e. unfold search_with_ranking. rewrite Hfind.
      apply (cache_hit_is_uncached_page _ _ _ _ _ Hco) in Hfind.
      congruence.
    + rewrite (search_with_ranking_miss _ _ _ _ Hfind), Hpage. eauto.
  - intros Hpage Hsize Hfit Hn Htok Hdocs.
    assert (Hnone : uncached_page e query page size = None).
    { unfold uncached_page.
      destruct (Z.eqb_spec (Ndocs e) 0); [contradiction|].
      destruct (tokenize_ultrafast (toLowerFast query)); [contradiction|].
      destruct (docs (index e)); [contradiction|].
      now apply page_slice_no_page. }
    destruct (find_in_cache e (cache_key query page size)) as [found|] eqn:Hfind.
    + apply (cache_hit_is_uncached_page _ _ _ _ _ Hco) in Hfind. congruence.
    + now rewrite (search_with_ranking_miss _ _ _ _ Hfind), Hnone.
Qed.

(** *** The sizes of the caches *)

Lemma length_insert_in_cache {R : Type} (capacity : Z)
    (head : list (Cache.Entry R)) (k : string) (r : R) :
  1 <= capacity -> Z.of_nat (length head) <= capacity ->
  Z.of_nat (length (Cache.insert_in_cache capacity head k r)) <= capacity.
Proof.
  intros Hcap Hlen. unfold Cache.insert_in_cache.
  destruct (Z.leb_spec capacity (Z.of_nat (length head))) as [Hfull|Hroom].
  - destruct head as [|x head]; simpl in *; lia.
  - simpl. lia.
Qed.

(** X21: neither cache ever grows beyond 1000 entries: a completion and a
    search leave at most 1000 entries in a cache that held at most 1000. *)
Theorem caches_hold_at_most_1000_entries e (tr : UltraFastTrie.t)
    (prefix query : string) (limit page size : Z) :
  (Z.of_nat (length (UltraFastTrie.prefix_cache_head tr)) <= 1000 ->
   Z.of_nat (length (UltraFastTrie.prefix_cache_head
                       (snd (UltraFastTrie.starts_with tr prefix limit))))
   <= 1000)
  /\ (Z.of_nat (length (search_cache_head e)) <= 1000 ->
      forall results e',
        search_with_ranking e query page size = Some (results, e') ->
        Z.of_nat (length (search_cache_head e')) <= 1000).
Proof.
  split.
  - intros Hlen. unfold UltraFastTrie.starts_with.
    destruct (UltraFastTrie.find_in_cache tr _); [exact Hlen|].
    cbn [snd UltraFastTrie.insert_in_cache UltraFastTrie.prefix_cache_head].
    apply length_insert_in_cache; [unfold UltraFastTrie.max_cache_size; lia|].
    exact Hlen.
  - intros Hlen results e'. unfold search_with_ranking.
    assert (Hins : forall r,
              Z.of_nat (length (search_cache_head
                                  (insert_in_cache e
                                     (cache_key query page size) r))) <= 1000)
      by (intros r; apply length_insert_in_cache; [lia|exact Hlen]).
    destruct (find_in_cache e _); [now intros [= _ <-]|].
    destruct (Ndocs e =? 0); [intros [= _ <-]; apply Hins|].
    destruct (tokenize_ultrafast (toLowerFast query));
      [intros [= _ <-]; apply Hins|].
    destruct (docs (index e)); [intros [= _ <-]; apply Hins|].
    destruct (page_slice _ page size); [|discriminate].
    intros [= _ <-]. apply Hins.
Qed.

(** *** The flags of a result *)

Lemma exact_phrase_pass_spec (ds : list Document) (phrase : string)
    (d : Z) : forall (docID : Z) (found : gset Z),
  d ∈ exact_phrase_pass ds docID phrase found
  <-> d ∈ found
      \/ exists (k : nat) doc,
           ds !! k = Some doc /\ d = docID + Z.of_nat k
           /\ is_Some (find (toLowerFast (full_content doc)) phrase 0).
Proof.
  induction ds as [|doc rest IH]; intros docID found; simpl.
  - split; [auto|]. intros [Hin|(k & doc & Hk & _)]; [exact Hin|discriminate].
  - rewrite IH. split.
    + intros [Hin|(k & doc' & Hk & -> & Hfind)].
      * destruct (find (toLowerFast (full_content doc)) phrase 0) eqn:Hfind;
          [|auto].
        apply elem_of_union in Hin as [Hin%elem_of_singleton|Hin]; [|auto].
        right. exists O, doc. rewrite Hfind. split; [reflexivity|].
        split; [lia|eauto].
      * right. exists (S k), doc'. split; [exact Hk|]. split; [lia|exact Hfind].
    + intros [Hin|(k & doc' & Hk & -> & Hfind)].
      * left. destruct (find _ phrase 0); [|exact Hin].
        apply elem_of_union. now right.
      * destruct k as [|k]; simpl in Hk.
        -- injection Hk as ->. left. destruct Hfind as [pos ->].
           apply elem_of_union. left. apply elem_of_singleton. lia.
        -- right. exists k, doc'. split; [exact Hk|]. split; [lia|exact Hfind].
Qed.

Lemma term_title_score_Some (filename_lower term : string) :
  is_Some (term_title_score (F := F) filename_lower term)
  <-> (3 <= String.length term)%nat /\ is_Some (find filename_lower term 0).
Proof.
  unfold term_title_score.
  destruct (Nat.ltb_spec (String.length term) 3) as [Hshort|Hlong].
  - split; [intros [x Hx]; discriminate|lia].
  - destruct (find filename_lower term 0) as [pos|].
    + split; [eauto|]. intros _. eauto.
    + split; [intros [x Hx]; discriminate|].
      intros [_ [x Hx]]. discriminate.
Qed.

Lemma title_terms_hit (filename_lower : string) (qtokens : list string) :
  forall (title_score : F) (hit : bool),
    snd (title_terms filename_lower qtokens title_score hit) = true
    <-> hit = true
        \/ exists term, In term qtokens
                        /\ is_Some (term_title_score (F := F)
                                                     filename_lower term).
Proof.
  induction qtokens as [|term rest IH]; intros title_score hit; simpl.
  - split; [auto|]. intros [Hhit|(term & [] & _)]. exact Hhit.
  - destruct (term_title_score filename_lower term) as [term_score|] eqn:Hs.
    + rewrite IH. split; [|auto].
      intros _. right. exists term. rewrite Hs. eauto.
    + rewrite IH. split.
      * intros [Hhit|(t & Hin & Ht)]; [auto|]. right. eauto.
      * intros [Hhit|(t & [<-|Hin] & Ht)]; [auto| |right; eauto].
        rewrite Hs in Ht. now destruct Ht.
Qed.

Lemma title_pass_spec (ds : list Document) (qtokens : list string)
    (d : Z) : forall (docID : Z) (m : TitleMaps),
  has_title (title_pass ds docID qtokens m) d = true
  <-> has_title m d = true
      \/ exists (k : nat) doc term,
           ds !! k = Some doc /\ d = docID + Z.of_nat k
           /\ In term qtokens
           /\ is_Some (term_title_score (F := F)
                                        (toLowerFast (filename doc)) term).
Proof.
  induction ds as [|doc rest IH]; intros docID m; simpl.
  - split; [auto|]. intros [Hm|(k & doc & t & Hk & _)]; [exact Hm|discriminate].
  - pose proof (title_terms_hit (toLowerFast (filename doc)) qtokens
                  (f_lit 0) false) as Hhit.
    destruct (title_terms (toLowerFast (filename doc)) qtokens (f_lit 0) false)
      as [title_score hit].
    simpl in Hhit. rewrite IH. unfold has_title at 1. cbn [has_title_match].
    split.
    + intros [Hm|(k & doc' & t & Hk & -> & Hin & Ht)].
      * destruct hit.
        -- destruct (decide (docID = d)) as [<-|Hne].
           ++ right. destruct (proj1 Hhit eq_refl) as [|(t & Hin & Ht)];
                [discriminate|].
              exists O, doc, t. split; [reflexivity|]. split; [lia|auto].
           ++ rewrite lookup_insert_ne in Hm by exact Hne. now left.
        -- now left.
      * right. exists (S k), doc', t. split; [exact Hk|]. split; [lia|auto].
    + intros [Hm|(k & doc' & t & Hk & -> & Hin & Ht)].
      * left. destruct hit; [|exact Hm].
        destruct (decide (docID = d)) as [<-|Hne].
        -- now rewrite lookup_insert_eq.
        -- now rewrite lookup_insert_ne by exact Hne.
      * destruct k as [|k]; simpl in Hk.
        -- injection Hk as ->. left.
           assert (Hh : hit = true) by (apply Hhit; right; eauto).
           subst hit. rewrite Z.add_0_r. now rewrite lookup_insert_eq.
        -- right. exists k, doc', t. split; [exact Hk|]. split; [lia|auto].
Qed.

Lemma In_gathered_flags (r : Ranking F) rd :
  In rd (gathered r) ->
  RankedDoc.exactPhraseMatch rd
  = bool_decide (RankedDoc.docID rd ∈ r_exact_phrase_docs r)
  /\ RankedDoc.inTitle rd = has_title (r_titles r) (RankedDoc.docID rd).
Proof.
  unfold gathered. intros Hin%list_elem_of_In.
  apply list_elem_of_omap in Hin as ([docID s] & _ & Hg).
  unfold gather in Hg. simpl in Hg.
  destruct (fleb s _); [discriminate|]. now injection Hg as <-.
Qed.

(** X23: what the two flags of a result say: [exactPhraseMatch] is set
    exactly when the query has at least two terms and the lower-cased
    content of the document holds the lower-cased query, [inTitle] exactly
    when the lower-cased name of the document holds a term of the query
    that is at least 3 bytes long. *)
Theorem result_flags_say_what_matched e query rd :
  In rd (ranked_list e query) ->
  let qtokens := tokenize_ultrafast (toLowerFast query) in
  (RankedDoc.exactPhraseMatch rd = true
   <-> (2 <= length qtokens)%nat
       /\ 0 <= RankedDoc.docID rd
       /\ exists doc,
            docs (index e) !! Z.to_nat (RankedDoc.docID rd) = Some doc
            /\ is_Some (find (toLowerFast (full_content doc))
                             (toLowerFast query) 0))
  /\ (RankedDoc.inTitle rd = true
      <-> 0 <= RankedDoc.docID rd
          /\ exists doc term,
               docs (index e) !! Z.to_nat (RankedDoc.docID rd) = Some doc
               /\ In term qtokens /\ (3 <= String.length term)%nat
               /\ is_Some (find (toLowerFast (filename doc)) term 0)).
Proof.
  unfold ranked_list.
  destruct (Ndocs e =? 0); [intros []|].
  destruct (tokenize_ultrafast (toLowerFast query)) as [|tok toks] eqn:Htok;
    [intros []|].
  destruct (docs (index e)) as [|d0 ds0] eqn:Hdocs; [intros []|].
  rewrite <- Hdocs. clear Hdocs.
  intros Hin.
  apply (Permutation_in _ (std_sort_Permutation _ _)) in Hin.
  apply In_gathered_flags in Hin as [-> ->].
  unfold rank. cbn [r_exact_phrase_docs r_titles]. cbv zeta.
  set (d := RankedDoc.docID rd). split.
  - rewrite bool_decide_eq_true.
    destruct toks as [|tok2 toks].
    + cbn [length]. rewrite elem_of_empty. split; [tauto|lia].
    + rewrite exact_phrase_pass_spec, elem_of_empty. cbn [length]. split.
      * intros [[]|(k & doc & Hk & Hd & Hfind)].
        split; [lia|]. split; [lia|]. exists doc.
        split; [|exact Hfind].
        now replace (Z.to_nat d) with k by lia.
      * intros (_ & Hpos & doc & Hk & Hfind). right.
        exists (Z.to_nat d), doc. split; [exact Hk|]. split; [lia|exact Hfind].
  - rewrite title_pass_spec. unfold has_title at 1. cbn [has_title_match].
    rewrite lookup_empty. cbn [default from_option id]. split.
    + intros [Hfalse|(k & doc & term & Hk & Hd & Hterm & Hs)];
        [discriminate|].
      apply term_title_score_Some in Hs as [Hlen Hfind].
      split; [lia|]. exists doc, term.
      split; [now replace (Z.to_nat d) with k by lia|auto].
    + intros (Hpos & doc & term & Hk & Hterm & Hlen & Hfind). right.
      exists (Z.to_nat d), doc, term. split; [exact Hk|]. split; [lia|].
      split; [exact Hterm|]. apply term_title_score_Some. auto.
Qed.

(** *** Completion *)

Lemma autocomplete_completions e (files : list InputFile) prefix
    (limit : Z) :
  serves e files ->
  fst (autocomplete e prefix limit)
  = completions (UltraFastTrie.root (trie (build_from_files files)))
                (toLowerFast prefix) limit.
Proof.
  intros (_ & _ & _ & Hroot & Htrie & _). unfold autocomplete.
  destruct (starts_with_coherent (trie (index e)) (toLowerFast prefix) limit
              Htrie) as (Hfst & _ & _).
  destruct (UltraFastTrie.starts_with (trie (index e)) (toLowerFast prefix)
              limit) as [found trie'].
  cbn [fst] in *. now rewrite Hfst, Hroot.
Qed.

Lemma autocomplete_terms e (files : list InputFile) prefix (limit : Z) :
  serves e files ->
  forall w, In w (fst (autocomplete e prefix limit)) ->
    is_Some (idx (build_from_files files) !! w)
    /\ letters_only w = true
    /\ exists rest, w = toLowerFast prefix +:+ rest.
Proof.
  intros Hserves.
  rewrite (autocomplete_completions e files) by exact Hserves.
  destruct (completions_ok
              (UltraFastTrie.root (trie (build_from_files files)))
              (toLowerFast prefix) limit (proj1 (trie_shape files)))
    as (_ & _ & _ & Hwords).
  intros w Hw. destruct (Hwords w Hw) as [Hstored Hprefix].
  apply (trie_words_are_terms files w) in Hstored as [Hkey Hletters]. auto.
Qed.

(** X26: the suggestions of an engine that serves a list of files are
    terms of its index made of the letters a to z and beginning with the
    lower-cased prefix; there are at most [limit] of them, none twice,
    shorter ones first. *)
Theorem autocomplete_suggests_index_terms e (files : list InputFile)
    prefix (limit : Z) :
  serves e files ->
  let suggestions := fst (autocomplete e prefix limit) in
  Z.of_nat (length suggestions) <= Z.max 0 limit
  /\ NoDup suggestions
  /\ StronglySorted shorter suggestions
  /\ forall w, In w suggestions ->
       is_Some (idx (build_from_files files) !! w)
       /\ letters_only w = true
       /\ exists rest, w = toLowerFast prefix +:+ rest.
Proof.
  intros Hserves. cbv zeta.
  pose proof (autocomplete_terms e files prefix limit Hserves) as Hwords.
  rewrite (autocomplete_completions e files) in * by exact Hserves.
  destruct (completions_ok
              (UltraFastTrie.root (trie (build_from_files files)))
              (toLowerFast prefix) limit (proj1 (trie_shape files)))
    as (Hlimit & Hnodup & Hsorted & _).
  auto.
Qed.

(** *** Prefix search *)

(** X27: a prefix search on an engine that serves a list of files ranks
    the documents for the first five suggestions, and every document it
    returns holds a term that begins with the lower-cased prefix. *)
Theorem prefix_search_returns_documents_with_prefix e
    (files : list InputFile) prefix (expandLimit page size : Z) results e' :
  serves e files ->
  prefix_search_with_pagination e prefix expandLimit page size
  = Some (results, e') ->
  tokenize_ultrafast
    (toLowerFast
       (join_suggestions (fst (autocomplete e prefix expandLimit)) 0
                         EmptyString))
  = take 5 (fst (autocomplete e prefix expandLimit))
  /\ forall rd, In rd results ->
       exists rest,
         document_holds (docs (build_from_files files))
                        (RankedDoc.docID rd) (toLowerFast prefix +:+ rest).
Proof.
  intros Hserves Hrun.
  pose proof (autocomplete_terms e files prefix expandLimit Hserves)
    as Hwords.
  pose proof (serves_autocomplete e files prefix expandLimit Hserves)
    as Hserves'.
  unfold prefix_search_with_pagination in Hrun.
  destruct (autocomplete e prefix expandLimit) as [sug e1].
  cbn [fst snd] in *.
  assert (Hsug : Forall word_ok sug).
  { apply Forall_forall. intros w Hw%list_elem_of_In.
    destruct (Hwords w Hw) as (Hkey & _).
    exact (index_term_is_word files w Hkey). }
  pose proof (join_suggestions_tokens sug Hsug) as Htokens.
  split; [exact Htokens|].
  destruct sug as [|w0 sug'].
  - injection Hrun as <- _. intros rd [].
  - intros rd Hrd.
    destruct (search_results_hold_terms e1 files _ _ _ _ _ Hserves' Hrun rd Hrd)
      as (t & Ht & Hholds).
    rewrite Htokens in Ht.
    assert (Hin : In t (w0 :: sug')).
    { apply list_elem_of_In. apply list_elem_of_In in Ht.
      eapply elem_of_sublist; [exact Ht|apply sublist_take]. }
    destruct (Hwords t Hin) as (_ & _ & rest & ->). eauto.
Qed.

(** *** Case *)

Lemma ranked_list_case e query query' :
  toLowerFast query = toLowerFast query' ->
  ranked_list e query = ranked_list e query'.
Proof.
  intros Hcase. unfold ranked_list. rewrite Hcase.
  destruct (Ndocs e =? 0); [reflexivity|].
  destruct (tokenize_ultrafast (toLowerFast query')) as [|tok toks];
    [reflexivity|].
  destruct (docs (index e)) as [|d ds]; [reflexivity|].
  unfold rank. now rewrite Hcase.
Qed.

(** X24: a search does not see the case of the query: two queries with
    the same lower-cased form get the same page of results. *)
Theorem search_ignores_case e query query' (page size : Z) :
  cache_coherent e ->
  1 <= page -> 1 <= size -> page * size <= INT_MAX ->
  toLowerFast query = toLowerFast query' ->
  exists results e1 e2,
    search_with_ranking e query page size = Some (results, e1)
    /\ search_with_ranking e query' page size = Some (results, e2).
Proof.
  intros Hco Hpage Hsize Hfit Hcase.
  destruct (search_with_ranking_in_range e query page size Hco Hpage Hsize Hfit)
    as (e1 & Hrun1 & _).
  destruct (search_with_ranking_in_range e query' page size Hco Hpage Hsize
              Hfit) as (e2 & Hrun2 & _).
  rewrite (ranked_list_case e query query' Hcase) in Hrun1. eauto.
Qed.

(** *** The pages of a prefix search *)

Lemma total_count_in_range e (files : list InputFile) query :
  serves e files ->
  Z.of_nat (length (ranked_list e query)) <= INT_MAX ->
  exists e',
    get_total_results_count e query
    = Some (Z.of_nat (length (ranked_list e query)), e')
    /\ serves e' files.
Proof.
  intros Hserves Hlen. pose proof Hserves as (_ & _ & _ & _ & _ & _ & Hco).
  unfold get_total_results_count.
  destruct (Z.eqb_spec (Ndocs e) 0) as [Hzero|Hdocs].
  - exists e. split; [|exact Hserves].
    unfold ranked_list. now rewrite (proj2 (Z.eqb_eq _ _) Hzero).
  - destruct (search_with_ranking_in_range e query 1 INT_MAX Hco)
      as (e' & Hrun & _); [unfold INT_MAX; lia..|].
    rewrite Hrun, page_of_all by exact Hlen.
    exists e'. split; [reflexivity|].
    exact (serves_search e files _ _ _ _ _ Hserves Hrun).
Qed.

(** X28: the pages of a prefix search are slices of one list, the ranked
    list of the query made of the first five suggestions, and
    [get_prefix_total_results_count] returns the length of that list;
    without suggestions the list is empty. *)
Theorem prefix_search_pages_one_list e (files : list InputFile) prefix
    (expandLimit page size : Z) :
  serves e files ->
  1 <= page -> 1 <= size -> page * size <= INT_MAX ->
  let sug := fst (autocomplete e prefix expandLimit) in
  let ranked :=
    match sug with
    | [] => []
    | _ => ranked_list e (join_suggestions sug 0 EmptyString)
    end in
  (exists e',
      prefix_search_with_pagination e prefix expandLimit page size
      = Some (page_of ranked page size, e')
      /\ serves e' files)
  /\ (Z.of_nat (length ranked) <= INT_MAX ->
      exists e',
        get_prefix_total_results_count e prefix expandLimit
        = Some (Z.of_nat (length ranked), e')
        /\ serves e' files).
Proof.
  intros Hserves Hpage Hsize Hfit. cbv zeta.
  pose proof (serves_autocomplete e files prefix expandLimit Hserves)
    as Hserves'.
  assert (Hsame : same_index (snd (autocomplete e prefix expandLimit)) e).
  { unfold autocomplete.
    destruct (UltraFastTrie.starts_with _ _ _) as [found trie'].
    repeat split. }
  unfold prefix_search_with_pagination,
    get_prefix_total_results_count.
  destruct (autocomplete e prefix expandLimit) as [sug e1].
  cbn [fst snd] in *.
  destruct sug as [|w0 sug'].
  - rewrite page_of_nil. split; [eauto|]. intros _. simpl. eauto.
  - set (query := join_suggestions (w0 :: sug') 0 EmptyString).
    rewrite <- (ranked_list_ext e1 e query Hsame).
    pose proof Hserves' as (_ & _ & _ & _ & _ & _ & Hco).
    split.
    + destruct (search_with_ranking_in_range e1 query page size Hco
                  Hpage Hsize Hfit) as (e' & Hrun & _).
      exists e'. split; [exact Hrun|].
      exact (serves_search e1 files _ _ _ _ _ Hserves' Hrun).
    + intros Hlen. now apply total_count_in_range.
Qed.

End EngineMore.

Lemma serves_sample_engine : serves sample_engine sample_files.
Proof. apply (serves_index_folder new_engine sample_files). discriminate. Qed.

Lemma search_returns_matching_documents_witness :
  exists results e',
    (serves sample_engine sample_files
     /\ HyperFastSearchEngine.search_with_ranking sample_engine
          "Hello world" 1 10 = Some (results, e'))
    /\ NoDup (map RankedDoc.docID results)
    /\ forall rd, In rd results ->
         exists t, In t (tokenize_ultrafast (toLowerFast "Hello world"))
                   /\ document_holds
                        (HyperOptimizedIndex.docs
                           (HyperOptimizedIndex.build_from_files sample_files))
                        (RankedDoc.docID rd) t.
Proof.
  destruct (HyperFastSearchEngine.search_with_ranking sample_engine
              "Hello world" 1 10) as [[results e']|] eqn:Hrun;
    [|vm_compute in Hrun; discriminate].
  exists results, e'.
  split; [split; [exact serves_sample_engine|reflexivity]|].
  exact (search_returns_matching_documents sample_engine sample_files
           "Hello world" 1 10 results e' serves_sample_engine Hrun).
Defined.

Lemma accessors_inside_range_return_document_witness :
  exists d,
    (0 <= 1
     /\ HyperOptimizedIndex.docs (HyperFastSearchEngine.index sample_engine)
          !! Z.to_nat 1 = Some d)
    /\ HyperFastSearchEngine.filename_for sample_engine 1 = filename d
    /\ HyperFastSearchEngine.filepath_for sample_engine 1 = filepath d
    /\ HyperFastSearchEngine.get_snippet_for_doc sample_engine ["hello"] 1
       = get_snippet_improved (full_content d) ["hello"].
Proof.
  destruct (HyperOptimizedIndex.docs
              (HyperFastSearchEngine.index sample_engine) !! Z.to_nat 1)
    as [d|] eqn:Hlook; [|vm_compute in Hlook; discriminate].
  exists d.
  assert (Hpos : 0 <= 1) by lia.
  split; [split; [exact Hpos|reflexivity]|].
  exact (accessors_inside_range_return_document sample_engine ["hello"] 1 d
           Hpos Hlook).
Defined.

Lemma search_outside_the_pages_witness :
  cache_coherent sample_engine
  /\ ((1 <= 1 -> 0 <= 0 -> -2147483648 <= 1 * 0 ->
       exists e',
         HyperFastSearchEngine.search_with_ranking sample_engine "hello" 1 0
         = Some ([], e'))
      /\ (0 <= 0 -> 1 <= 10 -> -2147483648 <= (0 - 1) * 10 ->
          HyperFastSearchEngine.Ndocs sample_engine <> 0 ->
          tokenize_ultrafast (toLowerFast "hello") <> [] ->
          HyperOptimizedIndex.docs (HyperFastSearchEngine.index sample_engine)
          <> [] ->
          HyperFastSearchEngine.search_with_ranking sample_engine "hello" 0 10
          = None)).
Proof.
  split; [exact cache_coherent_sample_engine|].
  split.
  - exact (proj1 (search_outside_the_pages sample_engine "hello" 1 0
                    cache_coherent_sample_engine)).
  - exact (proj2 (search_outside_the_pages sample_engine "hello" 0 10
                    cache_coherent_sample_engine)).
Defined.

Lemma result_flags_say_what_matched_witness :
  exists rd,
    In rd (ranked_list sample_engine "hello world")
    /\ (let qtokens := tokenize_ultrafast (toLowerFast "hello world") in
        (RankedDoc.exactPhraseMatch rd = true
         <-> (2 <= length qtokens)%nat
             /\ 0 <= RankedDoc.docID rd
             /\ exists doc,
                  HyperOptimizedIndex.docs
                    (HyperFastSearchEngine.index sample_engine)
                    !! Z.to_nat (RankedDoc.docID rd) = Some doc
                  /\ is_Some (find (toLowerFast (full_content doc))
                                   (toLowerFast "hello world") 0))
        /\ (RankedDoc.inTitle rd = true
            <-> 0 <= RankedDoc.docID rd
                /\ exists doc term,
                     HyperOptimizedIndex.docs
                       (HyperFastSearchEngine.index sample_engine)
                       !! Z.to_nat (RankedDoc.docID rd) = Some doc
                     /\ In term qtokens /\ (3 <= String.length term)%nat
                     /\ is_Some (find (toLowerFast (filename doc)) term 0))).
Proof.
  assert (Hne : exists rd, In rd (ranked_list sample_engine "hello world")).
  { destruct (ranked_list sample_engine "hello world") as [|rd rest] eqn:Hlist;
      [vm_compute in Hlist; discriminate|].
    exists rd. now left. }
  destruct Hne as [rd Hin].
  exists rd.
  split; [exact Hin|].
  exact (result_flags_say_what_matched sample_engine "hello world" rd Hin).
Defined.

Lemma autocomplete_suggests_index_terms_witness :
  serves sample_engine sample_files
  /\ (let suggestions :=
        fst (HyperFastSearchEngine.autocomplete sample_engine "He" 10) in
      Z.of_nat (length suggestions) <= Z.max 0 10
      /\ NoDup suggestions
      /\ StronglySorted shorter suggestions
      /\ forall w, In w suggestions ->
           is_Some (HyperOptimizedIndex.idx
                      (HyperOptimizedIndex.build_from_files sample_files) !! w)
           /\ letters_only w = true
           /\ exists rest, w = toLowerFast "He" +:+ rest).
Proof.
  split; [exact serves_sample_engine|].
  exact (autocomplete_suggests_index_terms sample_engine sample_files "He" 10
           serves_sample_engine).
Defined.

Lemma prefix_search_returns_documents_with_prefix_witness :
  exists results e',
    (serves sample_engine sample_files
     /\ HyperFastSearchEngine.prefix_search_with_pagination
          sample_engine "He" 100 1 10
        = Some (results, e'))
    /\ tokenize_ultrafast
         (toLowerFast
            (join_suggestions
               (fst (HyperFastSearchEngine.autocomplete sample_engine "He" 100))
               0 EmptyString))
       = take 5
           (fst (HyperFastSearchEngine.autocomplete sample_engine "He" 100))
    /\ forall rd, In rd results ->
         exists rest,
           document_holds
             (HyperOptimizedIndex.docs
                (HyperOptimizedIndex.build_from_files sample_files))
             (RankedDoc.docID rd) (toLowerFast "He" +:+ rest).
Proof.
  destruct (HyperFastSearchEngine.prefix_search_with_pagination
              sample_engine "He" 100 1 10)
    as [[results e']|] eqn:Hrun; [|vm_compute in Hrun; discriminate].
  exists results, e'.
  split; [split; [exact serves_sample_engine|reflexivity]|].
  exact (prefix_search_returns_documents_with_prefix sample_engine sample_files
           "He" 100 1 10 results e' serves_sample_engine Hrun).
Defined.

Lemma search_ignores_case_witness :
  (cache_coherent sample_engine /\ 1 <= 1 /\ 1 <= 10 /\ 1 * 10 <= INT_MAX
   /\ toLowerFast "HELLO World" = toLowerFast "hello world")
  /\ exists results e1 e2,
       HyperFastSearchEngine.search_with_ranking sample_engine
         "HELLO World" 1 10 = Some (results, e1)
       /\ HyperFastSearchEngine.search_with_ranking sample_engine
            "hello world" 1 10 = Some (results, e2).
Proof.
  assert (Hpage : 1 <= 1) by lia.
  assert (Hsize : 1 <= 10) by lia.
  assert (Hfit : 1 * 10 <= INT_MAX) by (vm_compute; discriminate).
  assert (Hcase : toLowerFast "HELLO World" = toLowerFast "hello world")
    by reflexivity.
  split; [repeat split; auto; exact cache_coherent_sample_engine|].
  exact (search_ignores_case sample_engine "HELLO World" "hello world" 1 10
           cache_coherent_sample_engine Hpage Hsize Hfit Hcase).
Defined.

Lemma prefix_search_pages_one_list_witness :
  (serves sample_engine sample_files /\ 1 <= 1 /\ 1 <= 10
   /\ 1 * 10 <= INT_MAX)
  /\ (let sug :=
        fst (HyperFastSearchEngine.autocomplete sample_engine "he" 100) in
      let ranked :=
        match sug with
        | [] => []
        | _ => ranked_list sample_engine (join_suggestions sug 0 EmptyString)
        end in
      (exists e',
          HyperFastSearchEngine.prefix_search_with_pagination
            sample_engine "he" 100 1 10
          = Some (page_of ranked 1 10, e')
          /\ serves e' sample_files)
      /\ (Z.of_nat (length ranked) <= INT_MAX ->
          exists e',
            HyperFastSearchEngine.get_prefix_total_results_count
              sample_engine "he" 100
            = Some (Z.of_nat (length ranked), e')
            /\ serves e' sample_files)).
Proof.
  assert (Hpage : 1 <= 1) by lia.
  assert (Hsize : 1 <= 10) by lia.
  assert (Hfit : 1 * 10 <= INT_MAX) by (vm_compute; discriminate).
  split;
    [split; [exact serves_sample_engine|];
     split; [exact Hpage|]; split; [exact Hsize|exact Hfit]|].
  exact (prefix_search_pages_one_list sample_engine sample_files "he" 100 1 10
           serves_sample_engine Hpage Hsize Hfit).
Defined.

(** ** The queue, the page numbers, the scanner and the snippets *)

Section RingFacts.
Context {T : Type}.
Import FixedQueueRing.
Implicit Types (q : FixedQueueRing.t T) (x : T).

Lemma contents_length q :
  0 <= count q -> Z.of_nat (length (contents q)) = count q.
Proof. intros Hc. unfold contents. rewrite length_map, length_seq. lia. Qed.

Lemma mod_1024_distinct (a i j : Z) :
  0 <= i < j -> j < 1024 -> (a + i) mod 1024 <> (a + j) mod 1024.
Proof.
  intros Hi Hj Heq.
  assert (Hdiff : (a + j - (a + i)) mod 1024 = 0)
    by (rewrite Zminus_mod, Heq, Z.sub_diag; reflexivity).
  replace (a + j - (a + i)) with (j - i) in Hdiff by lia.
  rewrite Z.mod_small in Hdiff by lia. lia.
Qed.

Lemma push_contents q x :
  ring_ok q ->
  ring_ok (snd (push q x))
  /\ contents (snd (push q x)) = FixedQueue.push (contents q) x
  /\ fst (push q x) = negb (full q).
Proof.
  intros (Hfront & Hcount & Hrear).
  unfold push, FixedQueue.push, FixedQueue.full, full in *.
  rewrite contents_length by lia.
  unfold MAX_QUEUE_SIZE in *.
  destruct (Z.eqb_spec (count q) 1024) as [Hfull|Hroom]; cbn [fst snd negb].
  - repeat split; auto; unfold MAX_QUEUE_SIZE; lia.
  - assert (Hrear_range : 0 <= rear q < 1024)
      by (rewrite Hrear; apply Z.mod_pos_bound; lia).
    rewrite !to_int_small by lia.
    split; [|split; [|reflexivity]].
    + unfold ring_ok. cbn [front rear count]. unfold MAX_QUEUE_SIZE.
      split; [lia|]. split; [lia|].
      rewrite Z.rem_mod_nonneg by lia.
      rewrite Hrear, Zplus_mod_idemp_l. f_equal. lia.
    + unfold contents. cbn [front rear count arr]. unfold MAX_QUEUE_SIZE.
      replace (Z.to_nat (count q + 1)) with (Z.to_nat (count q) + 1)%nat
        by lia.
      rewrite seq_app, map_app. cbn [seq map]. f_equal.
      * apply map_ext_in. intros i Hi%in_seq.
        destruct (Z.eqb_spec ((front q + Z.of_nat i) mod 1024) (rear q))
          as [Heq|_]; [|reflexivity].
        exfalso. rewrite Hrear in Heq.
        apply (mod_1024_distinct (front q) (Z.of_nat i) (count q)); lia.
      * replace (Z.of_nat (0 + Z.to_nat (count q))) with (count q) by lia.
        rewrite <- Hrear. now rewrite Z.eqb_refl.
Qed.

Lemma pop_contents q :
  ring_ok q ->
  ring_ok (snd (pop q))
  /\ contents (snd (pop q)) = FixedQueue.pop (contents q)
  /\ fst (pop q) = negb (empty q)
  /\ head (contents q) = if empty q then None else Some (front_elem q).
Proof.
  intros (Hfront & Hcount & Hrear).
  unfold pop, FixedQueue.pop, empty, front_elem in *.
  unfold MAX_QUEUE_SIZE in *.
  destruct (Z.eqb_spec (count q) 0) as [Hempty|Hsome]; cbn [fst snd negb].
  - unfold contents. rewrite Hempty. simpl.
    repeat split; auto; unfold MAX_QUEUE_SIZE; lia.
  - assert (Hnext : 0 <= (front q + 1) mod 1024 < 1024)
      by (apply Z.mod_pos_bound; lia).
    rewrite !to_int_small by lia.
    assert (Hshape : contents q
                     = arr q (front q)
                       :: map (fun i => arr q ((front q + 1 + Z.of_nat i)
                                               mod 1024))
                              (seq 0 (Z.to_nat (count q - 1)))).
    { unfold contents, MAX_QUEUE_SIZE.
      replace (Z.to_nat (count q)) with (S (Z.to_nat (count q - 1))) by lia.
      cbn [seq map]. f_equal.
      - rewrite Z.add_0_r. now rewrite Z.mod_small by lia.
      - rewrite <- seq_shift, map_map. apply map_ext. intros i.
        f_equal. f_equal. lia. }
    split; [|split; [|split; [reflexivity|]]].
    + unfold ring_ok. cbn [front rear count]. unfold MAX_QUEUE_SIZE.
      rewrite Z.rem_mod_nonneg by lia.
      split; [lia|]. split; [lia|].
      rewrite Hrear, Zplus_mod_idemp_l. f_equal. lia.
    + rewrite Hshape. cbn [tail].
      unfold contents. cbn [front rear count arr]. unfold MAX_QUEUE_SIZE.
      rewrite Z.rem_mod_nonneg by lia.
      apply map_ext. intros i. now rewrite Zplus_mod_idemp_l.
    + now rewrite Hshape.
Qed.

(** X1: the ring buffer is a first-in first-out queue of at most 1024
    elements: read from [front] to [rear] it is a list to which [push] adds
    at the end, unless there are 1024 elements already, and from which
    [pop] removes the first element, which is the one [front_elem]
    reads. *)
Theorem ring_buffer_is_bounded_queue q x :
  ring_ok q ->
  (ring_ok (init q) /\ contents (init q) = FixedQueue.init)
  /\ empty q = FixedQueue.empty (contents q)
  /\ full q = FixedQueue.full (contents q)
  /\ (ring_ok (snd (push q x))
      /\ contents (snd (push q x)) = FixedQueue.push (contents q) x
      /\ fst (push q x) = negb (full q))
  /\ (ring_ok (snd (pop q))
      /\ contents (snd (pop q)) = FixedQueue.pop (contents q)
      /\ fst (pop q) = negb (empty q)
      /\ head (contents q) = if empty q then None else Some (front_elem q)).
Proof.
  intros Hq. pose proof Hq as (Hfront & Hcount & Hrear).
  split; [|split; [|split; [|split]]].
  - split; [|reflexivity]. unfold ring_ok, init, MAX_QUEUE_SIZE.
    cbn [front rear count]. split; [lia|]. split; [lia|reflexivity].
  - unfold empty, FixedQueue.empty.
    pose proof (contents_length q (proj1 Hcount)) as Hlen.
    destruct (contents q); simpl in Hlen;
      destruct (Z.eqb_spec (count q) 0); auto; lia.
  - unfold full, FixedQueue.full.
    now rewrite (contents_length q (proj1 Hcount)).
  - now apply push_contents.
  - now apply pop_contents.
Qed.

End RingFacts.

(** ** The page numbers *)

Lemma page_of_nonempty {A : Type} (l : list A) (page size : Z) :
  1 <= page -> 1 <= size ->
  page_of l page size <> [] <-> (page - 1) * size < Z.of_nat (length l).
Proof.
  intros Hpage Hsize. unfold page_of. split.
  - intros Hne.
    destruct (Z.lt_ge_cases ((page - 1) * size) (Z.of_nat (length l)))
      as [Hlt|Hge]; [exact Hlt|].
    exfalso. apply Hne. rewrite drop_ge by lia. apply take_nil.
  - intros Hlt Hnil. apply (f_equal (@length A)) in Hnil.
    rewrite length_take, length_drop in Hnil. simpl in Hnil. nia.
Qed.

(** X30: the page numbers [main] prints fit the pages a search returns:
    for a page size of at least 1, [total_pages] is at least 1, a next page
    is announced exactly when the page after the current one holds a
    result, and a previous page exactly when the current page is not the
    first. *)
Theorem main_announces_existing_pages {A : Type} (l : list A)
    (page size : Z) :
  1 <= page -> 1 <= size ->
  Z.of_nat (length l) + size <= INT_MAX -> page < INT_MAX ->
  exists pages,
    total_pages (Z.of_nat (length l)) size = Some pages
    /\ 1 <= pages
    /\ (is_Some (next_page page pages)
        <-> page_of l (page + 1) size <> [])
    /\ (next_page page pages = None \/ next_page page pages = Some (page + 1))
    /\ (is_Some (prev_page page) <-> 1 < page).
Proof.
  unfold INT_MAX. intros Hpage Hsize Hfit Hpagefit.
  set (total := Z.of_nat (length l)) in *.
  assert (Htotal : 0 <= total) by (subst total; lia).
  unfold total_pages.
  destruct (Z.eqb_spec size 0) as [|_]; [lia|].
  rewrite (to_int_small (total + size)) by lia.
  rewrite (to_int_small (total + size - 1)) by lia.
  rewrite Z.quot_div_nonneg by lia.
  assert (Hq : 0 <= (total + size - 1) / size <= total + size - 1).
  { split; [apply Z.div_pos; lia|].
    apply Z.div_le_upper_bound; [lia|]. nia. }
  rewrite to_int_small by lia.
  set (c := (total + size - 1) / size) in *.
  exists (Z.max 1 c). split; [reflexivity|]. split; [lia|].
  assert (Hc : page < c <-> page * size < total).
  { subst c. split.
    - intros Hlt.
      assert (Hle : (page + 1) * size <= total + size - 1).
      { pose proof (Z.mul_div_le (total + size - 1) size ltac:(lia)). nia. }
      nia.
    - intros Hlt.
      assert (Hlow : page + 1 <= (total + size - 1) / size)
        by (apply Z.div_le_lower_bound; [lia|nia]).
      lia. }
  split; [|split].
  - rewrite page_of_nonempty by lia.
    replace (page + 1 - 1) with page by lia.
    unfold next_page.
    destruct (Z.ltb_spec page (Z.max 1 c)) as [Hlt|Hge].
    + split; [intros _; apply Hc; lia|eauto].
    + split; [intros [x Hx]; discriminate|].
      intros Hlt. apply Hc in Hlt. lia.
  - unfold next_page. destruct (page <? Z.max 1 c); [right|now left].
    now rewrite to_int_small by lia.
  - unfold prev_page. destruct (Z.ltb_spec 1 page) as [Hlt|Hge].
    + split; [auto|eauto].
    + split; [intros [x Hx]; discriminate|lia].
Qed.

(** ** The directory scanner *)

Lemma size_pass_spec (rest : list (string * Z)) : forall x,
  Permutation (fst (size_pass x rest) :: snd (size_pass x rest)) (x :: rest)
  /\ length (snd (size_pass x rest)) = length rest
  /\ snd (fst (size_pass x rest)) <= snd x
  /\ Forall (fun y => snd (fst (size_pass x rest)) <= snd y)
            (snd (size_pass x rest)).
Proof.
  induction rest as [|y rest IH]; intros x; simpl.
  - repeat split; auto. lia.
  - destruct (Z.ltb_spec (snd y) (snd x)) as [Hlt|Hge].
    + destruct (IH y) as (Hperm & Hlen & Hle & Hall).
      destruct (size_pass y rest) as [x' r]. simpl in *.
      split; [|split; [now rewrite Hlen|split; [lia|]]].
      * now rewrite (perm_swap x x' r), Hperm.
      * constructor; [lia|exact Hall].
    + destruct (IH x) as (Hperm & Hlen & Hle & Hall).
      destruct (size_pass x rest) as [x' r]. simpl in *.
      split; [|split; [now rewrite Hlen|split; [lia|]]].
      * rewrite (perm_swap y x' r), Hperm. apply perm_swap.
      * constructor; [lia|exact Hall].
Qed.

Lemma size_sort_spec (fuel : nat) : forall l,
  (length l <= fuel)%nat ->
  Permutation (size_sort fuel l) l
  /\ StronglySorted (fun a b => snd a <= snd b) (size_sort fuel l).
Proof.
  induction fuel as [|fuel IH]; intros [|x rest] Hlen; simpl in *;
    try (split; [reflexivity|constructor]); try lia.
  destruct (size_pass_spec rest x) as (Hperm & Hlen' & _ & Hmin).
  destruct (size_pass x rest) as [x' rest']. simpl in *.
  destruct (IH rest' ltac:(lia)) as [Hperm' Hsorted].
  split.
  - now rewrite Hperm'.
  - constructor; [exact Hsorted|]. now rewrite Hperm'.
Qed.

(** X13: the scanner returns the paths of the regular files of the
    directory whose name ends in ".txt", is longer than 4 bytes and whose
    size is at most 200 MiB, each once for each of its entries, in order of
    size, smallest first. *)
Theorem scan_files_optimized_sorts_by_size (dirpath : string)
    (entries : list DirEntry) :
  let sized := sorted_by_size dirpath entries in
  scan_files_optimized dirpath (Some entries) = map fst sized
  /\ StronglySorted (fun a b => snd a <= snd b) sized
  /\ Permutation sized (omap (scan_entry dirpath) entries)
  /\ forall path size,
       In (path, size) sized
       <-> exists entry,
             In entry entries
             /\ path = dirpath +:+ "/" +:+ d_name entry
             /\ ends_with_txt (d_name entry) = true
             /\ d_stat entry = Some (mkStat true size)
             /\ size <= 200 * 1024 * 1024.
Proof.
  cbv zeta. split; [reflexivity|].
  unfold sorted_by_size.
  destruct (size_sort_spec (length (rev (omap (scan_entry dirpath) entries)))
              (rev (omap (scan_entry dirpath) entries)) (le_n _))
    as [Hperm Hsorted].
  assert (Hperm' : Permutation
                     (size_sort (length (rev (omap (scan_entry dirpath)
                                                   entries)))
                                (rev (omap (scan_entry dirpath) entries)))
                     (omap (scan_entry dirpath) entries)).
  { rewrite Hperm. symmetry. apply Permutation_rev. }
  split; [exact Hsorted|]. split; [exact Hperm'|].
  intros path size. rewrite <- !list_elem_of_In, Hperm', list_elem_of_omap.
  split.
  - intros (entry & Hentry & Hscan). exists entry.
    split; [now apply list_elem_of_In|].
    unfold scan_entry in Hscan.
    destruct (ends_with_txt (d_name entry)); [|discriminate].
    destruct (d_stat entry) as [[reg sz]|]; [|discriminate].
    simpl in Hscan. destruct reg; [|discriminate]. simpl in Hscan.
    destruct (Z.leb_spec sz (200 * 1024 * 1024)); [|discriminate].
    injection Hscan as <- <-. auto.
  - intros (entry & Hentry & -> & Htxt & Hstat & Hsize).
    exists entry. split; [now apply list_elem_of_In|].
    unfold scan_entry. rewrite Htxt, Hstat. simpl.
    now destruct (Z.leb_spec size (200 * 1024 * 1024)); [|lia].
Qed.

(** ** Snippets *)

Section SnippetMore.
Local Open Scope nat_scope.

Lemma length_head_of_text (text : string) :
  String.length (head_of_text text) = Nat.min 300 (String.length text).
Proof. unfold head_of_text, substr. rewrite length_substring. lia. Qed.

Lemma length_line_slice (text : string) (i : nat) :
  String.length (line_slice text i) <= 300.
Proof.
  unfold line_slice, substr. rewrite length_substring.
  etransitivity; apply Nat.le_min_l.
Qed.

Lemma first_line_snippet_length (text : string) : forall rest i s,
  first_line_snippet text rest i = Some s ->
  50 < String.length s <= 300.
Proof.
  induction rest as [|c rest IH]; intros i s; cbn [first_line_snippet];
    [discriminate|].
  cbv zeta. fold (line_slice text i).
  destruct (isalpha c); [|apply IH].
  destruct (Nat.ltb_spec 50 (String.length (line_slice text i)))
    as [Hlong|Hshort]; [|apply IH].
  intros [= <-]. split; [exact Hlong|apply length_line_slice].
Qed.

Lemma length_window (text : string) (pos : nat) :
  String.length (window text pos) <= 406.
Proof.
  unfold window. cbv zeta.
  set (context_start := if 200 <? pos then pos - 200 else 0).
  set (context_end := Nat.min (pos + 200) (String.length text)).
  assert (Hsub : String.length (substr text context_start
                                       (context_end - context_start)) <= 400).
  { unfold substr. rewrite length_substring.
    subst context_start context_end.
    destruct (Nat.ltb_spec 200 pos); lia. }
  destruct (0 <? context_start), (context_end <? String.length text);
    rewrite ?length_append; cbn [String.length]; lia.
Qed.

Lemma first_window_length (text : string) (matches : list (nat * string)) :
  forall s, first_window text matches = Some s ->
            100 < String.length s <= 406.
Proof.
  induction matches as [|m rest IH]; intros s; cbn [first_window];
    [discriminate|].
  cbv zeta.
  destruct (Nat.ltb_spec 100 (String.length (window text (fst m))))
    as [Hlong|Hshort]; [|apply IH].
  intros [= <-]. split; [exact Hlong|apply length_window].
Qed.

(** X12: a snippet is never longer than 406 bytes, 400 bytes of text and
    two marks of omission, and not longer than 300 bytes when no term of
    the query stands in the text; it is empty only for an empty text or an
    empty list of terms. *)
Theorem snippet_length_is_bounded (text : string)
    (query_terms : list string) :
  String.length (get_snippet_improved text query_terms) <= 406
  /\ (collect_matches text query_terms = [] ->
      String.length (get_snippet_improved text query_terms) <= 300)
  /\ (get_snippet_improved text query_terms = EmptyString
      <-> text = EmptyString \/ query_terms = []).
Proof.
  destruct text as [|c text];
    [simpl; split; [lia|split; [intros; lia|split; auto]]|].
  destruct query_terms as [|t ts];
    [simpl; split; [lia|split; [intros; lia|split; auto]]|].
  remember (String c text) as full eqn:Hfull.
  remember (t :: ts) as terms eqn:Hterms.
  assert (Hhead : 1 <= String.length (head_of_text full) <= 300).
  { rewrite length_head_of_text. subst full. cbn [String.length]. lia. }
  assert (Hshape : get_snippet_improved full terms
                   = match collect_matches full terms with
                     | [] => default (head_of_text full)
                                     (first_line_snippet full full 0)
                     | _ :: _ =>
                         default (head_of_text full)
                           (first_window full
                              (std_sort pair_lt (collect_matches full terms)))
                     end)
    by (subst full terms; reflexivity).
  rewrite Hshape. clear Hshape.
  assert (Hlen : 1 <= String.length
                        match collect_matches full terms with
                        | [] => default (head_of_text full)
                                        (first_line_snippet full full 0)
                        | _ :: _ =>
                            default (head_of_text full)
                              (first_window full
                                 (std_sort pair_lt
                                    (collect_matches full terms)))
                        end <= 406
                 /\ (collect_matches full terms = [] ->
                     String.length
                       match collect_matches full terms with
                       | [] => default (head_of_text full)
                                       (first_line_snippet full full 0)
                       | _ :: _ =>
                           default (head_of_text full)
                             (first_window full
                                (std_sort pair_lt
                                   (collect_matches full terms)))
                       end <= 300)).
  { destruct (collect_matches full terms) as [|m ms].
    - destruct (first_line_snippet full full 0) as [s|] eqn:Hs;
        cbn [default from_option id].
      + apply first_line_snippet_length in Hs. lia.
      + lia.
    - destruct (first_window full (std_sort pair_lt (m :: ms))) as [s|] eqn:Hs;
        cbn [default from_option id].
      + apply first_window_length in Hs. split; [lia|discriminate].
      + split; [lia|discriminate]. }
  destruct Hlen as [Hbound Hnone].
  split; [lia|]. split; [exact Hnone|].
  split.
  - intros Hempty. rewrite Hempty in Hbound. cbn [String.length] in Hbound. lia.
  - subst full terms. intros [Hfalse|Hfalse]; discriminate.
Qed.

End SnippetMore.


Lemma ring_buffer_is_bounded_queue_witness :
  FixedQueueRing.ring_ok sample_ring
  /\ ((FixedQueueRing.ring_ok (FixedQueueRing.init sample_ring)
       /\ FixedQueueRing.contents (FixedQueueRing.init sample_ring)
          = FixedQueue.init)
      /\ FixedQueueRing.empty sample_ring
         = FixedQueue.empty (FixedQueueRing.contents sample_ring)
      /\ FixedQueueRing.full sample_ring
         = FixedQueue.full (FixedQueueRing.contents sample_ring)
      /\ (FixedQueueRing.ring_ok (snd (FixedQueueRing.push sample_ring 5))
          /\ FixedQueueRing.contents (snd (FixedQueueRing.push sample_ring 5))
             = FixedQueue.push (FixedQueueRing.contents sample_ring) 5
          /\ fst (FixedQueueRing.push sample_ring 5)
             = negb (FixedQueueRing.full sample_ring))
      /\ (FixedQueueRing.ring_ok (snd (FixedQueueRing.pop sample_ring))
          /\ FixedQueueRing.contents (snd (FixedQueueRing.pop sample_ring))
             = FixedQueue.pop (FixedQueueRing.contents sample_ring)
          /\ fst (FixedQueueRing.pop sample_ring)
             = negb (FixedQueueRing.empty sample_ring)
          /\ head (FixedQueueRing.contents sample_ring)
             = if FixedQueueRing.empty sample_ring then None
               else Some (FixedQueueRing.front_elem sample_ring))).
Proof.
  assert (Hok : FixedQueueRing.ring_ok sample_ring)
    by (unfold FixedQueueRing.ring_ok; vm_compute; repeat split; discriminate).
  split; [exact Hok|].
  exact (ring_buffer_is_bounded_queue sample_ring 5 Hok).
Defined.

Lemma main_announces_existing_pages_witness :
  (1 <= 1 /\ 1 <= 2 /\ Z.of_nat (length ["a"; "b"; "c"]) + 2 <= INT_MAX
   /\ 1 < INT_MAX)
  /\ exists pages,
       total_pages (Z.of_nat (length ["a"; "b"; "c"])) 2 = Some pages
       /\ 1 <= pages
       /\ (is_Some (next_page 1 pages)
           <-> page_of ["a"; "b"; "c"] (1 + 1) 2 <> [])
       /\ (next_page 1 pages = None \/ next_page 1 pages = Some (1 + 1))
       /\ (is_Some (prev_page 1) <-> 1 < 1).
Proof.
  assert (Hpage : 1 <= 1) by lia.
  assert (Hsize : 1 <= 2) by lia.
  assert (Hfit : Z.of_nat (length ["a"; "b"; "c"]) + 2 <= INT_MAX)
    by (vm_compute; discriminate).
  assert (Hpagefit : 1 < INT_MAX) by reflexivity.
  split; [auto|].
  exact (main_announces_existing_pages ["a"; "b"; "c"] 1 2
           Hpage Hsize Hfit Hpagefit).
Defined.
